(** * ip.tv: playback state machine, channel navigation and remote-control
  session protocol

  A shallow embedding of the logic of [src/components/Player.jsx],
  [src/components/IpTv.jsx] and the remote page (second half of
  [src/App.jsx]), followed by the properties proved about it.

  Conventions.
  - A React state cell is a record field; a [setX(v)] call is a record
    update.  A handler runs to completion before the next one starts
    (single event loop), so a handler is a function on the world.
  - A [useRef] cell and the DOM/engine object it points to are fields of
    the same world, so that a handler's writes to [video.muted] and its
    [setIsMuted] call are both visible.
  - A JavaScript number is a rational (the value of a double),
    [+Infinity], [-Infinity] or [NaN].  Comparison, [Math.min],
    [Math.max] and [===] are exact on doubles; [+] rounds the exact sum
    to the nearest double, ties to even, as IEEE 754 binary64 does.
  - Strings are sequences of 8-bit code units.  The case maps, [trim]
    and the [.] of regular expressions are those of JavaScript on ASCII
    strings ([Str.isAscii]); the properties that depend on them are
    stated for ASCII strings.
  - A JavaScript exception is the [Throw] case of [Completion]. *)

From Stdlib Require Import QArith ZArith Lia Ascii.
From Stdlib Require Import Qpower Qabs Qround Lqa.
From stdpp Require Import gmap strings list.

Local Open Scope string_scope.

(* ===================================================================== *)
(** ** JavaScript values *)
(* ===================================================================== *)

Module Js.

(** The Number type. *)
Inductive number : Type :=
| Fin (q : Q)
| PosInf
| NegInf
| NaN.

Definition zero : number := Fin 0.
Definition one : number := Fin 1.

(** [Number.isFinite]. *)
Definition isFinite (x : number) : bool :=
  match x with Fin _ => true | _ => false end.

(** [Math.max(a, b)]: [NaN] if either argument is [NaN]. *)
Definition max (a b : number) : number :=
  match a, b with
  | NaN, _ | _, NaN => NaN
  | PosInf, _ | _, PosInf => PosInf
  | NegInf, y => y
  | x, NegInf => x
  | Fin x, Fin y => if Qle_bool x y then b else a
  end.

(** [Math.min(a, b)]. *)
Definition min (a b : number) : number :=
  match a, b with
  | NaN, _ | _, NaN => NaN
  | NegInf, _ | _, NegInf => NegInf
  | PosInf, y => y
  | x, PosInf => x
  | Fin x, Fin y => if Qle_bool x y then a else b
  end.

(** [a === b] on numbers: [NaN] differs from everything. *)
Definition strict_eq (a b : number) : bool :=
  match a, b with
  | Fin x, Fin y => Qeq_bool x y
  | PosInf, PosInf | NegInf, NegInf => true
  | _, _ => false
  end.

(** The [k] with [2^k <= a < 2^(k+1)], for [a > 0]. *)
Definition floor_log2 (a : Q) : Z :=
  let k := (Z.log2 (Qnum a) - Z.log2 (Zpos (Qden a)))%Z in
  if Qle_bool (2 ^ k) a then k else (k - 1)%Z.

(** The integer nearest to [y], the even one of two equally near. *)
Definition round_half_even (y : Q) : Z :=
  let f := Qfloor y in
  match (y - inject_Z f ?= 1 # 2)%Q with
  | Lt => f
  | Gt => (f + 1)%Z
  | Eq => if Z.even f then f else (f + 1)%Z
  end.

(** Rounding of a real to the Number type (binary64, round to nearest,
    ties to even): 53 significant bits, the smallest unit [2^-1074], and
    an infinity once the rounded value reaches [2^1024].  The result is
    written in lowest terms. *)
Definition round64 (x : Q) : number :=
  let a := Qabs x in
  let e := Z.max (floor_log2 a - 52) (-1074) in
  let m := round_half_even (a / 2 ^ e) in
  let r := (inject_Z m * 2 ^ e)%Q in
  if Qle_bool (2 ^ 1024) r
  then (if Qle_bool 0 x then PosInf else NegInf)
  else Fin (Qred (if Qle_bool 0 x then r else - r)).

(** [a + b]: the exact sum of two doubles, rounded. *)
Definition add (a b : number) : number :=
  match a, b with
  | NaN, _ | _, NaN => NaN
  | PosInf, NegInf | NegInf, PosInf => NaN
  | PosInf, _ | _, PosInf => PosInf
  | NegInf, _ | _, NegInf => NegInf
  | Fin x, Fin y => round64 (x + y)
  end.

(** The double that the literal [0.1] denotes,
    [3602879701896397 / 2^55]. *)
Definition tenth : Q := 3602879701896397 # 36028797018963968.

(** Truthiness of a number: [0] and [NaN] are falsy. *)
Definition truthy (a : number) : bool :=
  match a with
  | Fin x => negb (Qeq_bool x 0)
  | NaN => false
  | _ => true
  end.

(** [a || b] on numbers. *)
Definition or (a b : number) : number := if truthy a then a else b.

#[local] Set Warnings "-register-all".

(** Values that can arrive in a message: enough of the language to tell
    a number from what is not one. *)
Inductive value : Type :=
| Undefined
| Null
| Bool (b : bool)
| Num (n : number)
| Str (s : string)
| Obj (fields : list (string * value)).

(** Own property lookup on an object literal; the last write of a key
    wins, as when the literal is evaluated. *)
Fixpoint lookup_field (k : string) (fs : list (string * value)) : option value :=
  match fs with
  | [] => None
  | (k', v) :: rest =>
      match lookup_field k rest with
      | Some v' => Some v'
      | None => if String.eqb k k' then Some v else None
      end
  end.

(** [x?.k]: [undefined] on [null]/[undefined]; primitives carry none of
    the keys used here. *)
Definition opt_get (x : value) (k : string) : value :=
  match x with
  | Obj fs => default Undefined (lookup_field k fs)
  | _ => Undefined
  end.

(** [typeof x === "number"]. *)
Definition is_number (x : value) : option number :=
  match x with Num n => Some n | _ => None end.

(** [x === s] for a string literal [s]. *)
Definition is_str (x : value) (s : string) : bool :=
  match x with Str t => String.eqb t s | _ => false end.

End Js.

(** Result of running a handler: it returns, or an exception escapes. *)
Inductive Completion (A : Type) : Type :=
| Normal (a : A)
| Throw (name : string).
Arguments Normal {A} a.
Arguments Throw {A} name.

#[global] Instance Completion_ret : MRet Completion := λ A a, Normal a.

#[global] Instance Completion_bind : MBind Completion := λ A B k c,
  match c with
  | Normal a => k a
  | Throw e => Throw e
  end.

(** The spec's [clamp(v, lo, hi)], written as the spec words it. *)
Definition clamp (v lo hi : Q) : Q :=
  if Qle_bool v lo then lo else if Qle_bool hi v then hi else v.

(* ===================================================================== *)
(** ** The media element and the stream engine (external collaborators) *)
(* ===================================================================== *)

Module Video.

(** The part of [HTMLVideoElement] the player reads and writes. *)
Record t : Type := mk {
  muted : bool;
  volume : Js.number;
  paused : bool;
  currentTime : Js.number;
  duration : Js.number;
  src : option string;
  (* whether the browser's autoplay policy lets [play()] succeed *)
  playAllowed : bool;
}.

(** A freshly mounted [<video playsInline muted={false}>]. *)
Definition fresh : t :=
  {| muted := false; volume := Js.one; paused := true;
     currentTime := Js.zero; duration := Js.NaN; src := None;
     playAllowed := true |}.

Definition set_muted (b : bool) (v : t) : t :=
  {| muted := b; volume := volume v; paused := paused v;
     currentTime := currentTime v; duration := duration v; src := src v;
     playAllowed := playAllowed v |}.

(** The [volume] setter: a non-finite value is a [TypeError], a value
    outside [0, 1] an [IndexSizeError]. *)
Definition set_volume (x : Js.number) (v : t) : Completion t :=
  match x with
  | Js.Fin q =>
      if Qle_bool 0 q && Qle_bool q 1
      then Normal {| muted := muted v; volume := x; paused := paused v;
                     currentTime := currentTime v; duration := duration v;
                     src := src v; playAllowed := playAllowed v |}
      else Throw "IndexSizeError"
  | _ => Throw "TypeError"
  end.

Definition set_paused (b : bool) (v : t) : t :=
  {| muted := muted v; volume := volume v; paused := b;
     currentTime := currentTime v; duration := duration v; src := src v;
     playAllowed := playAllowed v |}.

Definition set_currentTime (x : Js.number) (v : t) : t :=
  {| muted := muted v; volume := volume v; paused := paused v;
     currentTime := x; duration := duration v; src := src v;
     playAllowed := playAllowed v |}.

Definition set_src (s : option string) (v : t) : t :=
  {| muted := muted v; volume := volume v; paused := paused v;
     currentTime := currentTime v; duration := duration v; src := s;
     playAllowed := playAllowed v |}.

(** [video.pause()]. *)
Definition pause (v : t) : t := set_paused true v.

(** [video.play()]: starts playback when the policy allows it; otherwise
    the returned promise rejects and the element stays paused.  The
    boolean tells the caller whether the promise rejected. *)
Definition play (v : t) : t * bool :=
  if playAllowed v then (set_paused false v, false) else (v, true).

(** [video.removeAttribute("src"); video.load()]: the element is emptied,
    paused, and its playback position returns to 0. *)
Definition unload (v : t) : t :=
  {| muted := muted v; volume := volume v; paused := true;
     currentTime := Js.zero; duration := Js.NaN; src := None;
     playAllowed := playAllowed v |}.

End Video.

Module Hls.

(** [Hls.ErrorTypes]. *)
Inductive ErrorTypes : Type :=
| NETWORK_ERROR
| MEDIA_ERROR
| KEY_SYSTEM_ERROR
| MUX_ERROR
| OTHER_ERROR.

(** The [data] argument of an [Hls.Events.ERROR] callback. *)
Record ErrorData : Type := { fatal : bool; type : ErrorTypes }.

(** The calls the player makes on an engine instance. *)
Inductive Call : Type :=
| loadSource (url : string)
| attachMedia
| startLoad
| recoverMediaError
| destroy.

#[global] Instance Call_eq_dec : EqDecision Call.
Proof. solve_decision. Defined.

(** An engine instance: the source it was given and the calls made on it
    so far, oldest first. *)
Record t : Type := { source : string; calls : list Call }.

Definition call (c : Call) (h : t) : t :=
  {| source := source h; calls := calls h ++ [c] |}.

(** [new Hls(...)] followed by [loadSource(src)] and [attachMedia(video)]. *)
Definition create (url : string) : t :=
  call attachMedia (call (loadSource url) {| source := url; calls := [] |}).

Definition destroyed (h : t) : bool := bool_decide (destroy ∈ calls h).

End Hls.

(* ===================================================================== *)
(** ** Player.jsx *)
(* ===================================================================== *)

Module Player.

(** The [useState] cells of the component that make up PlayerState. *)
Record State : Type := {
  isPlaying : bool;
  isLoading : bool;
  error : option string;
  currentTime : Js.number;
  duration : Js.number;
  volume : Js.number;
  isMuted : bool;
}.

(** The initial values passed to [useState]. *)
Definition initial : State :=
  {| isPlaying := false; isLoading := true; error := None;
     currentTime := Js.zero; duration := Js.zero; volume := Js.one;
     isMuted := false |}.

Definition setIsPlaying (b : bool) (s : State) : State :=
  {| isPlaying := b; isLoading := isLoading s; error := error s;
     currentTime := currentTime s; duration := duration s;
     volume := volume s; isMuted := isMuted s |}.

Definition setIsLoading (b : bool) (s : State) : State :=
  {| isPlaying := isPlaying s; isLoading := b; error := error s;
     currentTime := currentTime s; duration := duration s;
     volume := volume s; isMuted := isMuted s |}.

Definition setError (e : option string) (s : State) : State :=
  {| isPlaying := isPlaying s; isLoading := isLoading s; error := e;
     currentTime := currentTime s; duration := duration s;
     volume := volume s; isMuted := isMuted s |}.

Definition setCurrentTime (x : Js.number) (s : State) : State :=
  {| isPlaying := isPlaying s; isLoading := isLoading s; error := error s;
     currentTime := x; duration := duration s;
     volume := volume s; isMuted := isMuted s |}.

Definition setDuration (x : Js.number) (s : State) : State :=
  {| isPlaying := isPlaying s; isLoading := isLoading s; error := error s;
     currentTime := currentTime s; duration := x;
     volume := volume s; isMuted := isMuted s |}.

Definition setVolume (x : Js.number) (s : State) : State :=
  {| isPlaying := isPlaying s; isLoading := isLoading s; error := error s;
     currentTime := currentTime s; duration := duration s;
     volume := x; isMuted := isMuted s |}.

Definition setIsMuted (b : bool) (s : State) : State :=
  {| isPlaying := isPlaying s; isLoading := isLoading s; error := error s;
     currentTime := currentTime s; duration := duration s;
     volume := volume s; isMuted := b |}.

(** What the browser can play: [Hls.isSupported()], else
    [video.canPlayType("application/vnd.apple.mpegurl")], else nothing. *)
Inductive Support : Type := HlsJs | Native | Unsupported.

(** A mounted component: its state, [videoRef.current], the [hls] variable
    of the [src] effect that is in force, and whether that effect's
    listeners are on the element (that is, whether it has a clean-up to
    run). *)
Record World : Type := {
  state : State;
  videoRef : option Video.t;
  hls : option Hls.t;
  effectLive : bool;
}.

Definition with_state (s : State) (w : World) : World :=
  {| state := s; videoRef := videoRef w; hls := hls w;
     effectLive := effectLive w |}.

Definition with_video (v : Video.t) (w : World) : World :=
  {| state := state w; videoRef := Some v; hls := hls w;
     effectLive := effectLive w |}.

Definition with_hls (h : option Hls.t) (w : World) : World :=
  {| state := state w; videoRef := videoRef w; hls := h;
     effectLive := effectLive w |}.

Definition with_effectLive (b : bool) (w : World) : World :=
  {| state := state w; videoRef := videoRef w; hls := hls w;
     effectLive := b |}.

(** The component right after its first render with a truthy [src]: the
    [<video>] element exists, no effect has run yet. *)
Definition mounted : World :=
  {| state := initial; videoRef := Some Video.fresh; hls := None;
     effectLive := false |}.

(** [togglePlayPause]; the [.catch] of a rejected [play()] runs with it. *)
Definition togglePlayPause (w : World) : World :=
  match videoRef w with
  | Some video =>
      if isPlaying (state w) then with_video (Video.pause video) w
      else
        let '(video', rejected) := Video.play video in
        let w' := with_video video' w in
        if rejected then with_state (setIsPlaying false (state w')) w' else w'
  | None => w
  end.

(** [toggleMute]. *)
Definition toggleMute (w : World) : Completion World :=
  match videoRef w with
  | Some video =>
      let video := Video.set_muted (negb (Video.muted video)) video in
      let s := setIsMuted (Video.muted video) (state w) in
      if negb (Video.muted video) && Js.strict_eq (Video.volume video) Js.zero
      then
        video ← Video.set_volume (Js.Fin (1 # 2)) video;
        mret (with_state (setVolume (Js.Fin (1 # 2)) s) (with_video video w))
      else mret (with_state s (with_video video w))
  | None => mret w
  end.

(** [setVolumeLevel]. *)
Definition setVolumeLevel (newVolume : Js.number) (w : World) : Completion World :=
  match videoRef w with
  | Some video =>
      let clamped := Js.min Js.one (Js.max Js.zero newVolume) in
      video ← Video.set_volume clamped video;
      let s := setVolume clamped (state w) in
      let muted := Js.strict_eq clamped Js.zero in
      let s := setIsMuted muted s in
      let video := Video.set_muted muted video in
      mret (with_state s (with_video video w))
  | None => mret w
  end.

(** [changeVolumeBy]: [(videoRef.current?.volume ?? volume) + delta]. *)
Definition changeVolumeBy (delta : Js.number) (w : World) : Completion World :=
  let base :=
    match videoRef w with
    | Some video => Video.volume video
    | None => volume (state w)
    end in
  setVolumeLevel (Js.add base delta) w.

(** [stopPlayback]. *)
Definition stopPlayback (w : World) : World :=
  match videoRef w with
  | Some video =>
      let video := Video.set_currentTime Js.zero (Video.pause video) in
      with_state (setIsPlaying false (state w)) (with_video video w)
  | None => w
  end.

(** The methods exposed through [useImperativeHandle]. *)
Definition volumeUp : World → Completion World :=
  changeVolumeBy (Js.Fin Js.tenth).
Definition volumeDown : World → Completion World :=
  changeVolumeBy (Js.Fin (- Js.tenth)).

(** [getState()] and the argument of [onPlayerStateChange]. *)
Record Snapshot : Type := {
  snap_isPlaying : bool;
  snap_volume : Js.number;
  snap_isMuted : bool;
}.

Definition getState (w : World) : Snapshot :=
  {| snap_isPlaying := isPlaying (state w);
     snap_volume := volume (state w);
     snap_isMuted := isMuted (state w) |}.

(** *** Listeners installed by the [src] effect.  Inside them [video] is
    the element the effect captured; it is the one [videoRef] holds. *)

Definition handlePlay (w : World) : World :=
  with_state (setIsPlaying true (state w)) w.

Definition handlePause (w : World) : World :=
  with_state (setIsPlaying false (state w)) w.

Definition handleWaiting (w : World) : World :=
  with_state (setIsLoading true (state w)) w.

Definition handleCanPlay (w : World) : World :=
  match videoRef w with
  | Some video =>
      with_state (setDuration (Js.or (Video.duration video) Js.zero)
                    (setIsLoading false (state w))) w
  | None => w
  end.

Definition handleTimeUpdate (w : World) : World :=
  match videoRef w with
  | Some video =>
      with_state (setCurrentTime (Js.or (Video.currentTime video) Js.zero)
                    (state w)) w
  | None => w
  end.

Definition handleLoadedMetadata (w : World) : World :=
  match videoRef w with
  | Some video =>
      with_state (setIsMuted (Video.muted video)
                    (setVolume (Video.volume video)
                       (setDuration (Js.or (Video.duration video) Js.zero)
                          (state w)))) w
  | None => w
  end.

Definition handleVolumeChangeEvent (w : World) : World :=
  match videoRef w with
  | Some video =>
      with_state (setIsMuted (Video.muted video
                              || Js.strict_eq (Video.volume video) Js.zero)
                    (setVolume (Video.volume video) (state w))) w
  | None => w
  end.

Definition handleError (w : World) : World :=
  with_state (setIsLoading false
                (setError (Some "Failed to load video") (state w))) w.

(** The [MANIFEST_PARSED] callback (and the [loadedmetadata] callback of
    the native branch, which has the same body). *)
Definition onManifestParsed (w : World) : World :=
  match videoRef w with
  | Some video =>
      let s := setIsLoading false (state w) in
      let '(video', rejected) := Video.play video in
      let s := if rejected then setIsLoading false (setIsPlaying false s) else s in
      with_state s (with_video video' w)
  | None => w
  end.

(** The [Hls.Events.ERROR] callback.  It is a closure over the effect's
    [hls]; without an engine there is nothing to call it. *)
Definition onHlsError (data : Hls.ErrorData) (w : World) : World :=
  match hls w with
  | Some h =>
      if Hls.fatal data then
        match Hls.type data with
        | Hls.NETWORK_ERROR => with_hls (Some (Hls.call Hls.startLoad h)) w
        | Hls.MEDIA_ERROR => with_hls (Some (Hls.call Hls.recoverMediaError h)) w
        | _ =>
            with_state (setIsLoading false
                          (setError (Some "Failed to load video") (state w)))
              (with_hls (Some (Hls.call Hls.destroy h)) w)
        end
      else w
  | None => w
  end.

(** *** The effect on [src]. *)

(** [!src]. *)
Definition falsy (src : option string) : bool :=
  match src with
  | None => true
  | Some s => String.eqb s ""
  end.

(** The clean-up returned by the effect: destroy the engine, drop the
    listeners, pause and unload the element.  No state cell is written. *)
Definition srcCleanup (w : World) : World :=
  {| state := state w;
     videoRef := Video.unload <$> (Video.pause <$> videoRef w);
     hls := Hls.call Hls.destroy <$> hls w;
     effectLive := false |}.

(** React's commit: the [<video>] element exists exactly while [src] is
    truthy. *)
Definition commit (src : option string) (w : World) : World :=
  if falsy src then
    {| state := state w; videoRef := None; hls := hls w;
       effectLive := effectLive w |}
  else
    match videoRef w with
    | Some _ => w
    | None => with_video Video.fresh w
    end.

(** The effect body, entered with the new [src]. *)
Definition srcEffect (sup : Support) (src : option string) (w : World) : World :=
  match videoRef w, src with
  | Some video, Some url =>
      if falsy src then w
      else
        let s := setError None (setIsLoading true (state w)) in
        match sup with
        | HlsJs =>
            {| state := s; videoRef := Some video;
               hls := Some (Hls.create url); effectLive := true |}
        | Native =>
            {| state := s; videoRef := Some (Video.set_src (Some url) video);
               hls := None; effectLive := true |}
        | Unsupported =>
            {| state := setIsLoading false
                          (setError (Some "HLS is not supported in this browser") s);
               videoRef := Some video; hls := None; effectLive := true |}
        end
  | _, _ => w
  end.

(** A render in which [src] differs from the previous one: the previous
    effect's clean-up (if it returned one), the commit, the new effect. *)
Definition changeSrc (sup : Support) (src : option string) (w : World) : World :=
  srcEffect sup src (commit src (if effectLive w then srcCleanup w else w)).

(** *** Everything that can happen to a mounted player. *)

Inductive Action : Type :=
| TogglePlayPause
| Stop
| SetVolume (v : Js.number)
| VolumeUp
| VolumeDown
| ToggleMute
| OnPlay
| OnPause
| OnWaiting
| OnCanPlay
| OnTimeUpdate
| OnLoadedMetadata
| OnVolumeChange
| OnError
| OnManifestParsed
| OnHlsError (data : Hls.ErrorData)
| ChangeSrc (sup : Support) (src : option string)
| Tick (t : Js.number).

(** Playback moving the element's clock. *)
Definition tick (t : Js.number) (w : World) : World :=
  match videoRef w with
  | Some video => with_video (Video.set_currentTime t video) w
  | None => w
  end.

(** Listeners fire only while the effect that installed them is live. *)
Definition whenLive (f : World → World) (w : World) : World :=
  if effectLive w then f w else w.

Definition run (a : Action) (w : World) : Completion World :=
  match a with
  | TogglePlayPause => mret (togglePlayPause w)
  | Stop => mret (stopPlayback w)
  | SetVolume v => setVolumeLevel v w
  | VolumeUp => volumeUp w
  | VolumeDown => volumeDown w
  | ToggleMute => toggleMute w
  | OnPlay => mret (whenLive handlePlay w)
  | OnPause => mret (whenLive handlePause w)
  | OnWaiting => mret (whenLive handleWaiting w)
  | OnCanPlay => mret (whenLive handleCanPlay w)
  | OnTimeUpdate => mret (whenLive handleTimeUpdate w)
  | OnLoadedMetadata => mret (whenLive handleLoadedMetadata w)
  | OnVolumeChange => mret (whenLive handleVolumeChangeEvent w)
  | OnError => mret (whenLive handleError w)
  | OnManifestParsed => mret (whenLive onManifestParsed w)
  | OnHlsError data => mret (whenLive (onHlsError data) w)
  | ChangeSrc sup src => mret (changeSrc sup src w)
  | Tick t => mret (tick t w)
  end.

(** Running a list of actions, stopping at the first exception. *)
Fixpoint runs (l : list Action) (w : World) : Completion World :=
  match l with
  | [] => mret w
  | a :: l' => w' ← run a w; runs l' w'
  end.

(** The state cells mirror the element: [volume] always, [isMuted]
    whenever the volume is not 0. *)
Definition coherent (w : World) : Prop :=
  match videoRef w with
  | Some video =>
      volume (state w) = Video.volume video
      ∧ (Js.strict_eq (Video.volume video) Js.zero = false →
         isMuted (state w) = Video.muted video)
  | None => True
  end.

End Player.

(* ===================================================================== *)
(** ** String helpers (JavaScript's on ASCII strings) *)
(* ===================================================================== *)

Module Str.

Definition lower_char (c : ascii) : ascii :=
  let n := nat_of_ascii c in
  if (65 <=? n)%nat && (n <=? 90)%nat then ascii_of_nat (n + 32) else c.

Definition upper_char (c : ascii) : ascii :=
  let n := nat_of_ascii c in
  if (97 <=? n)%nat && (n <=? 122)%nat then ascii_of_nat (n - 32) else c.

Fixpoint map (f : ascii → ascii) (s : string) : string :=
  match s with
  | EmptyString => EmptyString
  | String c s' => String (f c) (map f s')
  end.

(** [s.toLowerCase()] and [s.toUpperCase()] for an ASCII string [s]
    ([isAscii] below): the letters A-Z and a-z are mapped, every other
    ASCII character is kept.  Beyond ASCII the JavaScript maps do more
    (some characters even change the length), which is why the
    properties about the search term assume ASCII strings. *)
Definition toLowerCase : string → string := map lower_char.
Definition toUpperCase : string → string := map upper_char.

(** [s.includes(sub)]. *)
Fixpoint includes (s sub : string) : bool :=
  String.prefix sub s
  || match s with
     | EmptyString => false
     | String _ s' => includes s' sub
     end.

(** [s.slice(from, to)] for [0 <= from <= to]. *)
Definition slice (from to : nat) (s : string) : string :=
  String.substring from (to - from) s.

(** Characters of a string. *)
Fixpoint chars (s : string) : list ascii :=
  match s with
  | EmptyString => []
  | String c s' => c :: chars s'
  end.

(** [0-9A-Z]. *)
Definition upper_alnum (c : ascii) : bool :=
  let n := nat_of_ascii c in
  ((48 <=? n)%nat && (n <=? 57)%nat) || ((65 <=? n)%nat && (n <=? 90)%nat).

(** An ASCII string: every code unit is below 128. *)
Definition isAscii (s : string) : Prop :=
  Forall (λ c, (nat_of_ascii c <? 128)%nat = true) (chars s).

End Str.

(* ===================================================================== *)
(** ** PeerJS data connections (external collaborator) *)
(* ===================================================================== *)

Module Peer.

(** A [DataConnection] as seen from one end: whether it is open and what
    has been handed to [send] on it, oldest first. *)
Record DataConnection (M : Type) : Type := {
  open : bool;
  sent : list M;
}.
Arguments open {M} _.
Arguments sent {M} _.

Definition send {M} (m : M) (c : DataConnection M) : DataConnection M :=
  {| open := open c; sent := sent c ++ [m] |}.

Definition close {M} (c : DataConnection M) : DataConnection M :=
  {| open := false; sent := sent c |}.

End Peer.

(* ===================================================================== *)
(** ** IpTv.jsx: channel navigation and the session host *)
(* ===================================================================== *)

Module IpTv.

Record Channel : Type := {
  name : string;
  url : string;
  logo : option string;
  group : string;
}.

#[global] Instance Channel_eq_dec : EqDecision Channel.
Proof. solve_decision. Defined.

(** *** Session identifiers *)

(** The value of [Math.random()]: [mantissa / 2^53] with
    [0 <= mantissa < 2^53]. *)
Definition Random : Type := Z.

Definition digit36 (d : Z) : ascii :=
  if (d <? 10)%Z then ascii_of_nat (48 + Z.to_nat d)
  else ascii_of_nat (87 + Z.to_nat d).

(** Base-36 digits of [num / 2^53] after the point.  A double's expansion
    ends within 27 digits. *)
Fixpoint fraction36 (fuel : nat) (num : Z) : string :=
  match fuel with
  | O => EmptyString
  | S fuel' =>
      if (num =? 0)%Z then EmptyString
      else
        let x := (num * 36)%Z in
        String (digit36 (x / 2 ^ 53)) (fraction36 fuel' (x mod 2 ^ 53))
  end.

(** [r.toString(36)] for [0 <= r < 1]: the exact expansion. *)
Definition toString36 (r : Random) : string :=
  if (r =? 0)%Z then "0" else "0." +:+ fraction36 27 r.

(** [generateSessionId], given what [Math.random()] returned. *)
Definition generateSessionId (r : Random) : string :=
  Str.toUpperCase (Str.slice 2 8 (toString36 r)).

Definition REMOTE_SESSION_STORAGE_KEY : string := "iptv-remote-session-id".

(** *** Messages *)

Record Nav : Type := { hasNext : bool; hasPrev : bool }.

(** The [payload] of a [state] message. *)
Record Payload : Type := {
  channel : option Channel;
  player : Player.Snapshot;
  nav : Nav;
}.

(** What the host sends: only [{type: "state", payload}]. *)
Inductive HostMessage : Type :=
| StateMsg (payload : Payload).

(** *** The component *)

Inductive HostStatus : Type := inactive | connecting | ready | error.

(** The values a callback created during a render closes over. *)
Record Render : Type := {
  r_filteredChannels : list Channel;
  r_selectedChannel : option Channel;
  r_playerState : Player.Snapshot;
}.

(** The [Peer] created by [startRemoteHost]; its event handlers are
    closures of the render in which [startRemoteHost] was created. *)
Record HostPeer : Type := {
  peerId : string;
  captured : Render;
}.

Record Host : Type := {
  channels : list Channel;
  selectedChannel : option Channel;
  deferredSearchTerm : string;
  deferredCategory : string;
  playerState : Player.Snapshot;
  remoteSessionId : string;
  remoteHostStatus : HostStatus;
  remoteConnectedClients : nat;
  remoteError : option string;
  (* refs *)
  playerRef : option Player.World;
  remotePeerRef : option HostPeer;
  remoteConnectionsRef : list nat;
  (* the connection objects, by identity, and the browser's storage *)
  connections : gmap nat (Peer.DataConnection HostMessage);
  localStorage : gmap string string;
}.

Definition setSelectedChannel (c : option Channel) (h : Host) : Host :=
  {| channels := channels h; selectedChannel := c;
     deferredSearchTerm := deferredSearchTerm h;
     deferredCategory := deferredCategory h;
     playerState := playerState h; remoteSessionId := remoteSessionId h;
     remoteHostStatus := remoteHostStatus h;
     remoteConnectedClients := remoteConnectedClients h;
     remoteError := remoteError h; playerRef := playerRef h;
     remotePeerRef := remotePeerRef h;
     remoteConnectionsRef := remoteConnectionsRef h;
     connections := connections h; localStorage := localStorage h |}.

Definition setPlayerState (p : Player.Snapshot) (h : Host) : Host :=
  {| channels := channels h; selectedChannel := selectedChannel h;
     deferredSearchTerm := deferredSearchTerm h;
     deferredCategory := deferredCategory h;
     playerState := p; remoteSessionId := remoteSessionId h;
     remoteHostStatus := remoteHostStatus h;
     remoteConnectedClients := remoteConnectedClients h;
     remoteError := remoteError h; playerRef := playerRef h;
     remotePeerRef := remotePeerRef h;
     remoteConnectionsRef := remoteConnectionsRef h;
     connections := connections h; localStorage := localStorage h |}.

Definition with_player (p : option Player.World) (h : Host) : Host :=
  {| channels := channels h; selectedChannel := selectedChannel h;
     deferredSearchTerm := deferredSearchTerm h;
     deferredCategory := deferredCategory h;
     playerState := playerState h; remoteSessionId := remoteSessionId h;
     remoteHostStatus := remoteHostStatus h;
     remoteConnectedClients := remoteConnectedClients h;
     remoteError := remoteError h; playerRef := p;
     remotePeerRef := remotePeerRef h;
     remoteConnectionsRef := remoteConnectionsRef h;
     connections := connections h; localStorage := localStorage h |}.

Definition setRemoteHostStatus (s : HostStatus) (h : Host) : Host :=
  {| channels := channels h; selectedChannel := selectedChannel h;
     deferredSearchTerm := deferredSearchTerm h;
     deferredCategory := deferredCategory h;
     playerState := playerState h; remoteSessionId := remoteSessionId h;
     remoteHostStatus := s;
     remoteConnectedClients := remoteConnectedClients h;
     remoteError := remoteError h; playerRef := playerRef h;
     remotePeerRef := remotePeerRef h;
     remoteConnectionsRef := remoteConnectionsRef h;
     connections := connections h; localStorage := localStorage h |}.

Definition setRemoteError (e : option string) (h : Host) : Host :=
  {| channels := channels h; selectedChannel := selectedChannel h;
     deferredSearchTerm := deferredSearchTerm h;
     deferredCategory := deferredCategory h;
     playerState := playerState h; remoteSessionId := remoteSessionId h;
     remoteHostStatus := remoteHostStatus h;
     remoteConnectedClients := remoteConnectedClients h;
     remoteError := e; playerRef := playerRef h;
     remotePeerRef := remotePeerRef h;
     remoteConnectionsRef := remoteConnectionsRef h;
     connections := connections h; localStorage := localStorage h |}.

(** [setRemoteSessionId(id); localStorage.setItem(KEY, id)]. *)
Definition storeSessionId (id : string) (h : Host) : Host :=
  {| channels := channels h; selectedChannel := selectedChannel h;
     deferredSearchTerm := deferredSearchTerm h;
     deferredCategory := deferredCategory h;
     playerState := playerState h; remoteSessionId := id;
     remoteHostStatus := remoteHostStatus h;
     remoteConnectedClients := remoteConnectedClients h;
     remoteError := remoteError h; playerRef := playerRef h;
     remotePeerRef := remotePeerRef h;
     remoteConnectionsRef := remoteConnectionsRef h;
     connections := connections h;
     localStorage := <[REMOTE_SESSION_STORAGE_KEY := id]> (localStorage h) |}.

Definition with_peer (p : option HostPeer) (h : Host) : Host :=
  {| channels := channels h; selectedChannel := selectedChannel h;
     deferredSearchTerm := deferredSearchTerm h;
     deferredCategory := deferredCategory h;
     playerState := playerState h; remoteSessionId := remoteSessionId h;
     remoteHostStatus := remoteHostStatus h;
     remoteConnectedClients := remoteConnectedClients h;
     remoteError := remoteError h; playerRef := playerRef h;
     remotePeerRef := p;
     remoteConnectionsRef := remoteConnectionsRef h;
     connections := connections h; localStorage := localStorage h |}.

(** [remoteConnectionsRef.current = l;
     setRemoteConnectedClients(l.length)]. *)
Definition with_connectionList (l : list nat) (h : Host) : Host :=
  {| channels := channels h; selectedChannel := selectedChannel h;
     deferredSearchTerm := deferredSearchTerm h;
     deferredCategory := deferredCategory h;
     playerState := playerState h; remoteSessionId := remoteSessionId h;
     remoteHostStatus := remoteHostStatus h;
     remoteConnectedClients := length l;
     remoteError := remoteError h; playerRef := playerRef h;
     remotePeerRef := remotePeerRef h;
     remoteConnectionsRef := l;
     connections := connections h; localStorage := localStorage h |}.

Definition with_connections
    (m : gmap nat (Peer.DataConnection HostMessage)) (h : Host) : Host :=
  {| channels := channels h; selectedChannel := selectedChannel h;
     deferredSearchTerm := deferredSearchTerm h;
     deferredCategory := deferredCategory h;
     playerState := playerState h; remoteSessionId := remoteSessionId h;
     remoteHostStatus := remoteHostStatus h;
     remoteConnectedClients := remoteConnectedClients h;
     remoteError := remoteError h; playerRef := playerRef h;
     remotePeerRef := remotePeerRef h;
     remoteConnectionsRef := remoteConnectionsRef h;
     connections := m; localStorage := localStorage h |}.

(** *** Filtering and navigation *)

(** The predicate of [channels.filter(...)] in [filteredChannels]. *)
Definition matches (search category : string) (ch : Channel) : bool :=
  let matchesName :=
    Str.includes (Str.toLowerCase (name ch)) search in
  let matchesCategory :=
    String.eqb category "All" || String.eqb (group ch) category in
  matchesName && matchesCategory.

Definition filteredChannels (h : Host) : list Channel :=
  let search := Str.toLowerCase (deferredSearchTerm h) in
  let category := deferredCategory h in
  List.filter (matches search category) (channels h).

(** What the callbacks of the current render see. *)
Definition render (h : Host) : Render :=
  {| r_filteredChannels := filteredChannels h;
     r_selectedChannel := selectedChannel h;
     r_playerState := playerState h |}.

(** [ch.url === selectedChannel?.url]. *)
Definition sameUrl (sel : option Channel) (ch : Channel) : Prop :=
  Some (url ch) = url <$> sel.

#[global] Instance sameUrl_dec sel ch : Decision (sameUrl sel ch).
Proof. unfold sameUrl. apply _. Defined.

(** [arr.findIndex(p)]: the first index at which [p] holds, else [-1]. *)
Definition findIndex {A} (P : A → Prop) `{∀ x, Decision (P x)} (l : list A)
  : Z :=
  match list_find P l with
  | Some (i, _) => Z.of_nat i
  | None => (-1)%Z
  end.

Definition getCurrentChannelIndex (r : Render) : Z :=
  findIndex (sameUrl (r_selectedChannel r)) (r_filteredChannels r).

Definition hasNextChannel (r : Render) : bool :=
  let currentIndex := getCurrentChannelIndex r in
  (0 <=? currentIndex)%Z
  && (currentIndex <? Z.of_nat (length (r_filteredChannels r)) - 1)%Z.

Definition hasPrevChannel (r : Render) : bool :=
  let currentIndex := getCurrentChannelIndex r in
  (0 <? currentIndex)%Z.

(** [arr[i]]; [undefined] outside the array. *)
Definition at_index {A} (l : list A) (i : Z) : option A :=
  if (i <? 0)%Z then None else l !! Z.to_nat i.

Definition handleNextChannel (r : Render) (h : Host) : Host :=
  if (length (r_filteredChannels r) =? 0)%nat then h
  else
    let currentIndex := getCurrentChannelIndex r in
    if (0 <=? currentIndex)%Z
       && (currentIndex <? Z.of_nat (length (r_filteredChannels r)) - 1)%Z
    then setSelectedChannel (at_index (r_filteredChannels r) (currentIndex + 1)) h
    else h.

Definition handlePrevChannel (r : Render) (h : Host) : Host :=
  if (length (r_filteredChannels r) =? 0)%nat then h
  else
    let currentIndex := getCurrentChannelIndex r in
    if (0 <? currentIndex)%Z
    then setSelectedChannel (at_index (r_filteredChannels r) (currentIndex - 1)) h
    else h.

(** The navigator as the user interface calls it: with the callbacks of
    the current render. *)
Definition next (h : Host) : Host := handleNextChannel (render h) h.
Definition prev (h : Host) : Host := handlePrevChannel (render h) h.
Definition canNext (h : Host) : bool := hasNextChannel (render h).
Definition canPrev (h : Host) : bool := hasPrevChannel (render h).

(** The spec's anchor: the selected channel's position in the filtered
    view by [url] equality, that is, the first index whose channel has
    the selected channel's url. *)
Definition anchorAt (sel : option Channel) (fc : list Channel) (n : nat) : Prop :=
  ∃ ch, fc !! n = Some ch
        ∧ sameUrl sel ch
        ∧ ∀ j y, fc !! j = Some y → (j < n)%nat → ¬ sameUrl sel y.

Definition anchorAbsent (sel : option Channel) (fc : list Channel) : Prop :=
  Forall (λ ch, ¬ sameUrl sel ch) fc.

(** *** Commands forwarded to the player through [playerRef] *)

(** [playerRef.current?.m(...)]. *)
Definition onPlayer (m : Player.World → Completion Player.World) (h : Host)
  : Completion Host :=
  match playerRef h with
  | Some p => p' ← m p; mret (with_player (Some p') h)
  | None => mret h
  end.

Definition remotePlayPause : Host → Completion Host :=
  onPlayer (λ p, mret (Player.togglePlayPause p)).

Definition remoteStop : Host → Completion Host :=
  onPlayer (λ p, mret (Player.stopPlayback p)).

Definition remoteMuteToggle : Host → Completion Host :=
  onPlayer Player.toggleMute.

Definition remoteVolumeUp : Host → Completion Host :=
  onPlayer Player.volumeUp.

Definition remoteVolumeDown : Host → Completion Host :=
  onPlayer Player.volumeDown.

Definition remoteVolumeChange (value : Js.number) : Host → Completion Host :=
  onPlayer (Player.setVolumeLevel value).

(** [handleRemoteCommand(command, payload)]; the [switch] compares
    [command] with [===]. *)
Definition handleRemoteCommand (r : Render) (command payload : Js.value)
    (h : Host) : Completion Host :=
  if Js.is_str command "next" then mret (handleNextChannel r h)
  else if Js.is_str command "prev" then mret (handlePrevChannel r h)
  else if Js.is_str command "toggle-play" then remotePlayPause h
  else if Js.is_str command "stop" then remoteStop h
  else if Js.is_str command "toggle-mute" then remoteMuteToggle h
  else if Js.is_str command "volume-up" then remoteVolumeUp h
  else if Js.is_str command "volume-down" then remoteVolumeDown h
  else if Js.is_str command "set-volume" then
    match Js.is_number (Js.opt_get payload "value") with
    | Some value => remoteVolumeChange value h
    | None => mret h
    end
  else mret h.

(** The [onPlayerStateChange] effect of the player: [setPlayerState]
    with the player's current [isPlaying], [volume], [isMuted]. *)
Definition onPlayerStateChange (h : Host) : Host :=
  match playerRef h with
  | Some p => setPlayerState (Player.getState p) h
  | None => h
  end.

(** *** The session host *)

Definition snapshot (r : Render) : HostMessage :=
  StateMsg {| channel := r_selectedChannel r;
              player := r_playerState r;
              nav := {| hasNext := hasNextChannel r;
                        hasPrev := hasPrevChannel r |} |}.

Definition sendStateToConnection (r : Render) (conn : nat) (h : Host) : Host :=
  match connections h !! conn with
  | Some c =>
      if Peer.open c
      then with_connections (<[conn := Peer.send (snapshot r) c]> (connections h)) h
      else h
  | None => h
  end.

Definition broadcastRemoteState (r : Render) (h : Host) : Host :=
  if (length (remoteConnectionsRef h) =? 0)%nat then h
  else foldl (λ h conn, sendStateToConnection r conn h) h (remoteConnectionsRef h).

Definition stopRemoteHost (nextStatus : HostStatus) (h : Host) : Host :=
  let closed :=
    foldl (λ m conn, alter Peer.close conn m) (connections h)
      (remoteConnectionsRef h) in
  let h := with_connections closed h in
  let h := with_connectionList [] h in
  let h := with_peer None h in
  setRemoteHostStatus nextStatus h.

(** [startRemoteHost], given what [Math.random()] returns if it is
    called. *)
Definition startRemoteHost (rnd : Random) (h : Host) : Host :=
  match remotePeerRef h with
  | Some _ => setRemoteHostStatus ready h
  | None =>
      let id :=
        if String.eqb (remoteSessionId h) "" then generateSessionId rnd
        else remoteSessionId h in
      let h' := storeSessionId id h in
      let h' := setRemoteError None (setRemoteHostStatus connecting h') in
      with_peer (Some {| peerId := id; captured := render h |}) h'
  end.

(** The component's first render: [remoteSessionId] starts as
    [localStorage.getItem(KEY) || ""]. *)
Definition init (storage : gmap string string) : Host :=
  {| channels := []; selectedChannel := None;
     deferredSearchTerm := ""; deferredCategory := "All";
     playerState := {| Player.snap_isPlaying := false;
                       Player.snap_volume := Js.one;
                       Player.snap_isMuted := false |};
     remoteSessionId := default "" (storage !! REMOTE_SESSION_STORAGE_KEY);
     remoteHostStatus := inactive; remoteConnectedClients := 0;
     remoteError := None; playerRef := None; remotePeerRef := None;
     remoteConnectionsRef := []; connections := ∅;
     localStorage := storage |}.

(** [peer.on("open")]. *)
Definition onPeerOpen (h : Host) : Host :=
  match remotePeerRef h with
  | Some _ => setRemoteHostStatus ready h
  | None => h
  end.

(** [peer.on("connection")]: a new connection object arrives, open or
    not yet open. *)
Definition onPeerConnection (isOpen : bool) (h : Host) : Host :=
  match remotePeerRef h with
  | Some p =>
      let conn := fresh (dom (connections h)) in
      let h := with_connections
                 (<[conn := {| Peer.open := isOpen; Peer.sent := [] |}]>
                    (connections h)) h in
      let h := with_connectionList (remoteConnectionsRef h ++ [conn]) h in
      sendStateToConnection (captured p) conn h
  | None => h
  end.

(** [conn.on("data")]. *)
Definition onConnData (conn : nat) (message : Js.value) (h : Host)
  : Completion Host :=
  match remotePeerRef h with
  | Some p =>
      if Js.is_str (Js.opt_get message "type") "command" then
        handleRemoteCommand (captured p) (Js.opt_get message "command")
          (Js.opt_get message "payload") h
      else if Js.is_str (Js.opt_get message "type") "remote-ready" then
        mret (sendStateToConnection (captured p) conn h)
      else mret h
  | None => mret h
  end.

Definition cleanupConnection (conn : nat) (h : Host) : Host :=
  with_connectionList (filter (λ c, c ≠ conn) (remoteConnectionsRef h)) h.

(** [conn.on("close")]: the connection is no longer open when the
    handler runs. *)
Definition onConnClose (conn : nat) (h : Host) : Host :=
  cleanupConnection conn
    (with_connections (alter Peer.close conn (connections h)) h).

(** [conn.on("error")]. *)
Definition onConnError (conn : nat) (h : Host) : Host :=
  cleanupConnection conn h.

(** [peer.on("error")]: [err?.message || "Unable to start remote
    session"]. *)
Definition onPeerError (message : option string) (h : Host) : Host :=
  let text :=
    match message with
    | Some m => if String.eqb m "" then "Unable to start remote session" else m
    | None => "Unable to start remote session"
    end in
  stopRemoteHost error (setRemoteError (Some text) h).

(** The spec's command set. *)
Definition knownCommand (command : Js.value) : bool :=
  Js.is_str command "next" || Js.is_str command "prev"
  || Js.is_str command "toggle-play" || Js.is_str command "stop"
  || Js.is_str command "toggle-mute" || Js.is_str command "volume-up"
  || Js.is_str command "volume-down" || Js.is_str command "set-volume".

(** What one broadcast does to a connection object it visits. *)
Definition delivered (r : Render) (c : Peer.DataConnection HostMessage)
  : Peer.DataConnection HostMessage :=
  if Peer.open c then Peer.send (snapshot r) c else c.

(** A host with three channels, the second selected and playing. *)
Definition exampleChannel (u : string) : Channel :=
  {| name := u; url := u; logo := None; group := "Other" |}.

Definition exampleHost : Host :=
  {| channels := [exampleChannel "a"; exampleChannel "b"; exampleChannel "c"];
     selectedChannel := Some (exampleChannel "b");
     deferredSearchTerm := ""; deferredCategory := "All";
     playerState := {| Player.snap_isPlaying := false;
                       Player.snap_volume := Js.one;
                       Player.snap_isMuted := false |};
     remoteSessionId := "";
     remoteHostStatus := inactive; remoteConnectedClients := 0;
     remoteError := None;
     playerRef := Some (Player.changeSrc Player.HlsJs (Some "b") Player.mounted);
     remotePeerRef := None;
     remoteConnectionsRef := []; connections := ∅;
     localStorage := ∅ |}.

(** Connection identities in the list are pairwise distinct and name
    objects that exist. *)
Definition wf (h : Host) : Prop :=
  NoDup (remoteConnectionsRef h)
  ∧ ∀ c, c ∈ remoteConnectionsRef h → is_Some (connections h !! c).

End IpTv.

(* ===================================================================== *)
(** ** The remote page (controller) *)
(* ===================================================================== *)

Module RemotePage.

Inductive ConnectionStatus : Type :=
| initializing | idle | connecting | connected | disconnected | error.

(** The commands of the remote control's buttons and slider. *)
Inductive Command : Type :=
| Next
| Prev
| TogglePlay
| Stop
| ToggleMute
| VolumeUp
| VolumeDown
| SetVolume (value : Js.number).

(** What arrives on the connection: a message as the host builds it
    ([type] state with a snapshot as payload), or a message of another
    [type]. *)
Inductive Inbound : Type :=
| FromHost (m : IpTv.HostMessage)
| Other (v : Js.value).

Record Controller : Type := {
  clientId : string;
  targetSession : string;
  connectionStatus : ConnectionStatus;
  hostState : IpTv.Payload;
  (* refs *)
  peerRef : bool;
  connectionRef : option nat;
  (* the connection objects, by identity *)
  connections : gmap nat (Peer.DataConnection Js.value);
}.

(** The initial [useState] values; the peer is created by the mount
    effect. *)
Definition init (paramSessionId : string) : Controller :=
  {| clientId := ""; targetSession := paramSessionId;
     connectionStatus := initializing;
     hostState :=
       {| IpTv.channel := None;
          IpTv.player := {| Player.snap_isPlaying := false;
                            Player.snap_volume := Js.one;
                            Player.snap_isMuted := false |};
          IpTv.nav := {| IpTv.hasNext := false; IpTv.hasPrev := false |} |};
     peerRef := true; connectionRef := None; connections := ∅ |}.

Definition setConnectionStatus (s : ConnectionStatus) (c : Controller)
  : Controller :=
  {| clientId := clientId c; targetSession := targetSession c;
     connectionStatus := s; hostState := hostState c;
     peerRef := peerRef c; connectionRef := connectionRef c;
     connections := connections c |}.

Definition setHostState (p : IpTv.Payload) (c : Controller) : Controller :=
  {| clientId := clientId c; targetSession := targetSession c;
     connectionStatus := connectionStatus c; hostState := p;
     peerRef := peerRef c; connectionRef := connectionRef c;
     connections := connections c |}.

Definition with_connectionRef (r : option nat) (c : Controller) : Controller :=
  {| clientId := clientId c; targetSession := targetSession c;
     connectionStatus := connectionStatus c; hostState := hostState c;
     peerRef := peerRef c; connectionRef := r;
     connections := connections c |}.

Definition with_connections
    (m : gmap nat (Peer.DataConnection Js.value)) (c : Controller) : Controller :=
  {| clientId := clientId c; targetSession := targetSession c;
     connectionStatus := connectionStatus c; hostState := hostState c;
     peerRef := peerRef c; connectionRef := connectionRef c;
     connections := m |}.

(** [conn.on("close")], the handler [connectToSession] registers on
    each connection it makes (defined here because [destroyConnection]
    can run it). *)
Definition onClose (conn : nat) (c : Controller) : Controller :=
  let c := with_connections (alter Peer.close conn (connections c)) c in
  let c := if bool_decide (connectionRef c = Some conn)
           then with_connectionRef None c else c in
  let c := setConnectionStatus disconnected c in
  let prev := hostState c in
  setHostState
    {| IpTv.channel := None;
       IpTv.player := IpTv.player prev;
       IpTv.nav := {| IpTv.hasNext := false; IpTv.hasPrev := false |} |} c.

(** [destroyConnection].  [close()] on a connection that is open emits
    its [close] event before it returns, so the handler above runs
    inside the call; on a connection that is not open yet it emits
    nothing. *)
Definition destroyConnection (c : Controller) : Controller :=
  match connectionRef c with
  | Some conn =>
      let c :=
        if default false (Peer.open <$> connections c !! conn)
        then onClose conn c
        else with_connections (alter Peer.close conn (connections c)) c in
      with_connectionRef None c
  | None => c
  end.

(** [connectToSession(sessionId)] up to the registration of the
    handlers below. *)
Definition connectToSession (sessionId : string) (c : Controller) : Controller :=
  if negb (peerRef c) || String.eqb sessionId "" then c
  else
    let c := destroyConnection c in
    let c := setConnectionStatus connecting c in
    let conn := fresh (dom (connections c)) in
    let c := with_connections
               (<[conn := {| Peer.open := false; Peer.sent := [] |}]>
                  (connections c)) c in
    with_connectionRef (Some conn) c.

(** [peer.on("open")] of the mount effect: the client id is known, the
    page is idle, and a session named in the route is connected to at
    once. *)
Definition onPeerOpen (id paramSessionId : string) (c : Controller) : Controller :=
  let c :=
    {| clientId := id; targetSession := targetSession c;
       connectionStatus := idle; hostState := hostState c;
       peerRef := peerRef c; connectionRef := connectionRef c;
       connections := connections c |} in
  if String.eqb paramSessionId "" then c else connectToSession paramSessionId c.

(** [peer.on("error")]. *)
Definition onPeerError (c : Controller) : Controller :=
  setConnectionStatus error c.

Definition remoteReady : Js.value := Js.Obj [("type", Js.Str "remote-ready")].

(** [conn.on("open")] when the session connected to is the one the
    route names ([paramSessionId === sessionId]), so that the handler
    does not call [navigate]. *)
Definition onOpen (conn : nat) (c : Controller) : Controller :=
  let c := setConnectionStatus connected c in
  with_connections
    (alter (λ dc, Peer.send remoteReady
                    {| Peer.open := true; Peer.sent := Peer.sent dc |})
       conn (connections c)) c.

(** [conn.on("data")]. *)
Definition onData (message : Inbound) (c : Controller) : Controller :=
  match message with
  | FromHost (IpTv.StateMsg payload) => setHostState payload c
  | Other _ => c
  end.

(** [conn.on("error")]. *)
Definition onError (conn : nat) (c : Controller) : Controller :=
  let c := if bool_decide (connectionRef c = Some conn)
           then with_connectionRef None c else c in
  setConnectionStatus error c.

(** [{ type: "command", command, payload }]. *)
Definition commandMessage (command : string) (payload : Js.value) : Js.value :=
  Js.Obj [("type", Js.Str "command"); ("command", Js.Str command);
          ("payload", payload)].

Definition sendCommand (command : string) (payload : Js.value) (c : Controller)
  : Controller :=
  match connectionRef c with
  | Some conn =>
      match connections c !! conn with
      | Some dc =>
          if Peer.open dc
          then with_connections
                 (<[conn := Peer.send (commandMessage command payload) dc]>
                    (connections c)) c
          else c
      | None => c
      end
  | None => c
  end.

(** The callbacks handed to [RemoteControl]. *)
Definition sender (cmd : Command) : Controller → Controller :=
  match cmd with
  | Next => sendCommand "next" Js.Undefined
  | Prev => sendCommand "prev" Js.Undefined
  | TogglePlay => sendCommand "toggle-play" Js.Undefined
  | Stop => sendCommand "stop" Js.Undefined
  | ToggleMute => sendCommand "toggle-mute" Js.Undefined
  | VolumeUp => sendCommand "volume-up" Js.Undefined
  | VolumeDown => sendCommand "volume-down" Js.Undefined
  | SetVolume value =>
      sendCommand "set-volume" (Js.Obj [("value", Js.Num value)])
  end.

(** Messages handed to [send] on any connection of the controller. *)
Definition outbox (c : Controller) : list (nat * list Js.value) :=
  map_to_list (Peer.sent <$> connections c).

End RemotePage.

(* ===================================================================== *)
(** ** IpTv.jsx, continued: playlist parsing, categories, filters *)
(* ===================================================================== *)

Module Playlist.

(** The ASCII characters that [trim] removes: tab, line feed, vertical
    tab, form feed, carriage return, space.  ([trim] also removes the
    white space beyond ASCII, such as U+00A0 and U+FEFF; the properties
    that depend on [trim] are stated for ASCII text, [Str.isAscii].) *)
Definition isSpace (c : ascii) : bool :=
  let n := nat_of_ascii c in
  ((9 <=? n)%nat && (n <=? 13)%nat) || (n =? 32)%nat.

(** The ASCII line terminators, which [.] in a regular expression does
    not match: line feed and carriage return.  (Beyond ASCII, U+2028 and
    U+2029 are line terminators too.) *)
Definition isLineTerminator (c : ascii) : bool :=
  let n := nat_of_ascii c in (n =? 10)%nat || (n =? 13)%nat.

Definition comma : ascii := ascii_of_nat 44.
Definition quote : ascii := ascii_of_nat 34.
Definition newline : ascii := ascii_of_nat 10.

Fixpoint trimStart (s : string) : string :=
  match s with
  | EmptyString => EmptyString
  | String c s' => if isSpace c then trimStart s' else s
  end.

Fixpoint trimEnd (s : string) : string :=
  match s with
  | EmptyString => EmptyString
  | String c s' =>
      match trimEnd s' with
      | EmptyString => if isSpace c then EmptyString else String c EmptyString
      | t => String c t
      end
  end.

(** [s.trim()] for an ASCII string [s]. *)
Definition trim (s : string) : string := trimEnd (trimStart s).

(** [s.split(sep)] for a one-character separator: never empty. *)
Fixpoint split (sep : ascii) (s : string) : list string :=
  match s with
  | EmptyString => [EmptyString]
  | String c s' =>
      if Ascii.eqb c sep then EmptyString :: split sep s'
      else
        match split sep s' with
        | piece :: rest => String c piece :: rest
        | [] => [String c EmptyString]
        end
  end.

(** [s.startsWith(p)]. *)
Definition startsWith (p s : string) : bool := String.prefix p s.

(** A literal matched under the [i] flag at the start of [s]. *)
Fixpoint prefixCI (p s : string) : bool :=
  match p, s with
  | EmptyString, _ => true
  | String a p', String b s' =>
      Ascii.eqb (Str.lower_char a) (Str.lower_char b) && prefixCI p' s'
  | String _ _, EmptyString => false
  end.

(** [s.slice(n)]. *)
Fixpoint drop (n : nat) (s : string) : string :=
  match n, s with
  | O, _ => s
  | S n', String _ s' => drop n' s'
  | S _, EmptyString => EmptyString
  end.

(** The lazy group and closing quote of the pattern at the start of [s]:
    the characters up to the first quote, none of them a line
    terminator. *)
Fixpoint untilQuote (s : string) : option string :=
  match s with
  | EmptyString => None
  | String c s' =>
      if Ascii.eqb c quote then Some EmptyString
      else if isLineTerminator c then None
      else String c <$> untilQuote s'
  end.

(** The capture group of [s.match(...)] for a pattern of the form
    literal, lazy group, closing quote, under the [i] flag; [key] is the
    literal, which ends with the opening quote.  The leftmost position at
    which the whole pattern matches decides. *)
Fixpoint matchAttr (key s : string) : option string :=
  match (if prefixCI key s then untilQuote (drop (String.length key) s)
         else None) with
  | Some v => Some v
  | None =>
      match s with
      | EmptyString => None
      | String _ s' => matchAttr key s'
      end
  end.

Definition tvgLogo : string := "tvg-logo=" +:+ String quote EmptyString.
Definition groupTitle : string := "group-title=" +:+ String quote EmptyString.

(** The object built from an [#EXTINF:] line. *)
Record Info : Type := {
  name : string;
  logo : option string;
  group : string;
}.

(** An element of the result: the pending [current] object (empty when
    no [#EXTINF:] line came since the last entry) with its [url]. *)
Record Entry : Type := {
  info : option Info;
  url : string;
}.

(** The body of the [#EXTINF:] branch. *)
Definition parseExtinf (line : string) : Info :=
  let name :=
    match split comma line with
    | _ :: second :: _ => if String.eqb second "" then "Unknown" else second
    | _ => "Unknown"
    end in
  {| name := trim name;
     logo := matchAttr tvgLogo line;
     group := default "Other" (matchAttr groupTitle line) |}.

(** The loop over the lines, with the [current] object as state. *)
Fixpoint parseLines (current : option Info) (lines : list string) : list Entry :=
  match lines with
  | [] => []
  | l :: rest =>
      let line := trim l in
      if String.eqb line "" then parseLines current rest
      else if startsWith "#EXTINF:" line
      then parseLines (Some (parseExtinf line)) rest
      else if negb (startsWith "#" line)
      then {| info := current; url := line |} :: parseLines None rest
      else parseLines current rest
  end.

(** [parseM3U]. *)
Definition parseM3U (text : string) : list Entry :=
  parseLines None (split newline text).

(** A line that ends an entry: non-empty after trimming and not a
    comment. *)
Definition isUrlLine (l : string) : bool :=
  negb (String.eqb (trim l) "") && negb (startsWith "#" (trim l)).

(** An entry with all its fields is a channel of the host. *)
Definition toChannel (e : Entry) : option IpTv.Channel :=
  match info e with
  | Some i =>
      Some {| IpTv.name := name i; IpTv.url := url e;
              IpTv.logo := logo i; IpTv.group := group i |}
  | None => None
  end.

(** An [#EXTINF:] line and a url line as playlists are written. *)
Definition writeEntry (c : IpTv.Channel) : string :=
  "#EXTINF:-1 "
  +:+ match IpTv.logo c with
      | Some l => tvgLogo +:+ l +:+ String quote " "
      | None => ""
      end
  +:+ groupTitle +:+ IpTv.group c +:+ String quote (String comma (IpTv.name c))
  +:+ String newline (IpTv.url c).

(** Characters of a string, none satisfying [p]. *)
Definition free (p : ascii → bool) (s : string) : Prop :=
  Forall (λ c, p c = false) (Str.chars s).

(** The literal [key] matches, under the [i] flag, at a position inside
    [a] when [a] is followed by [s]. *)
Fixpoint startsWithin (key a s : string) : bool :=
  match a with
  | EmptyString => false
  | String c a' => prefixCI key (a +:+ s) || startsWithin key a' s
  end.

(** [s] ends with [k], up to case. *)
Fixpoint endsWithCI (k s : string) : bool :=
  ((String.length s =? String.length k)%nat && prefixCI k s)
  || match s with
     | EmptyString => false
     | String _ s' => endsWithCI k s'
     end.

(** Text that can stand between the quotes of an attribute. *)
Definition attributeText (s : string) : Prop :=
  free (Ascii.eqb quote) s ∧ free (Ascii.eqb comma) s
  ∧ free isLineTerminator s.

(** A channel that [writeEntry] writes without ambiguity: all its
    fields are ASCII; the name is not empty, is trimmed and has no
    comma, quote or line feed; the group and the logo are attribute
    texts, and the logo does not end with the name of the group
    attribute; the url is a non-empty trimmed line that is not a
    comment. *)
Definition writable (c : IpTv.Channel) : Prop :=
  Str.isAscii (IpTv.name c)
  ∧ Str.isAscii (IpTv.group c)
  ∧ (∀ l, IpTv.logo c = Some l → Str.isAscii l)
  ∧ Str.isAscii (IpTv.url c)
  ∧ IpTv.name c ≠ ""
  ∧ trim (IpTv.name c) = IpTv.name c
  ∧ free (Ascii.eqb comma) (IpTv.name c)
  ∧ free (Ascii.eqb quote) (IpTv.name c)
  ∧ free (Ascii.eqb newline) (IpTv.name c)
  ∧ attributeText (IpTv.group c)
  ∧ (∀ l, IpTv.logo c = Some l →
       attributeText l ∧ endsWithCI "group-title=" l = false)
  ∧ IpTv.url c ≠ ""
  ∧ trim (IpTv.url c) = IpTv.url c
  ∧ startsWith "#" (IpTv.url c) = false
  ∧ free (Ascii.eqb newline) (IpTv.url c).

End Playlist.

Module Catalog.

Import IpTv.

(** Insertion into a [Set]: first occurrences, in order. *)
Definition uniq (l : list string) : list string :=
  foldl (λ (acc : list string) x,
           if decide (x ∈ acc) then acc else (acc ++ [x])%list) [] l.

(** [ch.group || "Other"]. *)
Definition categoryOf (ch : Channel) : string :=
  if String.eqb (group ch) "" then "Other" else group ch.

(** [categories]: ["All", ...new Set(channels.map(...))]. *)
Definition categories (h : Host) : list string :=
  "All" :: uniq (categoryOf <$> channels h).

(** The filter inputs after the deferred values have caught up with
    [setSearchTerm] and [setSelectedCategory]. *)
Definition withFilter (search category : string) (h : Host) : Host :=
  {| channels := channels h; selectedChannel := selectedChannel h;
     deferredSearchTerm := search; deferredCategory := category;
     playerState := playerState h; remoteSessionId := remoteSessionId h;
     remoteHostStatus := remoteHostStatus h;
     remoteConnectedClients := remoteConnectedClients h;
     remoteError := remoteError h; playerRef := playerRef h;
     remotePeerRef := remotePeerRef h;
     remoteConnectionsRef := remoteConnectionsRef h;
     connections := connections h; localStorage := localStorage h |}.

(** [setChannels(parsed)]. *)
Definition setChannels (l : list Channel) (h : Host) : Host :=
  {| channels := l; selectedChannel := selectedChannel h;
     deferredSearchTerm := deferredSearchTerm h;
     deferredCategory := deferredCategory h;
     playerState := playerState h; remoteSessionId := remoteSessionId h;
     remoteHostStatus := remoteHostStatus h;
     remoteConnectedClients := remoteConnectedClients h;
     remoteError := remoteError h; playerRef := playerRef h;
     remotePeerRef := remotePeerRef h;
     remoteConnectionsRef := remoteConnectionsRef h;
     connections := connections h; localStorage := localStorage h |}.

(** [handleSelectChannel]; the mobile flag is not part of the model. *)
Definition handleSelectChannel (ch : Channel) (h : Host) : Host :=
  setSelectedChannel (Some ch) h.

(** The urls of the filtered view are pairwise distinct. *)
Definition uniqueUrls (h : Host) : Prop := NoDup (url <$> filteredChannels h).

End Catalog.

(* ===================================================================== *)
(** ** The player, the host and the controller as event-driven machines *)
(* ===================================================================== *)

Module PlayerMachine.

Import Player.

(** One turn of the event loop.  The only statement that can throw, the
    assignment to [video.volume], precedes every write of its handler,
    so an exception leaves the component as it was. *)
Definition step (a : Action) (w : World) : World :=
  match run a w with
  | Normal w' => w'
  | Throw _ => w
  end.

Definition steps (l : list Action) (w : World) : World :=
  foldl (λ w a, step a w) w l.

(** The source stays truthy: a channel stays selected. *)
Definition keepsSource (a : Action) : Prop :=
  match a with
  | ChangeSrc _ src => falsy src = false
  | _ => True
  end.

(** A volume the media element can hold. *)
Definition inRange (x : Js.number) : Prop :=
  match x with
  | Js.Fin q => (0 <= q)%Q ∧ (q <= 1)%Q
  | _ => False
  end.

(** A fatal network error. *)
Definition networkError : Hls.ErrorData :=
  {| Hls.fatal := true; Hls.type := Hls.NETWORK_ERROR |}.

End PlayerMachine.

Module HostMachine.

Import IpTv.

(** What can happen to the host component. *)
Inductive Event : Type :=
| SelectChannel (ch : Channel)
| PressNext
| PressPrev
| PlayerEvent (a : Player.Action)
| StartRemote (rnd : Random)
| StopRemote
| PeerOpen
| PeerConnection (isOpen : bool)
| PeerError (message : option string)
| ConnOpened (conn : nat)
| ConnData (conn : nat) (message : Js.value)
| ConnClose (conn : nat)
| ConnError (conn : nat)
| BroadcastEffect.

(** The handler behind each event.  Buttons use the callbacks of the
    current render; a player event is followed by the player's
    [onPlayerStateChange] effect; [ConnOpened] is the data channel of a
    registered connection becoming open. *)
Definition handle (e : Event) (h : Host) : Completion Host :=
  match e with
  | SelectChannel ch => mret (Catalog.handleSelectChannel ch h)
  | PressNext => mret (next h)
  | PressPrev => mret (prev h)
  | PlayerEvent a => h' ← onPlayer (Player.run a) h; mret (onPlayerStateChange h')
  | StartRemote rnd => mret (startRemoteHost rnd h)
  | StopRemote => mret (stopRemoteHost inactive h)
  | PeerOpen => mret (onPeerOpen h)
  | PeerConnection isOpen => mret (onPeerConnection isOpen h)
  | PeerError message => mret (onPeerError message h)
  | ConnOpened conn =>
      mret (with_connections
              (alter (λ dc, {| Peer.open := true; Peer.sent := Peer.sent dc |})
                 conn (connections h)) h)
  | ConnData conn message => onConnData conn message h
  | ConnClose conn => mret (onConnClose conn h)
  | ConnError conn => mret (onConnError conn h)
  | BroadcastEffect => mret (broadcastRemoteState (render h) h)
  end.

(** One turn of the event loop.  The only statement of a handler that
    can throw is the assignment to [video.volume], which precedes every
    write of its handler, so an exception leaves the host as it was. *)
Definition step (e : Event) (h : Host) : Host :=
  match handle e h with
  | Normal h' => h'
  | Throw _ => h
  end.

Definition steps (es : list Event) (h : Host) : Host :=
  foldl (λ h e, step e h) h es.

(** [canStart] and [canStop] of the session card. *)
Definition canStart (s : HostStatus) : bool :=
  match s with inactive | error => true | _ => false end.

Definition canStop (s : HostStatus) : bool :=
  match s with ready | connecting => true | _ => false end.

(** What the session fields of a host satisfy between events. *)
Definition consistent (h : Host) : Prop :=
  wf h
  ∧ remoteConnectedClients h = length (remoteConnectionsRef h)
  ∧ (remotePeerRef h = None → remoteConnectionsRef h = [])
  ∧ (canStop (remoteHostStatus h) = true ↔ is_Some (remotePeerRef h))
  ∧ (∀ p, remotePeerRef h = Some p →
       peerId p = remoteSessionId h
       ∧ localStorage h !! REMOTE_SESSION_STORAGE_KEY = Some (remoteSessionId h)).

(** What the host does for each command of the remote control. *)
Definition hostCommand (cmd : RemotePage.Command) (r : Render) (h : Host)
  : Completion Host :=
  match cmd with
  | RemotePage.Next => mret (handleNextChannel r h)
  | RemotePage.Prev => mret (handlePrevChannel r h)
  | RemotePage.TogglePlay => remotePlayPause h
  | RemotePage.Stop => remoteStop h
  | RemotePage.ToggleMute => remoteMuteToggle h
  | RemotePage.VolumeUp => remoteVolumeUp h
  | RemotePage.VolumeDown => remoteVolumeDown h
  | RemotePage.SetVolume value => remoteVolumeChange value h
  end.

End HostMachine.

Module ControllerMachine.

Import RemotePage.

(** What can happen to the remote page. *)
Inductive Event : Type :=
| PeerOpen (id paramSessionId : string)
| PeerError
| Connect (sessionId : string)
| ConnOpen (conn : nat)
| ConnData (message : Inbound)
| ConnClose (conn : nat)
| ConnError (conn : nat)
| Press (cmd : Command).

Definition step (e : Event) (c : Controller) : Controller :=
  match e with
  | PeerOpen id paramSessionId => onPeerOpen id paramSessionId c
  | PeerError => onPeerError c
  | Connect sessionId => connectToSession sessionId c
  | ConnOpen conn => onOpen conn c
  | ConnData message => onData message c
  | ConnClose conn => onClose conn c
  | ConnError conn => onError conn c
  | Press cmd => sender cmd c
  end.

Definition steps (es : list Event) (c : Controller) : Controller :=
  foldl (λ c e, step e c) c es.

(** A message built by [sendCommand]. *)
Definition isCommandMessage (m : Js.value) : Prop :=
  ∃ command payload, m = commandMessage command payload.

(** The order of messages on one connection: nothing before the
    connection opens, [remote-ready] first, commands after. *)
Definition ordered (dc : Peer.DataConnection Js.value) : Prop :=
  match Peer.sent dc with
  | [] => True
  | first :: rest =>
      first = remoteReady
      ∧ Forall (λ m, m = remoteReady ∨ isCommandMessage m) rest
  end.

(** Between events every connection of the page has sent its messages
    in protocol order and, if open, has sent at least one. *)
Definition protocolOrder (c : Controller) : Prop :=
  ∀ conn dc, connections c !! conn = Some dc →
             ordered dc ∧ (Peer.open dc = true → Peer.sent dc ≠ []).

End ControllerMachine.

(* ===================================================================== *)
(** * Properties *)
(* ===================================================================== *)

(** ** Numbers *)

Lemma Qle_bool_false (x y : Q) : Qle_bool x y = false → (y < x)%Q.
Proof.
  intros H. apply Qnot_le_lt. intros Hle.
  apply Qle_bool_iff in Hle. congruence.
Qed.

Lemma Qeq_bool_false (x y : Q) : Qeq_bool x y = false → ¬ (x == y)%Q.
Proof. intros H Heq. apply Qeq_bool_iff in Heq. congruence. Qed.

(** [Math.min(1, Math.max(0, v))] on a finite [v] is the spec's clamp and
    lies in the range the element accepts. *)
Lemma clamped_finite (q : Q) :
  ∃ c, Js.min Js.one (Js.max Js.zero (Js.Fin q)) = Js.Fin c
       ∧ (c == clamp q 0 1)%Q ∧ (0 <= c)%Q ∧ (c <= 1)%Q.
Proof.
  unfold Js.min, Js.max, Js.one, Js.zero, clamp.
  destruct (Qle_bool 0 q) eqn:H0.
  - apply Qle_bool_iff in H0.
    destruct (Qle_bool 1 q) eqn:H1.
    + apply Qle_bool_iff in H1. exists 1%Q.
      destruct (Qle_bool q 0) eqn:H2.
      * apply Qle_bool_iff in H2. exfalso.
        apply (Qlt_irrefl 0). eapply Qlt_le_trans; [|apply H2].
        eapply Qlt_le_trans; [|apply H1]. reflexivity.
      * repeat split; try reflexivity; try discriminate.
    + apply Qle_bool_false in H1. exists q.
      destruct (Qle_bool q 0) eqn:H2.
      * apply Qle_bool_iff in H2.
        repeat split; auto using Qle_antisym, Qlt_le_weak.
      * repeat split; auto using Qlt_le_weak.
  - apply Qle_bool_false in H0. exists 0%Q.
    assert (Qle_bool 1 0 = false) as -> by reflexivity.
    assert (Qle_bool q 0 = true) as ->
      by (apply Qle_bool_iff; auto using Qlt_le_weak).
    repeat split; try reflexivity; try discriminate.
Qed.

(** The infinities are clamped to the ends of the range; [NaN] is not
    clamped at all. *)
Lemma clamped_special :
  Js.min Js.one (Js.max Js.zero Js.PosInf) = Js.one
  ∧ Js.min Js.one (Js.max Js.zero Js.NegInf) = Js.zero
  ∧ Js.min Js.one (Js.max Js.zero Js.NaN) = Js.NaN.
Proof. repeat split. Qed.

Lemma set_volume_in_range (c : Q) (video : Video.t) :
  (0 <= c)%Q → (c <= 1)%Q →
  Video.set_volume (Js.Fin c) video
  = Normal {| Video.muted := Video.muted video; Video.volume := Js.Fin c;
              Video.paused := Video.paused video;
              Video.currentTime := Video.currentTime video;
              Video.duration := Video.duration video;
              Video.src := Video.src video;
              Video.playAllowed := Video.playAllowed video |}.
Proof.
  intros H0 H1. unfold Video.set_volume.
  apply Qle_bool_iff in H0, H1. by rewrite H0, H1.
Qed.

(** ** The player *)

Section PlayerProperties.

Import Player.

(** C2. With the element mounted, [setVolume(v)] on a real [v] returns
    normally; the stored volume is [clamp(v, 0, 1)]; [isMuted] holds
    exactly when the stored volume is 0, so [v = 0] mutes and [v > 0]
    unmutes; the element carries the same volume and mute flag. *)
Theorem setVolume_clamps (q : Q) (video : Video.t) (w : World) :
  videoRef w = Some video →
  ∃ w' video' c,
    setVolumeLevel (Js.Fin q) w = Normal w'
    ∧ volume (state w') = Js.Fin c
    ∧ (c == clamp q 0 1)%Q
    ∧ (isMuted (state w') = true ↔ (c == 0)%Q)
    ∧ ((q == 0)%Q → isMuted (state w') = true)
    ∧ ((0 < q)%Q → isMuted (state w') = false)
    ∧ videoRef w' = Some video'
    ∧ Video.volume video' = Js.Fin c
    ∧ Video.muted video' = isMuted (state w').
Proof.
  intros Hv. unfold setVolumeLevel. rewrite Hv.
  destruct (clamped_finite q) as (c & -> & Hc & H0 & H1).
  rewrite (set_volume_in_range c video H0 H1). cbn.
  eexists _, _, c. repeat split; try reflexivity; try assumption; cbn.
  - apply Qeq_bool_iff.
  - apply Qeq_bool_iff.
  - intros Hq. apply Qeq_bool_iff. rewrite Hc. unfold clamp.
    assert (Qle_bool q 0 = true) as ->; [|reflexivity].
    apply Qle_bool_iff. rewrite Hq. apply Qle_refl.
  - intros Hq. destruct (Qeq_bool c 0) eqn:E; [|reflexivity].
    apply Qeq_bool_iff in E. rewrite Hc in E. unfold clamp in E.
    destruct (Qle_bool q 0) eqn:E0.
    + apply Qle_bool_iff in E0. exfalso.
      apply (Qlt_irrefl 0). eapply Qlt_le_trans; eassumption.
    + destruct (Qle_bool 1 q); [discriminate E|].
      rewrite E in Hq. exfalso. by apply (Qlt_irrefl 0).
Qed.

Lemma setVolume_clamps_witness :
  ∃ w' video' c,
    setVolumeLevel (Js.Fin (3 # 2)) mounted = Normal w'
    ∧ volume (state w') = Js.Fin c
    ∧ (c == clamp (3 # 2) 0 1)%Q
    ∧ (isMuted (state w') = true ↔ (c == 0)%Q)
    ∧ ((3 # 2 == 0)%Q → isMuted (state w') = true)
    ∧ ((0 < 3 # 2)%Q → isMuted (state w') = false)
    ∧ videoRef w' = Some video'
    ∧ Video.volume video' = Js.Fin c
    ∧ Video.muted video' = isMuted (state w').
Proof. exact (setVolume_clamps (3 # 2) Video.fresh mounted eq_refl). Defined.

(** Out of the reals: the infinities are clamped like any other value,
    while [NaN] reaches the element's setter and is refused there. *)
Lemma setVolume_nonfinite (video : Video.t) (w : World) :
  videoRef w = Some video →
  (∃ w', setVolumeLevel Js.PosInf w = Normal w'
         ∧ volume (state w') = Js.one ∧ isMuted (state w') = false)
  ∧ (∃ w', setVolumeLevel Js.NegInf w = Normal w'
           ∧ volume (state w') = Js.zero ∧ isMuted (state w') = true)
  ∧ setVolumeLevel Js.NaN w = Throw "TypeError".
Proof.
  intros Hv. unfold setVolumeLevel. rewrite Hv. cbn.
  repeat split; eexists; repeat split.
Qed.

(** Without an element the call does nothing. *)
Lemma setVolume_unmounted (v : Js.number) (w : World) :
  videoRef w = None → setVolumeLevel v w = Normal w.
Proof. intros Hv. unfold setVolumeLevel. by rewrite Hv. Qed.

Lemma toggleMute_normal (video : Video.t) (w : World) :
  videoRef w = Some video →
  ∃ w', toggleMute w = Normal w'
        ∧ isMuted (state w') = negb (Video.muted video)
        ∧ videoRef w' =
            Some (Video.mk (negb (Video.muted video))
                    (if Video.muted video
                        && Js.strict_eq (Video.volume video) Js.zero
                     then Js.Fin (1 # 2) else Video.volume video)
                    (Video.paused video) (Video.currentTime video)
                    (Video.duration video) (Video.src video)
                    (Video.playAllowed video))
        ∧ volume (state w') =
            (if Video.muted video && Js.strict_eq (Video.volume video) Js.zero
             then Js.Fin (1 # 2) else volume (state w)).
Proof.
  intros Hv. unfold toggleMute. rewrite Hv. cbn.
  destruct (Video.muted video); cbn.
  - destruct (Js.strict_eq (Video.volume video) Js.zero); cbn;
      eexists; repeat split.
  - eexists; repeat split.
Qed.

(** C8. With the element mounted and the state cells mirroring it, two
    [toggleMute()] calls both return normally; if the volume was not 0,
    [volume] and [isMuted] (and the element's volume and mute flag) are
    what they were before the first call; if the volume was 0, the
    unmuting call of the pair sets the volume to 0.5. *)
Theorem toggleMute_twice (video : Video.t) (w : World) :
  videoRef w = Some video →
  coherent w →
  ∃ w1 w2 video2,
    toggleMute w = Normal w1
    ∧ toggleMute w1 = Normal w2
    ∧ videoRef w2 = Some video2
    ∧ (Js.strict_eq (volume (state w)) Js.zero = false →
       volume (state w2) = volume (state w)
       ∧ isMuted (state w2) = isMuted (state w)
       ∧ Video.volume video2 = Video.volume video
       ∧ Video.muted video2 = Video.muted video)
    ∧ (Js.strict_eq (volume (state w)) Js.zero = true →
       volume (state w2) = Js.Fin (1 # 2)
       ∧ Video.volume video2 = Js.Fin (1 # 2)
       ∧ Video.muted video2 = Video.muted video).
Proof.
  intros Hv Hc. unfold coherent in Hc. rewrite Hv in Hc.
  destruct Hc as [Hvol Hmut].
  destruct (toggleMute_normal video w Hv) as (w1 & E1 & M1 & V1 & S1).
  destruct (toggleMute_normal _ w1 V1) as (w2 & E2 & M2 & V2 & S2).
  cbn in M2, V2, S2. rewrite S1 in S2.
  eexists w1, w2, _. split; [exact E1|]. split; [exact E2|].
  split; [exact V2|]. rewrite Hvol. cbn. split; intros Hz.
  - rewrite Hz in *. rewrite andb_false_r in *. cbn in *.
    rewrite Hz in *. rewrite andb_false_r in *.
    rewrite S2, M2, negb_involutive, (Hmut eq_refl), Hvol. done.
  - rewrite Hz in *. rewrite andb_true_r in *.
    rewrite negb_involutive.
    destruct (Video.muted video); cbn in *.
    + rewrite S2. done.
    + rewrite Hz in *. rewrite S2. done.
Qed.

Lemma toggleMute_twice_witness :
  ∃ w1 w2 video2,
    toggleMute mounted = Normal w1
    ∧ toggleMute w1 = Normal w2
    ∧ videoRef w2 = Some video2
    ∧ (Js.strict_eq (volume (state mounted)) Js.zero = false →
       volume (state w2) = volume (state mounted)
       ∧ isMuted (state w2) = isMuted (state mounted)
       ∧ Video.volume video2 = Video.volume Video.fresh
       ∧ Video.muted video2 = Video.muted Video.fresh)
    ∧ (Js.strict_eq (volume (state mounted)) Js.zero = true →
       volume (state w2) = Js.Fin (1 # 2)
       ∧ Video.volume video2 = Js.Fin (1 # 2)
       ∧ Video.muted video2 = Video.muted Video.fresh).
Proof.
  apply (toggleMute_twice Video.fresh mounted eq_refl).
  split; reflexivity.
Defined.

(** The mirror relation holds at mount and survives every command and
    event, as long as the source stays truthy (the element is then never
    replaced). *)
Lemma coherent_mounted : coherent mounted.
Proof. split; reflexivity. Qed.

Lemma coherent_run (a : Action) (w w' : World) :
  coherent w →
  videoRef w ≠ None →
  (∀ sup src, a = ChangeSrc sup src → falsy src = false) →
  run a w = Normal w' →
  coherent w' ∧ videoRef w' ≠ None.
Proof.
  intros Hc Hv Hsrc Hrun. unfold coherent in *.
  destruct (videoRef w) as [video|] eqn:Ev; [clear Hv|done].
  destruct Hc as [Hvol Hmut].
  destruct a; cbn in Hrun;
    unfold whenLive, togglePlayPause, stopPlayback, handlePlay, handlePause,
      handleWaiting, handleCanPlay, handleTimeUpdate, handleLoadedMetadata,
      handleVolumeChangeEvent, handleError, onManifestParsed, tick,
      Video.play in Hrun;
    try (rewrite ?Ev in Hrun;
         repeat (match type of Hrun with
                 | context [if ?b then _ else _] => destruct b
                 end);
         injection Hrun as <-; cbn; rewrite ?Ev; cbn;
         (split; [split|]); try done;
         try (intros ->; done); fail).
  - (* SetVolume *)
    unfold setVolumeLevel in Hrun. rewrite Ev in Hrun.
    destruct (Video.set_volume _ video) as [video'|] eqn:Es; [|done].
    cbn in Hrun. injection Hrun as <-. cbn.
    unfold Video.set_volume in Es.
    destruct (Js.min _ _) as [c| | |] eqn:Em; try done.
    destruct (_ && _); [|done]. injection Es as <-. cbn. done.
  - (* VolumeUp *)
    unfold volumeUp, changeVolumeBy, setVolumeLevel in Hrun. rewrite Ev in Hrun.
    destruct (Video.set_volume _ video) as [video'|] eqn:Es; [|done].
    cbn in Hrun. injection Hrun as <-. cbn.
    unfold Video.set_volume in Es.
    destruct (Js.min _ _) as [c| | |] eqn:Em; try done.
    destruct (_ && _); [|done]. injection Es as <-. cbn. done.
  - (* VolumeDown *)
    unfold volumeDown, changeVolumeBy, setVolumeLevel in Hrun. rewrite Ev in Hrun.
    destruct (Video.set_volume _ video) as [video'|] eqn:Es; [|done].
    cbn in Hrun. injection Hrun as <-. cbn.
    unfold Video.set_volume in Es.
    destruct (Js.min _ _) as [c| | |] eqn:Em; try done.
    destruct (_ && _); [|done]. injection Es as <-. cbn. done.
  - (* ToggleMute *)
    destruct (toggleMute_normal video w Ev) as (w1 & E1 & M1 & V1 & S1).
    rewrite E1 in Hrun. injection Hrun as <-. rewrite V1. cbn.
    split; [|done]. rewrite S1, M1.
    destruct (Video.muted video && _); done.
  - (* OnVolumeChange *)
    rewrite Ev in Hrun.
    destruct (effectLive w); injection Hrun as <-; cbn; rewrite Ev; cbn;
      (split; [split|]); try done.
    intros ->. by rewrite orb_false_r.
  - (* OnHlsError *)
    unfold onHlsError in Hrun.
    destruct (effectLive w), (hls w), (Hls.fatal data), (Hls.type data);
      injection Hrun as <-; cbn; rewrite Ev; done.
  - (* ChangeSrc *)
    injection Hrun as <-. specialize (Hsrc sup src eq_refl).
    unfold changeSrc, srcEffect, commit, srcCleanup. rewrite Hsrc.
    destruct src as [url|]; [|done].
    destruct (effectLive w); cbn; rewrite ?Ev; cbn; rewrite ?Hsrc, ?Ev;
      destruct sup; cbn; rewrite ?Ev; cbn; done.
Qed.

(** Hence every world reached from the mount by commands and events that
    keep a truthy source mirrors the element. *)
Lemma coherent_runs (l : list Action) (w w' : World) :
  coherent w →
  videoRef w ≠ None →
  Forall (λ a, ∀ sup src, a = ChangeSrc sup src → falsy src = false) l →
  runs l w = Normal w' →
  coherent w' ∧ videoRef w' ≠ None.
Proof.
  revert w. induction l as [|a l IH]; intros w Hc Hv Hl Hrun.
  - injection Hrun as <-. done.
  - apply Forall_cons in Hl as [Ha Hl]. cbn in Hrun.
    destruct (run a w) as [w1|] eqn:E1; [|done]. cbn in Hrun.
    destruct (coherent_run a w w1 Hc Hv Ha E1) as [Hc1 Hv1].
    by apply (IH w1).
Qed.

(** C1. The [Hls.Events.ERROR] handler of a live engine follows the
    policy table: a non-fatal error changes nothing; a fatal network
    error calls [startLoad] on the same engine (same source) and writes
    no state cell; a fatal media error calls [recoverMediaError] on the
    same engine and writes no state cell; a fatal error of any other
    kind destroys the engine, sets [error] to a message and [isLoading]
    to false, and writes no other cell. *)
Theorem hls_error_policy (data : Hls.ErrorData) (h : Hls.t) (w : World) :
  hls w = Some h →
  let w' := onHlsError data w in
  if Hls.fatal data then
    match Hls.type data with
    | Hls.NETWORK_ERROR =>
        hls w' = Some (Hls.call Hls.startLoad h)
        ∧ Hls.source (Hls.call Hls.startLoad h) = Hls.source h
        ∧ state w' = state w
        ∧ videoRef w' = videoRef w
    | Hls.MEDIA_ERROR =>
        hls w' = Some (Hls.call Hls.recoverMediaError h)
        ∧ Hls.source (Hls.call Hls.recoverMediaError h) = Hls.source h
        ∧ state w' = state w
        ∧ videoRef w' = videoRef w
    | _ =>
        hls w' = Some (Hls.call Hls.destroy h)
        ∧ Hls.destroyed (Hls.call Hls.destroy h) = true
        ∧ error (state w') = Some "Failed to load video"
        ∧ isLoading (state w') = false
        ∧ isPlaying (state w') = isPlaying (state w)
        ∧ currentTime (state w') = currentTime (state w)
        ∧ duration (state w') = duration (state w)
        ∧ volume (state w') = volume (state w)
        ∧ isMuted (state w') = isMuted (state w)
        ∧ videoRef w' = videoRef w
    end
  else w' = w.
Proof.
  intros Hh. unfold onHlsError. rewrite Hh.
  assert (Hls.destroyed (Hls.call Hls.destroy h) = true) as Hd.
  { unfold Hls.destroyed, Hls.call. cbn. apply bool_decide_eq_true.
    apply elem_of_app. right. apply list_elem_of_singleton. reflexivity. }
  destruct (Hls.fatal data); [|reflexivity].
  destruct (Hls.type data); cbn; repeat split; exact Hd.
Qed.

Lemma hls_error_policy_witness :
  let w := changeSrc HlsJs (Some "http://tv/a.m3u8") mounted in
  let data := {| Hls.fatal := true; Hls.type := Hls.OTHER_ERROR |} in
  let w' := onHlsError data w in
  hls w' = Some (Hls.call Hls.destroy (Hls.create "http://tv/a.m3u8"))
  ∧ Hls.destroyed (Hls.call Hls.destroy (Hls.create "http://tv/a.m3u8")) = true
  ∧ error (state w') = Some "Failed to load video"
  ∧ isLoading (state w') = false
  ∧ isPlaying (state w') = isPlaying (state w)
  ∧ currentTime (state w') = currentTime (state w)
  ∧ duration (state w') = duration (state w)
  ∧ volume (state w') = volume (state w)
  ∧ isMuted (state w') = isMuted (state w)
  ∧ videoRef w' = videoRef w.
Proof.
  exact (hls_error_policy
           {| Hls.fatal := true; Hls.type := Hls.OTHER_ERROR |}
           (Hls.create "http://tv/a.m3u8")
           (changeSrc HlsJs (Some "http://tv/a.m3u8") mounted) eq_refl).
Defined.

(** C3, as stated, fails: after playing channel "a" up to second 42, the
    switch to "b" leaves [currentTime] at 42; and in a browser that can
    play neither way the switch ends with [error] set. *)
Lemma select_channel_counterexample :
  ∃ w,
    runs [ChangeSrc HlsJs (Some "a"); Tick (Js.Fin 42); OnTimeUpdate] mounted
    = Normal w
    ∧ Js.strict_eq (currentTime (state (changeSrc HlsJs (Some "b") w))) Js.zero
      = false
    ∧ error (state (changeSrc Unsupported (Some "b") w)) ≠ None.
Proof. eexists. repeat split. discriminate. Qed.

(** C3, amended. A switch to a non-empty source sets [error] to none and
    [isLoading] to true when the browser can play the stream (with hls.js
    or natively), and to the "not supported" message and false when it
    cannot; it writes no other state cell, so [currentTime], [duration],
    [volume], [isMuted] and [isPlaying] keep their values, and the
    element keeps its volume and mute flag. *)
Theorem select_channel_effect (sup : Support) (url : string) (w : World) :
  url ≠ "" →
  let w' := changeSrc sup (Some url) w in
  error (state w')
  = match sup with
    | Unsupported => Some "HLS is not supported in this browser"
    | _ => None
    end
  ∧ isLoading (state w')
    = match sup with Unsupported => false | _ => true end
  ∧ currentTime (state w') = currentTime (state w)
  ∧ duration (state w') = duration (state w)
  ∧ volume (state w') = volume (state w)
  ∧ isMuted (state w') = isMuted (state w)
  ∧ isPlaying (state w') = isPlaying (state w)
  ∧ (∀ video, videoRef w = Some video →
     ∃ video', videoRef w' = Some video'
               ∧ Video.volume video' = Video.volume video
               ∧ Video.muted video' = Video.muted video).
Proof.
  intros Hurl.
  assert (falsy (Some url) = false) as Hf by (by apply String.eqb_neq).
  unfold changeSrc, srcEffect, commit, srcCleanup. rewrite Hf.
  destruct (effectLive w), (videoRef w) as [video|] eqn:Ev; cbn;
    rewrite ?Ev; cbn; rewrite ?Hf, ?Ev; cbn;
    destruct sup; cbn; repeat split;
    try (intros ? [= <-]; eexists; repeat split); try done.
Qed.

Lemma select_channel_effect_witness :
  let w := changeSrc HlsJs (Some "a") mounted in
  let w' := changeSrc Unsupported (Some "b") w in
  error (state w') = Some "HLS is not supported in this browser"
  ∧ isLoading (state w') = false
  ∧ currentTime (state w') = currentTime (state w)
  ∧ duration (state w') = duration (state w)
  ∧ volume (state w') = volume (state w)
  ∧ isMuted (state w') = isMuted (state w)
  ∧ isPlaying (state w') = isPlaying (state w)
  ∧ (∀ video, videoRef w = Some video →
     ∃ video', videoRef w' = Some video'
               ∧ Video.volume video' = Video.volume video
               ∧ Video.muted video' = Video.muted video).
Proof.
  apply (select_channel_effect Unsupported "b"
           (changeSrc HlsJs (Some "a") mounted)).
  discriminate.
Defined.

(** The state cell catches up with the element, whose position the
    clean-up has reset, at the next [timeupdate]. *)
Lemma select_channel_then_timeupdate (sup : Support) (url : string) (w : World) :
  url ≠ "" → effectLive w = true → videoRef w ≠ None →
  currentTime (state (handleTimeUpdate (changeSrc sup (Some url) w))) = Js.zero.
Proof.
  intros Hurl Hl Hv.
  assert (falsy (Some url) = false) as Hf by (by apply String.eqb_neq).
  unfold changeSrc, srcEffect, commit, srcCleanup, handleTimeUpdate.
  rewrite Hf, Hl. destruct (videoRef w) as [video|]; [|done]. cbn.
  rewrite ?Hf. destruct sup; reflexivity.
Qed.

End PlayerProperties.

(** ** Channel navigation *)

Section NavigationProperties.

Import IpTv.

Lemma findIndex_anchor (sel : option Channel) (fc : list Channel) (n : nat) :
  anchorAt sel fc n → findIndex (sameUrl sel) fc = Z.of_nat n.
Proof.
  intros (ch & Hn & Hp & Hfirst). unfold findIndex.
  assert (list_find (sameUrl sel) fc = Some (n, ch)) as ->; [|done].
  apply list_find_Some. eauto.
Qed.

Lemma findIndex_absent (sel : option Channel) (fc : list Channel) :
  anchorAbsent sel fc → findIndex (sameUrl sel) fc = (-1)%Z.
Proof.
  intros Hno. unfold findIndex.
  assert (list_find (sameUrl sel) fc = None) as ->; [|done].
  by apply list_find_None.
Qed.

(** The anchor is present at exactly one index or absent. *)
Lemma anchor_cases (sel : option Channel) (fc : list Channel) :
  (∃ n, anchorAt sel fc n) ∨ anchorAbsent sel fc.
Proof.
  destruct (list_find (sameUrl sel) fc) as [[n ch]|] eqn:E.
  - left. exists n, ch. by apply list_find_Some in E.
  - right. by apply list_find_None in E.
Qed.

Lemma setSelectedChannel_filtered (c : option Channel) (h : Host) :
  filteredChannels (setSelectedChannel c h) = filteredChannels h.
Proof. reflexivity. Qed.

Lemma at_index_nat {A} (l : list A) (n : nat) :
  at_index l (Z.of_nat n) = l !! n.
Proof.
  unfold at_index. destruct (Z.ltb_spec (Z.of_nat n) 0); [lia|].
  by rewrite Nat2Z.id.
Qed.

Lemma next_at_anchor (h : Host) (n : nat) :
  anchorAt (selectedChannel h) (filteredChannels h) n →
  next h = if decide (n + 1 < length (filteredChannels h))%nat
           then setSelectedChannel (filteredChannels h !! (n + 1)%nat) h
           else h.
Proof.
  intros Ha. unfold next, handleNextChannel, getCurrentChannelIndex. cbn.
  rewrite (findIndex_anchor _ _ _ Ha).
  destruct Ha as (ch & Hn & _). apply lookup_lt_Some in Hn.
  destruct (Nat.eqb_spec (length (filteredChannels h)) 0); [lia|].
  destruct (Z.leb_spec 0 (Z.of_nat n)); [|lia]. cbn.
  destruct (Z.ltb_spec (Z.of_nat n) (Z.of_nat (length (filteredChannels h)) - 1));
    case_decide; try lia; [|done].
  replace (Z.of_nat n + 1)%Z with (Z.of_nat (n + 1)) by lia.
  by rewrite at_index_nat.
Qed.

Lemma prev_at_anchor (h : Host) (n : nat) :
  anchorAt (selectedChannel h) (filteredChannels h) n →
  prev h = if decide (0 < n)%nat
           then setSelectedChannel (filteredChannels h !! (n - 1)%nat) h
           else h.
Proof.
  intros Ha. unfold prev, handlePrevChannel, getCurrentChannelIndex. cbn.
  rewrite (findIndex_anchor _ _ _ Ha).
  destruct Ha as (ch & Hn & _). apply lookup_lt_Some in Hn.
  destruct (Nat.eqb_spec (length (filteredChannels h)) 0); [lia|].
  destruct (Z.ltb_spec 0 (Z.of_nat n)); case_decide; try lia; [|done].
  replace (Z.of_nat n - 1)%Z with (Z.of_nat (n - 1)) by lia.
  by rewrite at_index_nat.
Qed.

Lemma can_at_anchor (h : Host) (n : nat) :
  anchorAt (selectedChannel h) (filteredChannels h) n →
  canNext h = bool_decide (n + 1 < length (filteredChannels h))%nat
  ∧ canPrev h = bool_decide (0 < n)%nat.
Proof.
  intros Ha. unfold canNext, canPrev, hasNextChannel, hasPrevChannel,
    getCurrentChannelIndex. cbn.
  rewrite (findIndex_anchor _ _ _ Ha). split.
  - destruct (Z.leb_spec 0 (Z.of_nat n)); [|lia]. cbn.
    destruct (Z.ltb_spec (Z.of_nat n) (Z.of_nat (length (filteredChannels h)) - 1));
      symmetry; [apply bool_decide_eq_true|apply bool_decide_eq_false]; lia.
  - destruct (Z.ltb_spec 0 (Z.of_nat n));
      symmetry; [apply bool_decide_eq_true|apply bool_decide_eq_false]; lia.
Qed.

Lemma nav_absent (h : Host) :
  anchorAbsent (selectedChannel h) (filteredChannels h) →
  next h = h ∧ prev h = h ∧ canNext h = false ∧ canPrev h = false.
Proof.
  intros Hno.
  unfold next, prev, handleNextChannel, handlePrevChannel, canNext, canPrev,
    hasNextChannel, hasPrevChannel, getCurrentChannelIndex. cbn.
  rewrite (findIndex_absent _ _ Hno). cbn.
  destruct (length (filteredChannels h) =? 0)%nat; done.
Qed.



End NavigationProperties.

(** ** Remote commands on the host *)

Section RemoteCommandProperties.

Import IpTv.

(** Any number but [NaN] is accepted by [setVolumeLevel] and stored
    clamped. *)
Lemma setVolumeLevel_applied (v : Js.number) (video : Video.t) (p : Player.World) :
  v ≠ Js.NaN →
  Player.videoRef p = Some video →
  ∃ p', Player.setVolumeLevel v p = Normal p'
        ∧ Player.volume (Player.state p') = Js.min Js.one (Js.max Js.zero v).
Proof.
  intros Hnan Hv. unfold Player.setVolumeLevel. rewrite Hv.
  destruct v as [q| | |]; [| | |done].
  - destruct (clamped_finite q) as (c & -> & _ & H0 & H1).
    rewrite (set_volume_in_range c video H0 H1). cbn. eauto.
  - cbn. eauto.
  - cbn. eauto.
Qed.

Lemma unknown_command_dropped (r : Render) (command payload : Js.value) (h : Host) :
  knownCommand command = false →
  handleRemoteCommand r command payload h = Normal h.
Proof.
  unfold knownCommand, handleRemoteCommand. intros Hk.
  repeat (apply orb_false_elim in Hk as [Hk ?]).
  repeat match goal with H : Js.is_str _ _ = false |- _ => rewrite H; clear H end.
  reflexivity.
Qed.

(** C5, as stated, fails: a [set-volume] whose value is [-Infinity] (a
    number, not a finite one) is applied; the host's player ends at
    volume 0, muted. *)
Lemma remote_command_counterexample :
  let h := onPeerConnection true (startRemoteHost 123456789012345%Z exampleHost) in
  let message :=
    RemotePage.commandMessage "set-volume"
      (Js.Obj [("value", Js.Num Js.NegInf)]) in
  Js.isFinite Js.NegInf = false
  ∧ (Player.volume ∘ Player.state <$> playerRef h) = Some Js.one
  ∧ ∃ h', onConnData 0 message h = Normal h'
          ∧ (Player.volume ∘ Player.state <$> playerRef h') = Some Js.zero
          ∧ (Player.isMuted ∘ Player.state <$> playerRef h') = Some true.
Proof. vm_compute. repeat split. eexists. repeat split. Qed.

(** [NaN] is of type number too; it passes the check and the element
    refuses it, so the handler ends with an exception and nothing is
    written. *)
Lemma setVolumeLevel_NaN (video : Video.t) (p : Player.World) :
  Player.videoRef p = Some video →
  Player.setVolumeLevel Js.NaN p = Throw "TypeError".
Proof. intros Hv. unfold Player.setVolumeLevel. by rewrite Hv. Qed.

(** C5, amended.  A command outside the spec's set (any value, string or
    not) is dropped: the handler returns normally and the host is
    unchanged.  A [set-volume] whose [payload?.value] is not of type
    number (missing payload, missing value, string, ...) is dropped the
    same way.  A [set-volume] whose value is of type number is handed to
    the player.  With a mounted player, a value other than [NaN], finite
    or infinite, is stored clamped to [0, 1], and [NaN] is not applied
    and not dropped silently either: the element's volume setter throws
    a TypeError out of the handler, and nothing has been written.
    Without a player or without its element nothing happens.  So the
    host changes only for a value of type number other than [NaN]; the
    infinities are among these values and are stored as 1 and 0. *)
Theorem remote_command_tolerance (r : Render) (command payload : Js.value)
    (h : Host) :
  (knownCommand command = false →
   handleRemoteCommand r command payload h = Normal h)
  ∧ (Js.is_str command "set-volume" = true →
     match Js.opt_get payload "value" with
     | Js.Num value =>
         handleRemoteCommand r command payload h = remoteVolumeChange value h
         ∧ (∀ p video,
              playerRef h = Some p → Player.videoRef p = Some video →
              match value with
              | Js.NaN =>
                  handleRemoteCommand r command payload h = Throw "TypeError"
              | _ =>
                  ∃ p', handleRemoteCommand r command payload h
                        = Normal (with_player (Some p') h)
                        ∧ Player.volume (Player.state p')
                          = Js.min Js.one (Js.max Js.zero value)
              end)
         ∧ (playerRef h = None
            ∨ (∃ p, playerRef h = Some p ∧ Player.videoRef p = None) →
            handleRemoteCommand r command payload h = Normal h)
     | _ => handleRemoteCommand r command payload h = Normal h
     end)
  ∧ (Js.is_str command "set-volume" = true →
     ∀ h', handleRemoteCommand r command payload h = Normal h' → h' ≠ h →
           ∃ value, Js.opt_get payload "value" = Js.Num value
                    ∧ value ≠ Js.NaN)
  ∧ Js.min Js.one (Js.max Js.zero Js.PosInf) = Js.one
  ∧ Js.min Js.one (Js.max Js.zero Js.NegInf) = Js.zero.
Proof.
  split; [apply unknown_command_dropped|].
  assert (Js.is_str command "set-volume" = true →
          handleRemoteCommand r command payload h
          = match Js.opt_get payload "value" with
            | Js.Num value => remoteVolumeChange value h
            | _ => Normal h
            end) as Hset.
  { intros Hc. destruct command as [| | | |c|]; try discriminate Hc.
    cbn in Hc. apply String.eqb_eq in Hc as ->.
    unfold handleRemoteCommand. cbn.
    by destruct (Js.opt_get payload "value"). }
  assert (∀ p, playerRef h = Some p → with_player (Some p) h = h) as Hsame.
  { intros p Hp. destruct h. cbn in *. by subst. }
  split.
  - intros Hc. rewrite (Hset Hc).
    destruct (Js.opt_get payload "value") as [| | |value| |]; try reflexivity.
    split; [reflexivity|]. split.
    + intros p video Hp Hv. unfold remoteVolumeChange, onPlayer. rewrite Hp.
      destruct value as [q| | |].
      * destruct (setVolumeLevel_applied (Js.Fin q) video p) as (p' & E & Hvol);
          [done|done|]. exists p'. by rewrite E.
      * destruct (setVolumeLevel_applied Js.PosInf video p) as (p' & E & Hvol);
          [done|done|]. exists p'. by rewrite E.
      * destruct (setVolumeLevel_applied Js.NegInf video p) as (p' & E & Hvol);
          [done|done|]. exists p'. by rewrite E.
      * by rewrite (setVolumeLevel_NaN video p Hv).
    + unfold remoteVolumeChange, onPlayer.
      intros [->|(p & Hp & Hv)]; [done|]. rewrite Hp.
      unfold Player.setVolumeLevel. rewrite Hv. cbn. by rewrite Hsame.
  - split; [|done]. intros Hc h' Hrun Hne. rewrite (Hset Hc) in Hrun.
    destruct (Js.opt_get payload "value") as [| | |value| |];
      try (injection Hrun as <-; by destruct Hne).
    exists value. split; [done|]. intros ->.
    unfold remoteVolumeChange, onPlayer in Hrun.
    destruct (playerRef h) as [p|] eqn:Hp;
      [|injection Hrun as <-; by destruct Hne].
    unfold Player.setVolumeLevel in Hrun.
    destruct (Player.videoRef p) as [video|] eqn:Hv; [done|].
    cbn in Hrun. injection Hrun as <-. destruct Hne. by apply Hsame.
Qed.

(** An unknown command and a value that is a string, both dropped; the
    value [NaN], which throws; and the value 7/2, stored as 1. *)
Lemma remote_command_tolerance_witness :
  handleRemoteCommand (render exampleHost) (Js.Str "rewind") Js.Undefined
    exampleHost = Normal exampleHost
  ∧ handleRemoteCommand (render exampleHost) (Js.Str "set-volume")
      (Js.Obj [("value", Js.Str "0.5")]) exampleHost = Normal exampleHost
  ∧ handleRemoteCommand (render exampleHost) (Js.Str "set-volume")
      (Js.Obj [("value", Js.Num Js.NaN)]) exampleHost = Throw "TypeError"
  ∧ ∃ p', handleRemoteCommand (render exampleHost) (Js.Str "set-volume")
            (Js.Obj [("value", Js.Num (Js.Fin (7 # 2)))]) exampleHost
          = Normal (with_player (Some p') exampleHost)
          ∧ Player.volume (Player.state p')
            = Js.min Js.one (Js.max Js.zero (Js.Fin (7 # 2))).
Proof.
  split; [|split; [|split]].
  - apply (proj1 (remote_command_tolerance (render exampleHost)
                    (Js.Str "rewind") Js.Undefined exampleHost)).
    reflexivity.
  - apply (proj1 (proj2 (remote_command_tolerance (render exampleHost)
                           (Js.Str "set-volume")
                           (Js.Obj [("value", Js.Str "0.5")]) exampleHost))).
    reflexivity.
  - pose proof (proj1 (proj2 (remote_command_tolerance (render exampleHost)
                                (Js.Str "set-volume")
                                (Js.Obj [("value", Js.Num Js.NaN)])
                                exampleHost)) eq_refl) as (_ & H & _).
    exact (H _ _ eq_refl eq_refl).
  - pose proof (proj1 (proj2 (remote_command_tolerance (render exampleHost)
                                (Js.Str "set-volume")
                                (Js.Obj [("value", Js.Num (Js.Fin (7 # 2)))])
                                exampleHost)) eq_refl) as (_ & H & _).
    exact (H _ _ eq_refl eq_refl).
Defined.

(** Commands from a controller run the callbacks of the render in which
    the host was started, not those of the current render: with "a"
    selected at start, a second remote [next] computes its index from
    "a" again and selects "b" once more, where the on-screen button
    would go on to "c". *)
Lemma remote_next_uses_start_render :
  let h0 := setSelectedChannel (Some (exampleChannel "a")) exampleHost in
  let h := onPeerConnection true (startRemoteHost 123456789012345%Z h0) in
  let message := RemotePage.commandMessage "next" Js.Undefined in
  ∃ h1 h2,
    onConnData 0 message h = Normal h1
    ∧ onConnData 0 message h1 = Normal h2
    ∧ selectedChannel h1 = Some (exampleChannel "b")
    ∧ selectedChannel h2 = Some (exampleChannel "b")
    ∧ selectedChannel (next h1) = Some (exampleChannel "c").
Proof. vm_compute. eexists _, _. repeat split. Qed.

(** A message that is neither a command nor [remote-ready] is dropped
    too, whatever it is. *)
Lemma unknown_message_dropped (conn : nat) (message : Js.value) (h : Host) :
  Js.is_str (Js.opt_get message "type") "command" = false →
  Js.is_str (Js.opt_get message "type") "remote-ready" = false →
  onConnData conn message h = Normal h.
Proof.
  intros H1 H2. unfold onConnData. rewrite H1, H2.
  by destruct (remotePeerRef h).
Qed.

(** [NaN] is of type number too; it passes the check and the element
    refuses it, so the handler ends with an exception. *)
Lemma set_volume_NaN_throws (r : Render) (h : Host) (p : Player.World)
    (video : Video.t) :
  playerRef h = Some p → Player.videoRef p = Some video →
  handleRemoteCommand r (Js.Str "set-volume")
    (Js.Obj [("value", Js.Num Js.NaN)]) h = Throw "TypeError".
Proof.
  intros Hp Hv. unfold handleRemoteCommand. cbn.
  unfold remoteVolumeChange, onPlayer, Player.setVolumeLevel.
  by rewrite Hp, Hv.
Qed.

End RemoteCommandProperties.

(** ** Broadcast and connection clean-up *)

Section BroadcastProperties.

Import IpTv.

Lemma with_connections_id (h : Host) : with_connections (connections h) h = h.
Proof. by destruct h. Qed.

(** Sending to one connection touches that connection object only. *)
Lemma sendState_connections (r : Render) (conn : nat) (h : Host) :
  sendStateToConnection r conn h
  = with_connections
      (match connections h !! conn with
       | Some c => <[conn := delivered r c]> (connections h)
       | None => connections h
       end) h.
Proof.
  unfold sendStateToConnection, delivered.
  destruct (connections h !! conn) as [c|] eqn:E.
  - destruct (Peer.open c); [done|].
    by rewrite insert_id, with_connections_id.
  - by rewrite with_connections_id.
Qed.

Lemma sendState_lookup (r : Render) (conn c : nat) (h : Host) :
  connections (sendStateToConnection r conn h) !! c
  = if decide (c = conn) then delivered r <$> connections h !! c
    else connections h !! c.
Proof.
  rewrite sendState_connections. cbn.
  case_decide as Hc.
  - subst c. destruct (connections h !! conn) as [d|] eqn:E; cbn.
    + by rewrite lookup_insert_eq.
    + by rewrite E.
  - destruct (connections h !! conn); [|done].
    by rewrite lookup_insert_ne.
Qed.

Lemma sendState_frame (r : Render) (conn : nat) (h : Host) :
  sendStateToConnection r conn h
  = with_connections (connections (sendStateToConnection r conn h)) h.
Proof. by rewrite sendState_connections. Qed.

(** The loop of [forEach]. *)
Lemma forEach_frame (r : Render) (l : list nat) (h : Host) :
  let h' := foldl (λ h conn, sendStateToConnection r conn h) h l in
  h' = with_connections (connections h') h.
Proof.
  revert h. induction l as [|x l IH]; intros h; cbn.
  - by rewrite with_connections_id.
  - cbn in IH. rewrite IH at 1. by rewrite sendState_frame.
Qed.

Lemma forEach_lookup (r : Render) (l : list nat) (h : Host) (c : nat) :
  NoDup l →
  connections (foldl (λ h conn, sendStateToConnection r conn h) h l) !! c
  = if decide (c ∈ l) then delivered r <$> connections h !! c
    else connections h !! c.
Proof.
  revert h. induction l as [|x l IH]; intros h Hnd; cbn.
  - by rewrite decide_False by apply not_elem_of_nil.
  - apply NoDup_cons in Hnd as [Hx Hnd]. rewrite (IH _ Hnd).
    rewrite sendState_lookup.
    destruct (decide (c = x)) as [->|Hne].
    + rewrite (decide_False (P := x ∈ l)) by done.
      by rewrite decide_True by apply list_elem_of_here.
    + destruct (decide (c ∈ l)) as [Hin|Hout].
      * by rewrite decide_True by (by apply list_elem_of_further).
      * rewrite decide_False; [done|].
        intros [->|?]%elem_of_cons; done.
Qed.

Lemma broadcast_unfold (r : Render) (h : Host) :
  broadcastRemoteState r h
  = foldl (λ h conn, sendStateToConnection r conn h) h (remoteConnectionsRef h).
Proof.
  unfold broadcastRemoteState.
  by destruct (remoteConnectionsRef h).
Qed.

(** Well-formedness of the connection list is kept by every handler that
    touches it. *)
Lemma wf_init (storage : gmap string string) : wf (init storage).
Proof. split; [constructor|]. by intros c Hc%elem_of_nil. Qed.

Lemma wf_cleanupConnection (conn : nat) (h : Host) :
  wf h → wf (cleanupConnection conn h).
Proof.
  intros [Hnd Hex]. split; cbn.
  - by apply NoDup_filter.
  - intros c [_ Hc]%list_elem_of_filter. by apply Hex.
Qed.

Lemma wf_sendState (r : Render) (conn : nat) (h : Host) :
  wf h → wf (sendStateToConnection r conn h).
Proof.
  intros [Hnd Hex]. rewrite sendState_frame. split; cbn; [done|].
  intros c Hc. rewrite sendState_lookup.
  case_decide; [apply fmap_is_Some|]; by apply Hex.
Qed.

Lemma wf_onPeerConnection (isOpen : bool) (h : Host) :
  wf h → wf (onPeerConnection isOpen h).
Proof.
  intros [Hnd Hex]. unfold onPeerConnection.
  destruct (remotePeerRef h) as [p|]; [|done].
  apply wf_sendState. split; cbn.
  - apply NoDup_app. split; [done|]. split; [|apply NoDup_singleton].
    intros c Hc ->%list_elem_of_singleton.
    apply Hex, elem_of_dom in Hc. by apply is_fresh in Hc.
  - intros c [Hc| ->%list_elem_of_singleton]%elem_of_app.
    + destruct (decide (c = fresh (dom (connections h)))) as [->|Hne].
      * by rewrite lookup_insert_eq.
      * rewrite lookup_insert_ne by done. by apply Hex.
    + by rewrite lookup_insert_eq.
Qed.

Lemma wf_stopRemoteHost (s : HostStatus) (h : Host) : wf (stopRemoteHost s h).
Proof. split; cbn; [constructor|]. by intros c Hc%elem_of_nil. Qed.

Lemma wf_startRemoteHost (rnd : Random) (h : Host) :
  wf h → wf (startRemoteHost rnd h).
Proof. intros Hwf. unfold startRemoteHost. by destruct (remotePeerRef h). Qed.

Lemma wf_exampleHost : wf exampleHost.
Proof. split; [constructor|]. by intros c Hc%elem_of_nil. Qed.

(** C6. With a well-formed connection list, one broadcast hands the full
    snapshot (selected channel, player state, nav flags) to [send]
    exactly once on every listed connection that is open, sends nothing
    on any other connection, and changes nothing else on the host.
    Removing a connection on close or on error drops exactly that
    identity from the list, keeps every other identity, and leaves the
    other connection objects, the player and the selection unchanged. *)
Theorem broadcast_and_cleanup (h : Host) :
  wf h →
  let h' := broadcastRemoteState (render h) h in
  snapshot (render h)
  = StateMsg {| channel := selectedChannel h; player := playerState h;
                nav := {| hasNext := canNext h; hasPrev := canPrev h |} |}
  ∧ (∀ c dc,
       c ∈ remoteConnectionsRef h →
       connections h !! c = Some dc → Peer.open dc = true →
       ∃ dc', connections h' !! c = Some dc'
              ∧ Peer.sent dc' = (Peer.sent dc ++ [snapshot (render h)])%list
              ∧ Peer.open dc' = true)
  ∧ (∀ c dc,
       connections h !! c = Some dc →
       (c ∉ remoteConnectionsRef h ∨ Peer.open dc = false) →
       connections h' !! c = Some dc)
  ∧ dom (connections h') = dom (connections h)
  ∧ h' = with_connections (connections h') h
  ∧ (∀ conn,
       let h1 := onConnClose conn h in
       let h2 := onConnError conn h in
       (conn ∉ remoteConnectionsRef h1)
       ∧ (conn ∉ remoteConnectionsRef h2)
       ∧ (∀ c, c ≠ conn →
            (c ∈ remoteConnectionsRef h1 ↔ c ∈ remoteConnectionsRef h)
            ∧ (c ∈ remoteConnectionsRef h2 ↔ c ∈ remoteConnectionsRef h)
            ∧ connections h1 !! c = connections h !! c)
       ∧ connections h2 = connections h
       ∧ remoteConnectedClients h1 = length (remoteConnectionsRef h1)
       ∧ playerRef h1 = playerRef h ∧ playerRef h2 = playerRef h
       ∧ playerState h1 = playerState h ∧ playerState h2 = playerState h
       ∧ selectedChannel h1 = selectedChannel h
       ∧ selectedChannel h2 = selectedChannel h).
Proof.
  intros [Hnd Hex] h'. subst h'. rewrite broadcast_unfold.
  split; [reflexivity|]. split; [|split; [|split; [|split]]].
  - intros c dc Hin Hc Hopen. rewrite (forEach_lookup _ _ _ _ Hnd).
    rewrite decide_True by done. rewrite Hc. cbn.
    unfold delivered. rewrite Hopen. eexists. by repeat split.
  - intros c dc Hc Hor. rewrite (forEach_lookup _ _ _ _ Hnd), Hc.
    case_decide as Hin; [|done]. cbn. unfold delivered.
    destruct Hor as [Hout| ->]; done.
  - apply set_eq. intros c. rewrite !elem_of_dom.
    rewrite (forEach_lookup _ _ _ _ Hnd).
    case_decide; [by rewrite fmap_is_Some|done].
  - apply forEach_frame.
  - intros conn h1 h2. subst h1 h2.
    unfold onConnClose, onConnError, cleanupConnection. cbn.
    repeat split; try done.
    + by intros [? _]%list_elem_of_filter.
    + by intros [? _]%list_elem_of_filter.
    + by intros [_ ?]%list_elem_of_filter.
    + intros. by apply list_elem_of_filter.
    + by intros [_ ?]%list_elem_of_filter.
    + intros. by apply list_elem_of_filter.
    + by apply lookup_alter_ne.
Qed.

Lemma broadcast_and_cleanup_witness :
  let h := onPeerConnection false
             (onPeerConnection true
                (startRemoteHost 123456789012345%Z exampleHost)) in
  let h' := broadcastRemoteState (render h) h in
  ∃ dc', connections h' !! 0%nat = Some dc'
         ∧ Peer.sent dc'
           = ([snapshot (render exampleHost)] ++ [snapshot (render h)])%list
         ∧ Peer.open dc' = true.
Proof.
  intros h.
  apply (proj1 (proj2 (broadcast_and_cleanup h
    (wf_onPeerConnection false _
       (wf_onPeerConnection true _
          (wf_startRemoteHost _ _ wf_exampleHost)))))
    0%nat {| Peer.open := true; Peer.sent := [snapshot (render exampleHost)] |}).
  - vm_compute. apply list_elem_of_here.
  - reflexivity.
  - reflexivity.
Defined.

End BroadcastProperties.

(** ** Session identifiers *)

Section SessionIdProperties.

Import IpTv.

Lemma upper_digit36 (d : Z) :
  (0 ≤ d < 36)%Z → Str.upper_alnum (Str.upper_char (digit36 d)) = true.
Proof.
  intros Hd.
  assert (∃ k, (k < 36)%nat ∧ d = Z.of_nat k) as (k & Hk & ->)
    by (exists (Z.to_nat d); lia).
  do 36 (destruct k as [|k]; [reflexivity|]). lia.
Qed.

Lemma fraction36_alphabet (fuel : nat) (num : Z) :
  (0 ≤ num < 2 ^ 53)%Z →
  Forall (λ c, Str.upper_alnum (Str.upper_char c) = true)
    (Str.chars (fraction36 fuel num)).
Proof.
  revert num. induction fuel as [|fuel IH]; intros num Hnum; cbn [fraction36].
  - constructor.
  - destruct (num =? 0)%Z; [constructor|].
    assert (0 < 2 ^ 53)%Z as Hpos by reflexivity.
    cbn [Str.chars]. constructor.
    + apply upper_digit36. split.
      * apply Z.div_pos; lia.
      * apply Z.div_lt_upper_bound; lia.
    + apply IH. by apply Z.mod_pos_bound.
Qed.

Lemma substring_prefix_Forall (P : ascii → Prop) (m : nat) (s : string) :
  Forall P (Str.chars s) → Forall P (Str.chars (String.substring 0 m s)).
Proof.
  revert s. induction m as [|m IH]; intros s Hs.
  - destruct s; constructor.
  - destruct s as [|c s]; cbn; [constructor|].
    apply Forall_cons in Hs as [Hc Hs]. constructor; [done|by apply IH].
Qed.

Lemma substring_prefix_length (m : nat) (s : string) :
  (String.length (String.substring 0 m s) ≤ m)%nat.
Proof.
  revert s. induction m as [|m IH]; intros s.
  - by destruct s.
  - destruct s as [|c s]; cbn; [lia|]. specialize (IH s). lia.
Qed.

Lemma chars_map (f : ascii → ascii) (s : string) :
  Str.chars (Str.map f s) = f <$> Str.chars s.
Proof. induction s as [|c s IH]; cbn; [done|by rewrite IH]. Qed.

Lemma length_map (f : ascii → ascii) (s : string) :
  String.length (Str.map f s) = String.length s.
Proof. induction s as [|c s IH]; cbn; [done|by rewrite IH]. Qed.

(** What every identifier has: characters in [0-9A-Z], at most six. *)
Lemma generateSessionId_alphabet (r : Random) :
  (0 ≤ r < 2 ^ 53)%Z →
  Forall (λ c, Str.upper_alnum c = true) (Str.chars (generateSessionId r))
  ∧ (String.length (generateSessionId r) ≤ 6)%nat.
Proof.
  intros Hr. unfold generateSessionId, toString36, Str.toUpperCase, Str.slice.
  rewrite chars_map, length_map.
  destruct (r =? 0)%Z.
  - split; [constructor|cbn; lia].
  - change (String.substring 2 (8 - 2) ("0." +:+ fraction36 27 r))
      with (String.substring 0 6 (fraction36 27 r)).
    split; [|apply substring_prefix_length].
    apply Forall_fmap. apply substring_prefix_Forall.
    by apply fraction36_alphabet.
Qed.

(** C7, the defect: the identifier's length is not fixed.  When
    [Math.random()] returns 0.5 the identifier is the single character
    "I"; when it returns 0 it is empty; other draws give six
    characters. *)
Theorem session_id_length_varies :
  generateSessionId (2 ^ 52)%Z = "I"
  ∧ String.length (generateSessionId (2 ^ 52)%Z) = 1%nat
  ∧ generateSessionId 0%Z = ""
  ∧ generateSessionId 123456789012345%Z = "0HRHL1"
  ∧ String.length (generateSessionId 123456789012345%Z) = 6%nat.
Proof. vm_compute. repeat split. Qed.

(** The rest of C7 holds.  A start without a live peer uses the stored
    identifier when there is one and draws one otherwise; either way the
    identifier is written to storage. *)
Lemma start_generates (rnd : Random) (h : Host) :
  remotePeerRef h = None → remoteSessionId h = "" →
  remoteSessionId (startRemoteHost rnd h) = generateSessionId rnd
  ∧ localStorage (startRemoteHost rnd h) !! REMOTE_SESSION_STORAGE_KEY
    = Some (generateSessionId rnd)
  ∧ peerId <$> remotePeerRef (startRemoteHost rnd h)
    = Some (generateSessionId rnd).
Proof.
  intros Hp Hid. unfold startRemoteHost. rewrite Hp, Hid. cbn.
  by rewrite lookup_insert_eq.
Qed.

Lemma start_reuses (rnd : Random) (h : Host) :
  remotePeerRef h = None → remoteSessionId h ≠ "" →
  remoteSessionId (startRemoteHost rnd h) = remoteSessionId h
  ∧ localStorage (startRemoteHost rnd h) !! REMOTE_SESSION_STORAGE_KEY
    = Some (remoteSessionId h)
  ∧ peerId <$> remotePeerRef (startRemoteHost rnd h)
    = Some (remoteSessionId h).
Proof.
  intros Hp Hid. unfold startRemoteHost. rewrite Hp.
  apply String.eqb_neq in Hid. rewrite Hid. cbn.
  by rewrite lookup_insert_eq.
Qed.

Lemma start_with_live_peer (rnd : Random) (h : Host) (p : HostPeer) :
  remotePeerRef h = Some p →
  remoteSessionId (startRemoteHost rnd h) = remoteSessionId h
  ∧ localStorage (startRemoteHost rnd h) = localStorage h.
Proof. intros Hp. unfold startRemoteHost. by rewrite Hp. Qed.

(** Stopping keeps the identifier, and a page load reads it back from
    storage: a later start, whatever it would draw, reuses it. *)
Lemma stop_keeps_id (s : HostStatus) (h : Host) :
  remoteSessionId (stopRemoteHost s h) = remoteSessionId h
  ∧ localStorage (stopRemoteHost s h) = localStorage h
  ∧ remotePeerRef (stopRemoteHost s h) = None.
Proof. done. Qed.

Lemma reload_reuses (rnd rnd' : Random) (h : Host) :
  remotePeerRef h = None →
  remoteSessionId (startRemoteHost rnd h) ≠ "" →
  remoteSessionId
    (startRemoteHost rnd' (init (localStorage (startRemoteHost rnd h))))
  = remoteSessionId (startRemoteHost rnd h).
Proof.
  intros Hp Hne.
  assert (localStorage (startRemoteHost rnd h) !! REMOTE_SESSION_STORAGE_KEY
          = Some (remoteSessionId (startRemoteHost rnd h))) as Hst.
  { unfold startRemoteHost. rewrite Hp. cbn. by rewrite lookup_insert_eq. }
  set (h1 := startRemoteHost rnd h) in *.
  assert (remoteSessionId (init (localStorage h1)) = remoteSessionId h1) as Hi.
  { cbn. by rewrite Hst. }
  destruct (start_reuses rnd' (init (localStorage h1))) as (E & _);
    [done|by rewrite Hi|by rewrite E].
Qed.

End SessionIdProperties.

(** ** The controller *)

Section ControllerProperties.

Import RemotePage.

(** C9. When the connection closes the controller's status becomes
    [disconnected], the cached channel is cleared, the nav flags are
    both false, and the cached player fields are what they were. *)
Theorem close_clears_view (conn : nat) (c : Controller) :
  let c' := onClose conn c in
  connectionStatus c' = disconnected
  ∧ IpTv.channel (hostState c') = None
  ∧ IpTv.nav (hostState c')
    = {| IpTv.hasNext := false; IpTv.hasPrev := false |}
  ∧ IpTv.player (hostState c') = IpTv.player (hostState c)
  ∧ connectionRef c'
    = (if bool_decide (connectionRef c = Some conn) then None
       else connectionRef c).
Proof.
  unfold onClose. cbn.
  destruct (bool_decide (connectionRef c = Some conn)); by repeat split.
Qed.

(** C10. With no connection, or with one that is not open, every
    command sender returns the controller as it was: nothing is handed
    to [send] and no state cell or ref changes. *)
Theorem send_without_connection (cmd : Command) (c : Controller) :
  (connectionRef c = None
   ∨ ∃ conn, connectionRef c = Some conn
             ∧ Peer.open <$> connections c !! conn ≠ Some true) →
  sender cmd c = c ∧ outbox (sender cmd c) = outbox c.
Proof.
  intros Hno.
  assert (∀ s p, sendCommand s p c = c) as Hsend.
  { intros s p. unfold sendCommand.
    destruct Hno as [->|(conn & -> & Hopen)]; [done|].
    destruct (connections c !! conn) as [dc|]; [|done].
    cbn in Hopen. destruct (Peer.open dc); [|done]. by destruct Hopen. }
  assert (sender cmd c = c) as ->; [|done].
  destruct cmd; apply Hsend.
Qed.

Lemma send_without_connection_witness :
  let c := connectToSession "AB12CD" (init "") in
  connectionRef c = Some 0%nat
  ∧ sender (SetVolume (Js.Fin (1 # 2))) c = c
  ∧ outbox (sender (SetVolume (Js.Fin (1 # 2))) c) = outbox c.
Proof.
  intros c. split; [reflexivity|].
  apply (send_without_connection (SetVolume (Js.Fin (1 # 2))) c).
  right. exists 0%nat. split; [reflexivity|]. vm_compute. discriminate.
Defined.

End ControllerProperties.

(* ===================================================================== *)
(** * Further properties *)
(* ===================================================================== *)

(** ** The session host as a machine *)

Section HostMachineProperties.

Import IpTv HostMachine.

(** Handlers that only touch the selection or the player. *)
Lemma consistent_frame (h h' : Host) :
  consistent h →
  remoteConnectionsRef h' = remoteConnectionsRef h →
  remoteConnectedClients h' = remoteConnectedClients h →
  dom (connections h') = dom (connections h) →
  remotePeerRef h' = remotePeerRef h →
  remoteHostStatus h' = remoteHostStatus h →
  remoteSessionId h' = remoteSessionId h →
  localStorage h' = localStorage h →
  consistent h'.
Proof.
  intros ([Hnd Hex] & Hcount & Hnone & Hstop & Hid) El Ec Ed Ep Es Ei Est.
  unfold consistent, wf. rewrite El, Ec, Ep, Es, Ei, Est.
  split; [split; [done|]|exact (conj Hcount (conj Hnone (conj Hstop Hid)))].
  intros c Hc. apply elem_of_dom. rewrite Ed. apply elem_of_dom. by apply Hex.
Qed.

Lemma onPlayer_inv (m : Player.World → Completion Player.World) (h h' : Host) :
  onPlayer m h = Normal h' → ∃ p, h' = with_player p h.
Proof.
  unfold onPlayer. destruct (playerRef h) as [p|] eqn:Ep.
  - destruct (m p) as [p'|]; [|done]. intros [= <-]. by eexists.
  - intros [= <-]. exists None. destruct h. cbn in *. by subst.
Qed.

(** What a remote command can reach: the selection and the player, and
    nothing of the session. *)
Lemma handleRemoteCommand_reach (r : Render) (command payload : Js.value)
    (h h' : Host) :
  handleRemoteCommand r command payload h = Normal h' →
  ∃ sel p, h' = setSelectedChannel sel (with_player p h).
Proof.
  assert (∀ sel, ∃ sel' p, setSelectedChannel sel h
                          = setSelectedChannel sel' (with_player p h)) as Hsel.
  { intros sel. exists sel, (playerRef h). by destruct h. }
  assert (∃ sel p, h = setSelectedChannel sel (with_player p h)) as Hid.
  { exists (selectedChannel h), (playerRef h). by destruct h. }
  assert (∀ m h', onPlayer m h = Normal h' →
                  ∃ sel p, h' = setSelectedChannel sel (with_player p h)) as Hpl.
  { intros m h1 (p & ->)%onPlayer_inv. exists (selectedChannel h), p.
    by destruct h. }
  unfold handleRemoteCommand, handleNextChannel, handlePrevChannel,
    remotePlayPause, remoteStop, remoteMuteToggle, remoteVolumeUp,
    remoteVolumeDown, remoteVolumeChange.
  repeat (match goal with
          | |- context [if ?b then _ else _] => destruct b
          | |- context [match Js.is_number ?x with _ => _ end] =>
              destruct (Js.is_number x)
          end);
    try (intros [= <-]; first [exact Hid | apply Hsel]);
    try (apply Hpl).
Qed.

Lemma broadcast_wf (r : Render) (l : list nat) (h : Host) :
  wf h → wf (foldl (λ h conn, sendStateToConnection r conn h) h l).
Proof.
  revert h. induction l as [|x l IH]; intros h Hwf; [done|].
  cbn. by apply IH, wf_sendState.
Qed.

Lemma consistent_sendState (r : Render) (conn : nat) (h : Host) :
  consistent h → consistent (sendStateToConnection r conn h).
Proof.
  intros Hc. apply (consistent_frame h); try done;
    rewrite sendState_frame; try done. cbn.
  apply set_eq. intros c. rewrite !elem_of_dom, sendState_lookup.
  case_decide; [by rewrite fmap_is_Some|done].
Qed.

Lemma consistent_init (storage : gmap string string) : consistent (init storage).
Proof.
  split; [apply wf_init|]. repeat split; try done. by intros [? ?].
Qed.

Lemma consistent_step (e : Event) (h : Host) :
  consistent h → consistent (step e h).
Proof.
  intros Hc. unfold step.
  destruct (handle e h) as [h'|] eqn:E; [|done].
  destruct e; cbn in E.
  - (* SelectChannel *)
    injection E as <-. by apply (consistent_frame h).
  - (* PressNext *)
    injection E as <-. unfold next, handleNextChannel.
    repeat case_match; try done; by apply (consistent_frame h).
  - (* PressPrev *)
    injection E as <-. unfold prev, handlePrevChannel.
    repeat case_match; try done; by apply (consistent_frame h).
  - (* PlayerEvent *)
    destruct (onPlayer (Player.run a) h) as [h1|] eqn:E1; [|done].
    cbn in E. injection E as <-.
    apply onPlayer_inv in E1 as (p & ->).
    unfold onPlayerStateChange. cbn.
    destruct p; by apply (consistent_frame h).
  - (* StartRemote *)
    injection E as <-. unfold startRemoteHost.
    destruct Hc as (Hwf & Hcount & Hnone & Hstop & Hid).
    destruct (remotePeerRef h) as [p|] eqn:Ep.
    + split; [exact Hwf|]. cbn. rewrite Ep.
      split; [done|]. split; [done|]. split; [done|]. done.
    + split; [exact Hwf|]. cbn.
      split; [done|]. split; [done|]. split; [done|].
      intros q [= <-]. cbn. by rewrite lookup_insert_eq.
  - (* StopRemote *)
    injection E as <-.
    split; [apply wf_stopRemoteHost|]. cbn.
    split; [done|]. split; [done|]. split; [|done].
    split; [done|by intros [? ?]].
  - (* PeerOpen *)
    injection E as <-. unfold onPeerOpen.
    destruct (remotePeerRef h) as [p|] eqn:Ep; [|exact Hc].
    destruct Hc as (Hwf & Hcount & Hnone & Hstop & Hid).
    split; [exact Hwf|]. cbn. rewrite Ep.
    split; [done|]. split; [done|]. split; [done|].
    intros q [= <-]. by apply Hid.
  - (* PeerConnection *)
    injection E as <-.
    pose proof (wf_onPeerConnection isOpen h (proj1 Hc)) as Hwf'.
    unfold onPeerConnection in *.
    destruct (remotePeerRef h) as [p|] eqn:Ep; [|exact Hc].
    destruct Hc as (Hwf & Hcount & Hnone & Hstop & Hid).
    split; [exact Hwf'|]. rewrite sendState_frame. cbn. rewrite Ep.
    split; [done|]. split; [done|]. split; [by rewrite <- Ep|].
    intros q [= <-]. by apply Hid.
  - (* PeerError *)
    injection E as <-. unfold onPeerError.
    split; [apply wf_stopRemoteHost|]. cbn.
    split; [done|]. split; [done|]. split; [|done].
    split; [done|by intros [? ?]].
  - (* ConnOpened *)
    injection E as <-. apply (consistent_frame h); try done. cbn.
    apply dom_alter_L.
  - (* ConnData *)
    unfold onConnData in E.
    destruct (remotePeerRef h) as [p|] eqn:Ep; [|by injection E as <-].
    destruct (Js.is_str _ "command").
    + apply handleRemoteCommand_reach in E as (sel & q & ->).
      by apply (consistent_frame h).
    + destruct (Js.is_str _ "remote-ready"); injection E as <-; [|done].
      by apply consistent_sendState.
  - (* ConnClose *)
    injection E as <-.
    destruct Hc as (Hwf & Hcount & Hnone & Hstop & Hid).
    unfold onConnClose.
    split.
    + apply wf_cleanupConnection. destruct Hwf as [Hnd Hex].
      split; [done|]. cbn. intros c Hin.
      apply elem_of_dom. rewrite dom_alter_L. apply elem_of_dom. by apply Hex.
    + cbn. split; [done|]. split; [|done].
      intros Hp. by rewrite (Hnone Hp).
  - (* ConnError *)
    injection E as <-.
    destruct Hc as (Hwf & Hcount & Hnone & Hstop & Hid).
    unfold onConnError.
    split; [by apply wf_cleanupConnection|].
    cbn. split; [done|]. split; [|done].
    intros Hp. by rewrite (Hnone Hp).
  - (* BroadcastEffect *)
    injection E as <-. rewrite broadcast_unfold.
    pose proof (forEach_frame (render h) (remoteConnectionsRef h) h) as Hf.
    cbn zeta in Hf.
    pose proof (broadcast_wf (render h) (remoteConnectionsRef h) h (proj1 Hc))
      as Hwf'.
    set (h' := foldl _ h _) in *.
    destruct Hc as (Hwf & Hcount & Hnone & Hstop & Hid).
    split; [done|]. rewrite Hf. done.
Qed.

Lemma consistent_steps (es : list Event) (h : Host) :
  consistent h → consistent (steps es h).
Proof.
  revert h. induction es as [|e es IH]; intros h Hc; [done|].
  cbn. by apply IH, consistent_step.
Qed.

(** X1. Whatever sequence of user, player, peer and connection events
    follows a page load, the host's session fields stay consistent: the
    listed connections are pairwise distinct existing objects, the
    connected-devices counter is their number, none is listed without a
    peer, a peer exists exactly in the statuses in which the card offers
    Stop (connecting, ready), and a live peer listens under the
    identifier that is displayed and stored. *)
Theorem host_session_consistent (storage : gmap string string) (es : list Event) :
  let h := steps es (init storage) in
  NoDup (remoteConnectionsRef h)
  ∧ (∀ c, c ∈ remoteConnectionsRef h → is_Some (connections h !! c))
  ∧ remoteConnectedClients h = length (remoteConnectionsRef h)
  ∧ (remotePeerRef h = None → remoteConnectionsRef h = [])
  ∧ (canStop (remoteHostStatus h) = true ↔ is_Some (remotePeerRef h))
  ∧ (canStart (remoteHostStatus h) = true ↔ remotePeerRef h = None)
  ∧ (∀ p, remotePeerRef h = Some p →
       peerId p = remoteSessionId h
       ∧ localStorage h !! REMOTE_SESSION_STORAGE_KEY
         = Some (remoteSessionId h)).
Proof.
  cbn zeta.
  destruct (consistent_steps es (init storage) (consistent_init storage))
    as ([Hnd Hex] & Hcount & Hnone & Hstop & Hid).
  set (h := steps es (init storage)) in *.
  split; [done|]. split; [done|]. split; [done|]. split; [done|].
  split; [done|]. split; [|done].
  destruct (remotePeerRef h) as [p|].
  - assert (canStop (remoteHostStatus h) = true) as Hc by (by apply Hstop).
    destruct (remoteHostStatus h); done.
  - assert (canStop (remoteHostStatus h) ≠ true) as Hc.
    { intros Hc%Hstop. by destruct Hc. }
    destruct (remoteHostStatus h); done.
Qed.

End HostMachineProperties.

(** ** Stopping the host, and what a controller can reach *)

Section SessionProperties.

Import IpTv HostMachine.

Lemma close_all_lookup (l : list nat)
    (m : gmap nat (Peer.DataConnection HostMessage)) (c : nat) :
  foldl (λ m conn, alter Peer.close conn m) m l !! c
  = if decide (c ∈ l) then Peer.close <$> m !! c else m !! c.
Proof.
  revert m. induction l as [|x l IH]; intros m; cbn.
  - by rewrite decide_False by apply not_elem_of_nil.
  - rewrite IH. destruct (decide (c = x)) as [->|Hne].
    + rewrite lookup_alter_eq.
      rewrite (decide_True (P := x ∈ x :: l)) by apply list_elem_of_here.
      case_decide; [|done]. by destruct (m !! x).
    + rewrite lookup_alter_ne by done.
      destruct (decide (c ∈ l)) as [Hin|Hout].
      * by rewrite decide_True by (by apply list_elem_of_further).
      * rewrite decide_False; [done|]. intros [->|?]%elem_of_cons; done.
Qed.

(** X2. [stopRemoteHost] closes every listed connection (keeping what
    was sent on it), touches no other connection object, empties the
    list, resets the counter, drops the peer and sets the requested
    status; it leaves the selection, the player, the identifier and the
    storage alone; a broadcast after it sends nothing, and a second stop
    changes nothing. *)
Theorem stop_closes_all (s : HostStatus) (h : Host) :
  let h' := stopRemoteHost s h in
  (∀ c dc, c ∈ remoteConnectionsRef h → connections h !! c = Some dc →
     connections h' !! c
     = Some {| Peer.open := false; Peer.sent := Peer.sent dc |})
  ∧ (∀ c, c ∉ remoteConnectionsRef h → connections h' !! c = connections h !! c)
  ∧ remoteConnectionsRef h' = []
  ∧ remoteConnectedClients h' = 0%nat
  ∧ remotePeerRef h' = None
  ∧ remoteHostStatus h' = s
  ∧ selectedChannel h' = selectedChannel h
  ∧ playerRef h' = playerRef h
  ∧ remoteSessionId h' = remoteSessionId h
  ∧ localStorage h' = localStorage h
  ∧ (∀ r, broadcastRemoteState r h' = h')
  ∧ stopRemoteHost s h' = h'.
Proof.
  cbn zeta. repeat split.
  - intros c dc Hin Hc. cbn. rewrite close_all_lookup.
    rewrite decide_True by done. by rewrite Hc.
  - intros c Hout. cbn. rewrite close_all_lookup.
    by rewrite decide_False by done.
Qed.

Lemma handleNextChannel_cases (r : Render) (h : Host) :
  handleNextChannel r h = h
  ∨ ∃ ch, ch ∈ r_filteredChannels r
          ∧ handleNextChannel r h = setSelectedChannel (Some ch) h.
Proof.
  unfold handleNextChannel.
  destruct (length (r_filteredChannels r) =? 0)%nat; [by left|].
  destruct (Z.leb_spec 0 (getCurrentChannelIndex r)); [|by left].
  destruct (Z.ltb_spec (getCurrentChannelIndex r)
              (Z.of_nat (length (r_filteredChannels r)) - 1)); [|by left].
  cbn. right. unfold at_index.
  destruct (Z.ltb_spec (getCurrentChannelIndex r + 1) 0); [lia|].
  destruct (lookup_lt_is_Some_2 (r_filteredChannels r)
              (Z.to_nat (getCurrentChannelIndex r + 1))) as [ch Hch]; [lia|].
  exists ch. rewrite Hch. split; [|done]. by eapply list_elem_of_lookup_2.
Qed.

Lemma handlePrevChannel_cases (r : Render) (h : Host) :
  handlePrevChannel r h = h
  ∨ ∃ ch, ch ∈ r_filteredChannels r
          ∧ handlePrevChannel r h = setSelectedChannel (Some ch) h.
Proof.
  unfold handlePrevChannel.
  destruct (length (r_filteredChannels r) =? 0)%nat; [by left|].
  destruct (Z.ltb_spec 0 (getCurrentChannelIndex r)); [|by left].
  right. unfold at_index.
  destruct (Z.ltb_spec (getCurrentChannelIndex r - 1) 0); [lia|].
  assert (getCurrentChannelIndex r
          < Z.of_nat (length (r_filteredChannels r)))%Z as Hlt.
  { unfold getCurrentChannelIndex, findIndex.
    destruct (list_find _ _) as [[i x]|] eqn:E; [|lia].
    apply list_find_Some in E as [E _]. apply lookup_lt_Some in E. lia. }
  destruct (lookup_lt_is_Some_2 (r_filteredChannels r)
              (Z.to_nat (getCurrentChannelIndex r - 1))) as [ch Hch]; [lia|].
  exists ch. rewrite Hch. split; [|done]. by eapply list_elem_of_lookup_2.
Qed.

(** X3. A message from a controller, whatever it contains, cannot reach
    the session: when its handler returns, the identifier, the status,
    the peer, the connection list and counter, the storage, the channel
    list and the filter are what they were; no connection object but the
    sender's has changed; and the selection is either unchanged or a
    channel of the filtered view the handler was created with. *)
Theorem remote_message_confined (conn : nat) (message : Js.value) (h h' : Host) :
  onConnData conn message h = Normal h' →
  remoteSessionId h' = remoteSessionId h
  ∧ remoteHostStatus h' = remoteHostStatus h
  ∧ remotePeerRef h' = remotePeerRef h
  ∧ remoteConnectionsRef h' = remoteConnectionsRef h
  ∧ remoteConnectedClients h' = remoteConnectedClients h
  ∧ localStorage h' = localStorage h
  ∧ channels h' = channels h
  ∧ filteredChannels h' = filteredChannels h
  ∧ (∀ c, c ≠ conn → connections h' !! c = connections h !! c)
  ∧ (selectedChannel h' = selectedChannel h
     ∨ ∃ p ch, remotePeerRef h = Some p
               ∧ ch ∈ r_filteredChannels (captured p)
               ∧ selectedChannel h' = Some ch).
Proof.
  unfold onConnData.
  destruct (remotePeerRef h) as [p|] eqn:Ep;
    [|intros [= <-]; repeat split; first [done|by left]].
  destruct (Js.is_str _ "command").
  - unfold handleRemoteCommand.
    assert (∀ m, onPlayer m h = Normal h' →
      remoteSessionId h' = remoteSessionId h
      ∧ remoteHostStatus h' = remoteHostStatus h
      ∧ remotePeerRef h' = Some p
      ∧ remoteConnectionsRef h' = remoteConnectionsRef h
      ∧ remoteConnectedClients h' = remoteConnectedClients h
      ∧ localStorage h' = localStorage h
      ∧ channels h' = channels h
      ∧ filteredChannels h' = filteredChannels h
      ∧ (∀ c, c ≠ conn → connections h' !! c = connections h !! c)
      ∧ (selectedChannel h' = selectedChannel h
         ∨ ∃ p0 ch, Some p = Some p0
                    ∧ ch ∈ r_filteredChannels (captured p0)
                    ∧ selectedChannel h' = Some ch)) as Hpl.
    { intros m (q & ->)%onPlayer_inv. cbn. rewrite Ep.
      repeat split; first [done|by left]. }
    assert (∀ h1, (h1 = h ∨ ∃ ch, ch ∈ r_filteredChannels (captured p)
                               ∧ h1 = setSelectedChannel (Some ch) h) →
      Normal h1 = Normal h' →
      remoteSessionId h' = remoteSessionId h
      ∧ remoteHostStatus h' = remoteHostStatus h
      ∧ remotePeerRef h' = Some p
      ∧ remoteConnectionsRef h' = remoteConnectionsRef h
      ∧ remoteConnectedClients h' = remoteConnectedClients h
      ∧ localStorage h' = localStorage h
      ∧ channels h' = channels h
      ∧ filteredChannels h' = filteredChannels h
      ∧ (∀ c, c ≠ conn → connections h' !! c = connections h !! c)
      ∧ (selectedChannel h' = selectedChannel h
         ∨ ∃ p0 ch, Some p = Some p0
                    ∧ ch ∈ r_filteredChannels (captured p0)
                    ∧ selectedChannel h' = Some ch)) as Hnav.
    { intros h1 [->|(ch & Hin & ->)] [= <-].
      - rewrite Ep. repeat split; first [done|by left].
      - cbn. rewrite Ep. repeat split; first [done|right; by exists p, ch]. }
    repeat (match goal with
            | |- context [if ?b then _ else _] => destruct b
            | |- context [match Js.is_number ?x with _ => _ end] =>
                destruct (Js.is_number x)
            end);
      try (apply Hpl);
      try (apply Hnav; first [apply handleNextChannel_cases
                             |apply handlePrevChannel_cases
                             |by left]).
  - destruct (Js.is_str _ "remote-ready"); intros [= <-].
    + rewrite sendState_frame. cbn. rewrite Ep.
      repeat split; first [done|by left|idtac].
      intros c Hc. rewrite sendState_lookup. by rewrite decide_False.
    + rewrite Ep. repeat split; first [done|by left].
Qed.

Lemma remote_message_confined_witness :
  let h := onPeerConnection true
             (startRemoteHost 123456789012345%Z exampleHost) in
  let message := RemotePage.commandMessage "next" Js.Undefined in
  let h' := handleNextChannel (render exampleHost) h in
  remoteSessionId h' = remoteSessionId h
  ∧ remoteHostStatus h' = remoteHostStatus h
  ∧ remotePeerRef h' = remotePeerRef h
  ∧ remoteConnectionsRef h' = remoteConnectionsRef h
  ∧ remoteConnectedClients h' = remoteConnectedClients h
  ∧ localStorage h' = localStorage h
  ∧ channels h' = channels h
  ∧ filteredChannels h' = filteredChannels h
  ∧ (∀ c, c ≠ 0%nat → connections h' !! c = connections h !! c)
  ∧ (selectedChannel h' = selectedChannel h
     ∨ ∃ p ch, remotePeerRef h = Some p
               ∧ ch ∈ r_filteredChannels (captured p)
               ∧ selectedChannel h' = Some ch).
Proof.
  intros h message h'.
  apply (remote_message_confined 0 message h h'). reflexivity.
Defined.

End SessionProperties.

(** ** The protocol between the remote page and the host *)

Section ProtocolProperties.

Import IpTv HostMachine.

(** X4. The two ends agree on the wire format of commands: for each of
    the eight controls of the remote page, pressed while its connection
    is open, exactly one message is handed to [send], and a host with a
    live peer that receives this message runs the handler meant for that
    control, with the same volume value for the slider. *)
Theorem commands_understood (cmd : RemotePage.Command)
    (c : RemotePage.Controller) (conn : nat)
    (dc : Peer.DataConnection Js.value) (h : Host) (p : HostPeer) (k : nat) :
  RemotePage.connectionRef c = Some conn →
  RemotePage.connections c !! conn = Some dc →
  Peer.open dc = true →
  remotePeerRef h = Some p →
  ∃ m,
    RemotePage.sender cmd c
    = RemotePage.with_connections
        (<[conn := Peer.send m dc]> (RemotePage.connections c)) c
    ∧ onConnData k m h = hostCommand cmd (captured p) h.
Proof.
  intros Hr Hc Ho Hp.
  assert (∀ s v, RemotePage.sendCommand s v c
                 = RemotePage.with_connections
                     (<[conn := Peer.send (RemotePage.commandMessage s v) dc]>
                        (RemotePage.connections c)) c) as Hsend.
  { intros s v. unfold RemotePage.sendCommand. by rewrite Hr, Hc, Ho. }
  destruct cmd; cbn [RemotePage.sender]; rewrite Hsend;
    eexists; (split; [reflexivity|]);
    unfold onConnData; rewrite Hp; reflexivity.
Qed.

Lemma commands_understood_witness :
  let c := RemotePage.onOpen 0
             (RemotePage.onPeerOpen "remote-1" "0HRHL1"
                (RemotePage.init "0HRHL1")) in
  let h := onPeerConnection true
             (startRemoteHost 123456789012345%Z exampleHost) in
  ∃ m,
    RemotePage.sender (RemotePage.SetVolume (Js.Fin (1 # 4))) c
    = RemotePage.with_connections
        (<[0%nat := Peer.send m
                      {| Peer.open := true;
                         Peer.sent := [RemotePage.remoteReady] |}]>
           (RemotePage.connections c)) c
    ∧ onConnData 0 m h
      = hostCommand (RemotePage.SetVolume (Js.Fin (1 # 4)))
          (render exampleHost) h.
Proof.
  intros c h.
  apply (commands_understood (RemotePage.SetVolume (Js.Fin (1 # 4))) c 0
           {| Peer.open := true; Peer.sent := [RemotePage.remoteReady] |}
           h {| peerId := "0HRHL1"; captured := render exampleHost |} 0);
    reflexivity.
Defined.

(** X5. The opening handshake.  When its connection opens the remote
    page sends [remote-ready] on it; a host with a live peer answers
    that message, on an open connection, with exactly one snapshot on
    that connection and nothing else; and a remote page that receives
    the snapshot shows exactly its channel, player fields and nav flags,
    whatever it showed before. *)
Theorem remote_ready_handshake (c : RemotePage.Controller) (conn : nat)
    (dc : Peer.DataConnection Js.value) (h : Host) (p : HostPeer) (k : nat)
    (dck : Peer.DataConnection HostMessage) :
  RemotePage.connections c !! conn = Some dc →
  remotePeerRef h = Some p →
  connections h !! k = Some dck →
  Peer.open dck = true →
  RemotePage.connections (RemotePage.onOpen conn c) !! conn
  = Some {| Peer.open := true;
            Peer.sent := (Peer.sent dc ++ [RemotePage.remoteReady])%list |}
  ∧ RemotePage.connectionStatus (RemotePage.onOpen conn c)
    = RemotePage.connected
  ∧ onConnData k RemotePage.remoteReady h
    = Normal (with_connections
                (<[k := {| Peer.open := true;
                           Peer.sent := (Peer.sent dck
                                         ++ [snapshot (captured p)])%list |}]>
                   (connections h)) h)
  ∧ RemotePage.hostState
      (RemotePage.onData (RemotePage.FromHost (snapshot (captured p)))
         (RemotePage.onOpen conn c))
    = {| channel := r_selectedChannel (captured p);
         player := r_playerState (captured p);
         nav := {| hasNext := hasNextChannel (captured p);
                   hasPrev := hasPrevChannel (captured p) |} |}.
Proof.
  intros Hc Hp Hk Ho. repeat split.
  - unfold RemotePage.onOpen. cbn. by rewrite lookup_alter_eq, Hc.
  - unfold onConnData. rewrite Hp. cbn.
    unfold sendStateToConnection. rewrite Hk, Ho.
    unfold Peer.send. by rewrite Ho.
Qed.

Lemma remote_ready_handshake_witness :
  let c := RemotePage.onPeerOpen "remote-1" "0HRHL1"
             (RemotePage.init "0HRHL1") in
  let h := onPeerConnection true
             (startRemoteHost 123456789012345%Z exampleHost) in
  RemotePage.connections (RemotePage.onOpen 0 c) !! 0%nat
  = Some {| Peer.open := true; Peer.sent := [RemotePage.remoteReady] |}
  ∧ RemotePage.connectionStatus (RemotePage.onOpen 0 c)
    = RemotePage.connected
  ∧ onConnData 0 RemotePage.remoteReady h
    = Normal (with_connections
                (<[0%nat := {| Peer.open := true;
                               Peer.sent := [snapshot (render exampleHost);
                                             snapshot (render exampleHost)] |}]>
                   (connections h)) h)
  ∧ RemotePage.hostState
      (RemotePage.onData (RemotePage.FromHost (snapshot (render exampleHost)))
         (RemotePage.onOpen 0 c))
    = {| channel := Some (exampleChannel "b");
         player := playerState exampleHost;
         nav := {| hasNext := true; hasPrev := true |} |}.
Proof.
  intros c h.
  apply (remote_ready_handshake c 0
           {| Peer.open := false; Peer.sent := [] |} h
           {| peerId := "0HRHL1"; captured := render exampleHost |} 0
           {| Peer.open := true;
              Peer.sent := [snapshot (render exampleHost)] |});
    reflexivity.
Defined.

End ProtocolProperties.

(** ** The remote page as a machine *)

Section ControllerMachineProperties.

Import RemotePage ControllerMachine.

Lemma ordered_snoc (dc : Peer.DataConnection Js.value) (m : Js.value) (o : bool) :
  ordered dc →
  (Peer.sent dc = [] → m = remoteReady) →
  m = remoteReady ∨ isCommandMessage m →
  ordered {| Peer.open := o; Peer.sent := (Peer.sent dc ++ [m])%list |}.
Proof.
  unfold ordered. cbn. destruct (Peer.sent dc) as [|first rest]; cbn.
  - intros _ Hm _. split; [by apply Hm|constructor].
  - intros [Hf Hr] _ Hm. split; [done|].
    apply Forall_app. split; [done|]. by constructor.
Qed.

Lemma protocolOrder_alter_close (c : Controller) (conn : nat) :
  protocolOrder c →
  protocolOrder (with_connections (alter Peer.close conn (connections c)) c).
Proof.
  intros Hinv j dc. cbn. rewrite lookup_alter.
  case_decide as Hj; [|apply Hinv].
  subst j. destruct (connections c !! conn) as [d|] eqn:Ed; [|done].
  intros [= <-]. split; [|done]. by apply (Hinv conn d).
Qed.

Lemma protocolOrder_connections (c c' : Controller) :
  connections c' = connections c → protocolOrder c → protocolOrder c'.
Proof. unfold protocolOrder. by intros ->. Qed.

Lemma protocolOrder_destroy (c : Controller) :
  protocolOrder c → protocolOrder (destroyConnection c).
Proof.
  intros Hinv. unfold destroyConnection.
  destruct (connectionRef c) as [conn|]; [|done].
  apply (protocolOrder_connections
           (with_connections (alter Peer.close conn (connections c)) c));
    [|by apply protocolOrder_alter_close].
  destruct (default false (Peer.open <$> connections c !! conn)); [|done].
  unfold onClose. cbn. by destruct (bool_decide _).
Qed.

Lemma protocolOrder_connect (sessionId : string) (c : Controller) :
  protocolOrder c → protocolOrder (connectToSession sessionId c).
Proof.
  intros Hinv. unfold connectToSession.
  destruct (negb (peerRef c) || String.eqb sessionId ""); [done|].
  apply protocolOrder_destroy in Hinv.
  intros j dc. cbn. rewrite lookup_insert.
  case_decide as Hj.
  - intros [= <-]. split; [exact I|done].
  - apply Hinv.
Qed.

Lemma protocolOrder_sendCommand (s : string) (v : Js.value) (c : Controller) :
  protocolOrder c → protocolOrder (sendCommand s v c).
Proof.
  intros Hinv. unfold sendCommand.
  destruct (connectionRef c) as [conn|]; [|done].
  destruct (connections c !! conn) as [dc|] eqn:Ed; [|done].
  destruct (Peer.open dc) eqn:Eo; [|done].
  destruct (Hinv conn dc Ed) as [Ho Hne].
  intros j d. cbn. rewrite lookup_insert.
  case_decide as Hj; [|apply Hinv].
  intros [= <-]. split.
  - apply ordered_snoc; [done|by intros ?%Hne|].
    right. by eexists _, _.
  - cbn. intros _ Hn. by apply app_eq_nil in Hn as [_ ?].
Qed.

Lemma protocolOrder_step (e : Event) (c : Controller) :
  protocolOrder c → protocolOrder (step e c).
Proof.
  intros Hinv. destruct e; cbn [step].
  - unfold onPeerOpen.
    destruct (String.eqb paramSessionId ""); [done|].
    by apply protocolOrder_connect.
  - done.
  - by apply protocolOrder_connect.
  - unfold onOpen. intros j dc. cbn. rewrite lookup_alter.
    case_decide as Hj; [|apply Hinv].
    subst j. destruct (connections c !! conn) as [d|] eqn:Ed; [|done].
    intros [= <-]. split.
    + apply ordered_snoc; [by apply (Hinv conn d)|done|by left].
    + cbn. intros _ Hn. by apply app_eq_nil in Hn as [_ ?].
  - unfold onData. destruct message as [[payload]|v]; done.
  - unfold onClose.
    apply (protocolOrder_connections
             (with_connections (alter Peer.close conn (connections c)) c)).
    + cbn. by destruct (bool_decide _).
    + by apply protocolOrder_alter_close.
  - unfold onError. apply (protocolOrder_connections c); [|done].
    cbn. by destruct (bool_decide _).
  - destruct cmd; by apply protocolOrder_sendCommand.
Qed.

Lemma protocolOrder_steps (es : list Event) (c : Controller) :
  protocolOrder c → protocolOrder (steps es c).
Proof.
  revert c. induction es as [|e es IH]; intros c Hc; [done|].
  cbn. by apply IH, protocolOrder_step.
Qed.

(** X6. On every connection the remote page ever makes, whatever the
    user presses and whatever the peer and the connections report, the
    first message handed to [send] is [remote-ready] and every later
    one is [remote-ready] or a command; a connection that is open has
    sent its [remote-ready]. *)
Theorem remote_ready_comes_first (paramSessionId : string) (es : list Event) :
  map_Forall
    (λ _ dc,
       match Peer.sent dc with
       | [] => Peer.open dc = false
       | first :: rest =>
           first = remoteReady
           ∧ Forall (λ m, m = remoteReady ∨ isCommandMessage m) rest
       end)
    (connections (steps es (init paramSessionId))).
Proof.
  assert (protocolOrder (init paramSessionId)) as Hinit by (by intros j dc).
  intros j dc Hj.
  destruct (protocolOrder_steps es _ Hinit j dc Hj) as [Ho Hne].
  unfold ordered in Ho. destruct (Peer.sent dc); [|done].
  destruct (Peer.open dc); [|done]. by destruct Hne.
Qed.

(** What [destroyConnection] leaves: the referenced connection closed,
    the reference empty, and the cached view cleared exactly when the
    connection was open, by its close handler. *)
Lemma destroyConnection_effect (c : Controller) :
  connectionRef (destroyConnection c) = None
  ∧ connections (destroyConnection c)
    = match connectionRef c with
      | Some conn => alter Peer.close conn (connections c)
      | None => connections c
      end
  ∧ hostState (destroyConnection c)
    = (if default false
            (Peer.open <$> (connectionRef c ≫= (connections c !!.)))
       then {| IpTv.channel := None;
               IpTv.player := IpTv.player (hostState c);
               IpTv.nav := {| IpTv.hasNext := false;
                              IpTv.hasPrev := false |} |}
       else hostState c)
  ∧ clientId (destroyConnection c) = clientId c
  ∧ targetSession (destroyConnection c) = targetSession c
  ∧ peerRef (destroyConnection c) = peerRef c.
Proof.
  unfold destroyConnection.
  destruct (connectionRef c) as [conn|] eqn:E; cbn; [|done].
  destruct (default false (Peer.open <$> connections c !! conn)); cbn;
    [|done].
  by destruct (bool_decide _).
Qed.

(** X7. [connectToSession] with a peer and a non-empty code supersedes
    what was there: the connection referenced before is closed, a new
    connection object (not yet open, nothing sent) becomes the
    referenced one, the status is [connecting] and every other
    connection object is untouched.  The cached view is kept when there
    was no connection or when it was not open yet; when it was open,
    [close()] runs its close handler, which clears the cached channel
    and both nav flags and keeps the player fields.  Without a peer or
    with an empty code [connectToSession] does nothing. *)
Theorem connect_supersedes (sessionId : string) (c : Controller) :
  let c' := connectToSession sessionId c in
  (peerRef c = false ∨ sessionId = "" → c' = c)
  ∧ (peerRef c = true → sessionId ≠ "" →
     ∃ conn,
       connectionRef c' = Some conn
       ∧ connections c !! conn = None
       ∧ connections c' !! conn
         = Some {| Peer.open := false; Peer.sent := [] |}
       ∧ connectionStatus c' = connecting
       ∧ clientId c' = clientId c
       ∧ targetSession c' = targetSession c
       ∧ (connectionRef c = None → hostState c' = hostState c)
       ∧ (∀ old dc, connectionRef c = Some old →
            connections c !! old = Some dc →
            connections c' !! old
            = Some {| Peer.open := false; Peer.sent := Peer.sent dc |}
            ∧ hostState c'
              = (if Peer.open dc
                 then {| IpTv.channel := None;
                         IpTv.player := IpTv.player (hostState c);
                         IpTv.nav := {| IpTv.hasNext := false;
                                        IpTv.hasPrev := false |} |}
                 else hostState c))
       ∧ (∀ j, j ≠ conn → connectionRef c ≠ Some j →
            connections c' !! j = connections c !! j)).
Proof.
  cbn zeta. unfold connectToSession. split.
  - intros [-> | ->]; [done|]. by rewrite orb_true_r.
  - intros -> Hne. apply String.eqb_neq in Hne. rewrite Hne. cbn.
    destruct (destroyConnection_effect c)
      as (Href & Hconns & Hview & Hid & Htarget & _).
    set (d := destroyConnection c) in *.
    assert (dom (connections d) = dom (connections c)) as Hdom.
    { rewrite Hconns. destruct (connectionRef c); [|done].
      apply dom_alter_L. }
    pose proof (is_fresh (dom (connections d))) as Hfresh.
    exists (fresh (dom (connections d))).
    split; [done|]. split.
    { apply not_elem_of_dom. by rewrite <- Hdom. }
    split; [by rewrite lookup_insert_eq|].
    split; [done|]. split; [done|]. split; [done|].
    split; [intros Hnone; by rewrite Hview, Hnone|].
    split.
    + intros old dc Hold Hdc.
      assert (old ≠ fresh (dom (connections d))) as Hn.
      { intros Heq. apply Hfresh. rewrite <- Heq, Hdom.
        by apply elem_of_dom_2 in Hdc. }
      rewrite lookup_insert_ne by done.
      rewrite Hconns, Hview, Hold. cbn.
      by rewrite lookup_alter_eq, Hdc.
    + intros j Hj Hnot. rewrite lookup_insert_ne by done.
      rewrite Hconns.
      destruct (connectionRef c) as [old|]; [|done].
      rewrite lookup_alter_ne; [done|]. by intros ->.
Qed.

(** On the route of session 0HRHL1: the page connects when its peer
    opens, the connection opens, a snapshot with a channel arrives, and
    the user then connects to another session. *)
Lemma connect_supersedes_witness :
  let c := onData (FromHost (IpTv.snapshot (IpTv.render IpTv.exampleHost)))
             (onOpen 0 (onPeerOpen "remote-1" "0HRHL1" (init "0HRHL1"))) in
  let c' := connectToSession "ZZ99ZZ" c in
  IpTv.channel (hostState c) = Some (IpTv.exampleChannel "b")
  ∧ IpTv.channel (hostState c') = None
  ∧ ∃ conn,
    connectionRef c' = Some conn
    ∧ connections c !! conn = None
    ∧ connections c' !! conn = Some {| Peer.open := false; Peer.sent := [] |}
    ∧ connectionStatus c' = connecting
    ∧ clientId c' = clientId c
    ∧ targetSession c' = targetSession c
    ∧ (connectionRef c = None → hostState c' = hostState c)
    ∧ (∀ old dc, connectionRef c = Some old →
         connections c !! old = Some dc →
         connections c' !! old
         = Some {| Peer.open := false; Peer.sent := Peer.sent dc |}
         ∧ hostState c'
           = (if Peer.open dc
              then {| IpTv.channel := None;
                      IpTv.player := IpTv.player (hostState c);
                      IpTv.nav := {| IpTv.hasNext := false;
                                     IpTv.hasPrev := false |} |}
              else hostState c))
    ∧ (∀ j, j ≠ conn → connectionRef c ≠ Some j →
         connections c' !! j = connections c !! j).
Proof.
  intros c c'.
  split; [reflexivity|]. split; [reflexivity|].
  apply (proj2 (connect_supersedes "ZZ99ZZ" c)); [reflexivity|discriminate].
Defined.

End ControllerMachineProperties.

(** ** More on channel navigation *)

Section NavigationMore.

Import IpTv Catalog.

Lemma anchor_url (sel : option Channel) (fc : list Channel) (n : nat) :
  anchorAt sel fc n → url <$> sel = url <$> fc !! n.
Proof. intros (ch & -> & Hs & _). by rewrite <- Hs. Qed.

(** With distinct urls, a channel of the view is its own anchor. *)
Lemma anchor_of_lookup (fc : list Channel) (n : nat) (ch : Channel) :
  NoDup (url <$> fc) → fc !! n = Some ch → anchorAt (Some ch) fc n.
Proof.
  intros Hnd Hn. exists ch. split; [done|]. split; [done|].
  intros j y Hj Hlt Hsame. unfold sameUrl in Hsame. cbn in Hsame.
  injection Hsame as Hu.
  assert (j = n); [|lia].
  eapply (NoDup_lookup _ _ _ _ Hnd); rewrite list_lookup_fmap.
  - by rewrite Hj.
  - by rewrite Hn, Hu.
Qed.

Lemma next_keeps_view (h : Host) :
  filteredChannels (next h) = filteredChannels h.
Proof.
  unfold next.
  by destruct (handleNextChannel_cases (render h) h) as [->|(ch & _ & ->)].
Qed.

Lemma prev_keeps_view (h : Host) :
  filteredChannels (prev h) = filteredChannels h.
Proof.
  unfold prev.
  by destruct (handlePrevChannel_cases (render h) h) as [->|(ch & _ & ->)].
Qed.

Lemma next_moves_anchor (h : Host) (n : nat) :
  uniqueUrls h →
  anchorAt (selectedChannel h) (filteredChannels h) n →
  anchorAt (selectedChannel (next h)) (filteredChannels h)
    (Nat.min (n + 1) (length (filteredChannels h) - 1)).
Proof.
  intros Hu Ha.
  assert (n < length (filteredChannels h))%nat as Hlt.
  { destruct Ha as (ch & Hn & _). by apply lookup_lt_Some in Hn. }
  rewrite (next_at_anchor h n Ha). case_decide as Hd.
  - replace (Nat.min _ _) with (n + 1)%nat by lia.
    destruct (lookup_lt_is_Some_2 (filteredChannels h) (n + 1)) as [ch Hch];
      [done|].
    rewrite Hch. cbn. by apply anchor_of_lookup.
  - by replace (Nat.min _ _) with n by lia.
Qed.

Lemma prev_moves_anchor (h : Host) (n : nat) :
  uniqueUrls h →
  anchorAt (selectedChannel h) (filteredChannels h) n →
  anchorAt (selectedChannel (prev h)) (filteredChannels h) (n - 1).
Proof.
  intros Hu Ha.
  assert (n < length (filteredChannels h))%nat as Hlt.
  { destruct Ha as (ch & Hn & _). by apply lookup_lt_Some in Hn. }
  rewrite (prev_at_anchor h n Ha). case_decide as Hd.
  - destruct (lookup_lt_is_Some_2 (filteredChannels h) (n - 1)) as [ch Hch];
      [lia|].
    rewrite Hch. cbn. by apply anchor_of_lookup.
  - by replace (n - 1)%nat with n by lia.
Qed.

Lemma iter_next_anchor (k : nat) (h : Host) (n : nat) :
  uniqueUrls h →
  anchorAt (selectedChannel h) (filteredChannels h) n →
  filteredChannels (Nat.iter k next h) = filteredChannels h
  ∧ anchorAt (selectedChannel (Nat.iter k next h)) (filteredChannels h)
      (Nat.min (n + k) (length (filteredChannels h) - 1)).
Proof.
  intros Hu Ha.
  assert (n < length (filteredChannels h))%nat as Hlt.
  { destruct Ha as (ch & Hn & _). by apply lookup_lt_Some in Hn. }
  induction k as [|k [IHv IHa]].
  - split; [done|]. cbn. by replace (Nat.min _ _) with n by lia.
  - rewrite Nat.iter_succ. split; [by rewrite next_keeps_view|].
    rewrite <- IHv in IHa.
    apply next_moves_anchor in IHa; [|unfold uniqueUrls; by rewrite IHv].
    rewrite IHv in IHa.
    by replace (Nat.min (n + S k) _)
      with (Nat.min (Nat.min (n + k) (length (filteredChannels h) - 1) + 1)
              (length (filteredChannels h) - 1)) by lia.
Qed.

Lemma iter_prev_anchor (k : nat) (h : Host) (n : nat) :
  uniqueUrls h →
  anchorAt (selectedChannel h) (filteredChannels h) n →
  filteredChannels (Nat.iter k prev h) = filteredChannels h
  ∧ anchorAt (selectedChannel (Nat.iter k prev h)) (filteredChannels h) (n - k).
Proof.
  intros Hu Ha.
  induction k as [|k [IHv IHa]].
  - split; [done|]. cbn. by replace (n - 0)%nat with n by lia.
  - rewrite Nat.iter_succ. split; [by rewrite prev_keeps_view|].
    rewrite <- IHv in IHa.
    apply prev_moves_anchor in IHa; [|unfold uniqueUrls; by rewrite IHv].
    rewrite IHv in IHa.
    by replace (n - S k)%nat with (n - k - 1)%nat by lia.
Qed.

(** X8. In a filtered view with pairwise distinct urls, pressing next
    [k] times from the channel at index [n] selects the channel at index
    [min (n + k) (last index)], and pressing prev [k] times selects the
    one at index [n - k], stopping at 0: repeated presses walk the view
    one channel at a time and stop at its ends.  (Channels are compared
    by url, as the code does.) *)
Theorem repeated_navigation (k : nat) (h : Host) (n : nat) :
  uniqueUrls h →
  anchorAt (selectedChannel h) (filteredChannels h) n →
  url <$> selectedChannel (Nat.iter k next h)
  = url <$> filteredChannels h
              !! Nat.min (n + k) (length (filteredChannels h) - 1)
  ∧ url <$> selectedChannel (Nat.iter k prev h)
    = url <$> filteredChannels h !! (n - k)%nat.
Proof.
  intros Hu Ha.
  destruct (iter_next_anchor k h n Hu Ha) as [_ Hn].
  destruct (iter_prev_anchor k h n Hu Ha) as [_ Hp].
  split; by apply anchor_url.
Qed.

Lemma exampleHost_unique : uniqueUrls exampleHost.
Proof.
  unfold uniqueUrls. apply (bool_decide_unpack _). by vm_compute.
Qed.

Lemma exampleHost_anchor :
  anchorAt (selectedChannel exampleHost) (filteredChannels exampleHost) 1.
Proof. apply (anchor_of_lookup _ 1 _ exampleHost_unique). reflexivity. Qed.

Lemma repeated_navigation_witness :
  url <$> selectedChannel (Nat.iter 5 next exampleHost) = Some "c"
  ∧ url <$> selectedChannel (Nat.iter 5 prev exampleHost) = Some "a".
Proof.
  exact (repeated_navigation 5 exampleHost 1
           exampleHost_unique exampleHost_anchor).
Defined.

(** X9. The guards of the next and prev buttons are exact, and a press
    never leaves the view: when [hasNext] is false a press changes
    nothing; when it is true the press selects a channel of the filtered
    view (never none), and with distinct urls a different one; a prev
    press then leads back to the channel the user came from.  The same
    holds with next and prev exchanged. *)
Theorem navigation_guards (h : Host) :
  (canNext h = false → next h = h)
  ∧ (canPrev h = false → prev h = h)
  ∧ (canNext h = true →
     (∃ ch, ch ∈ filteredChannels h ∧ selectedChannel (next h) = Some ch)
     ∧ (uniqueUrls h →
        url <$> selectedChannel (next h) ≠ url <$> selectedChannel h
        ∧ url <$> selectedChannel (prev (next h))
          = url <$> selectedChannel h))
  ∧ (canPrev h = true →
     (∃ ch, ch ∈ filteredChannels h ∧ selectedChannel (prev h) = Some ch)
     ∧ (uniqueUrls h →
        url <$> selectedChannel (prev h) ≠ url <$> selectedChannel h
        ∧ url <$> selectedChannel (next (prev h))
          = url <$> selectedChannel h)).
Proof.
  destruct (anchor_cases (selectedChannel h) (filteredChannels h))
    as [[n Ha]|Hno].
  - destruct (can_at_anchor h n Ha) as [-> ->].
    pose proof (next_at_anchor h n Ha) as Hnext.
    pose proof (prev_at_anchor h n Ha) as Hprev.
    assert (n < length (filteredChannels h))%nat as Hlt.
    { destruct Ha as (ch & Hn & _). by apply lookup_lt_Some in Hn. }
    assert (∀ i j, uniqueUrls h → i ≠ j →
              (i < length (filteredChannels h))%nat →
              url <$> filteredChannels h !! i
              ≠ url <$> filteredChannels h !! j) as Hdiff.
    { intros i j Hu Hij Hi Heq.
      destruct (lookup_lt_is_Some_2 (filteredChannels h) i Hi) as [x Hx].
      rewrite Hx in Heq. cbn in Heq.
      apply Hij. eapply (NoDup_lookup _ _ _ _ Hu);
        rewrite list_lookup_fmap; [by rewrite Hx|].
      by rewrite <- Heq. }
    split; [|split; [|split]].
    + intros Hf%bool_decide_eq_false. rewrite Hnext. by rewrite decide_False.
    + intros Hf%bool_decide_eq_false. rewrite Hprev. by rewrite decide_False.
    + intros Ht%bool_decide_eq_true. rewrite Hnext.
      rewrite decide_True by done.
      destruct (lookup_lt_is_Some_2 (filteredChannels h) (n + 1) Ht)
        as [ch Hch].
      rewrite Hch. cbn. split.
      { exists ch. split; [by eapply list_elem_of_lookup_2|done]. }
      intros Hu. rewrite (anchor_url _ _ _ Ha). split.
      * change (Some (url ch)) with (url <$> Some ch). rewrite <- Hch.
        apply Hdiff; [done|lia|lia].
      * pose proof (anchor_of_lookup _ _ _ Hu Hch) as Ha'.
        rewrite (prev_at_anchor (setSelectedChannel (Some ch) h) (n + 1) Ha').
        rewrite decide_True by lia. cbn.
        by replace (n + 1 - 1)%nat with n by lia.
    + intros Ht%bool_decide_eq_true. rewrite Hprev.
      rewrite decide_True by done.
      destruct (lookup_lt_is_Some_2 (filteredChannels h) (n - 1)) as [ch Hch];
        [lia|].
      rewrite Hch. cbn. split.
      { exists ch. split; [by eapply list_elem_of_lookup_2|done]. }
      intros Hu. rewrite (anchor_url _ _ _ Ha). split.
      * change (Some (url ch)) with (url <$> Some ch). rewrite <- Hch.
        apply Hdiff; [done|lia|lia].
      * pose proof (anchor_of_lookup _ _ _ Hu Hch) as Ha'.
        rewrite (next_at_anchor (setSelectedChannel (Some ch) h) (n - 1) Ha').
        rewrite setSelectedChannel_filtered.
        rewrite decide_True by lia. cbn.
        by replace (n - 1 + 1)%nat with n by lia.
  - destruct (nav_absent h Hno) as (Hn & Hp & -> & ->). done.
Qed.

Lemma navigation_guards_witness :
  url <$> selectedChannel (next exampleHost)
  ≠ url <$> selectedChannel exampleHost
  ∧ url <$> selectedChannel (prev (next exampleHost))
    = url <$> selectedChannel exampleHost.
Proof.
  exact (proj2 (proj1 (proj2 (proj2 (navigation_guards exampleHost))) eq_refl)
           exampleHost_unique).
Defined.

End NavigationMore.

(** ** Filters and categories *)

Section CatalogProperties.

Import IpTv Catalog.

Lemma lower_upper_char (c : ascii) :
  Str.lower_char (Str.upper_char c) = Str.lower_char c.
Proof. destruct c as [[] [] [] [] [] [] [] []]; reflexivity. Qed.

Lemma lower_lower_char (c : ascii) :
  Str.lower_char (Str.lower_char c) = Str.lower_char c.
Proof. destruct c as [[] [] [] [] [] [] [] []]; reflexivity. Qed.

Lemma toLowerCase_upper (s : string) :
  Str.toLowerCase (Str.toUpperCase s) = Str.toLowerCase s.
Proof.
  unfold Str.toLowerCase, Str.toUpperCase.
  induction s as [|c s IH]; cbn; [done|]. by rewrite lower_upper_char, IH.
Qed.

Lemma toLowerCase_lower (s : string) :
  Str.toLowerCase (Str.toLowerCase s) = Str.toLowerCase s.
Proof.
  unfold Str.toLowerCase.
  induction s as [|c s IH]; cbn; [done|]. by rewrite lower_lower_char, IH.
Qed.

Lemma includes_empty (s : string) : Str.includes s "" = true.
Proof. by destruct s. Qed.

Lemma filter_sublist {A} (f : A → bool) (l : list A) :
  List.filter f l `sublist_of` l.
Proof.
  induction l as [|x l IH]; cbn; [constructor|].
  destruct (f x); by constructor.
Qed.

(** [includes] finds exactly the substrings. *)
Lemma prefix_spec (t s : string) :
  String.prefix t s = true ↔ ∃ post, s = t +:+ post.
Proof.
  revert s. induction t as [|x t IH]; intros s.
  - split; [intros _; by exists s|by destruct s].
  - destruct s as [|c s]; cbn [String.prefix].
    + split; [done|]. by intros [post ?].
    + destruct (ascii_dec x c) as [->|Hne].
      * rewrite IH. split; intros [post E]; exists post.
        -- by rewrite E.
        -- by injection E.
      * split; [done|]. intros [post E]. by injection E.
Qed.

Lemma includes_spec (s t : string) :
  Str.includes s t = true ↔ ∃ pre post, s = pre +:+ t +:+ post.
Proof.
  induction s as [|c s IH]; cbn [Str.includes].
  - rewrite orb_false_r, prefix_spec. split.
    + intros [post E]. by exists "", post.
    + intros (pre & post & E). destruct pre as [|x pre]; [by exists post|done].
  - rewrite orb_true_iff, prefix_spec, IH. split.
    + intros [[post E]|(pre & post & E)].
      * by exists "", post.
      * exists (String c pre), post. by rewrite E.
    + intros (pre & post & E). destruct pre as [|x pre].
      * left. by exists post.
      * right. exists pre, post. by injection E.
Qed.

(** X10. The filtered view is a subsequence of the channel list (same
    order, nothing added); with an empty search and the category All it
    is the whole list; a filter change never changes the selection.
    For an ASCII search term and ASCII channel names: a channel is in
    the view exactly when it is in the list, its lower-cased name
    contains the lower-cased term, and the category is All or its
    group; so the search ignores the case of the term, and a term and
    its upper-case or lower-case form give the same view. *)
Theorem filtered_view (search category : string) (h : Host) :
  filteredChannels (withFilter search category h) `sublist_of` channels h
  ∧ filteredChannels (withFilter "" "All" h) = channels h
  ∧ selectedChannel (withFilter search category h) = selectedChannel h
  ∧ (Str.isAscii search →
     Forall (λ ch, Str.isAscii (name ch)) (channels h) →
     (∀ ch, ch ∈ filteredChannels (withFilter search category h)
            ↔ ch ∈ channels h
              ∧ (∃ pre post, Str.toLowerCase (name ch)
                             = pre +:+ Str.toLowerCase search +:+ post)
              ∧ (category = "All" ∨ group ch = category))
     ∧ filteredChannels (withFilter (Str.toUpperCase search) category h)
       = filteredChannels (withFilter search category h)
     ∧ filteredChannels (withFilter (Str.toLowerCase search) category h)
       = filteredChannels (withFilter search category h)).
Proof.
  unfold filteredChannels. cbn.
  split; [apply filter_sublist|]. split; [|split; [done|]].
  - induction (channels h) as [|ch l IH]; cbn; [done|].
    unfold matches at 1. rewrite includes_empty. cbn. by rewrite IH.
  - intros _ _. split; [|by rewrite toLowerCase_upper, toLowerCase_lower].
    intros ch. rewrite list_elem_of_In, filter_In, <- list_elem_of_In.
    unfold matches. rewrite andb_true_iff, orb_true_iff, includes_spec.
    by rewrite !String.eqb_eq.
Qed.

(** The example host, whose channels are named a, b and c, searched
    for B. *)
Lemma filtered_view_witness :
  filteredChannels (withFilter "B" "All" exampleHost) = [exampleChannel "b"]
  ∧ (∀ ch, ch ∈ filteredChannels (withFilter "B" "All" exampleHost)
           ↔ ch ∈ channels exampleHost
             ∧ (∃ pre post, Str.toLowerCase (name ch)
                            = pre +:+ Str.toLowerCase "B" +:+ post)
             ∧ ("All" = "All" ∨ group ch = "All"))
  ∧ filteredChannels (withFilter (Str.toUpperCase "B") "All" exampleHost)
    = filteredChannels (withFilter "B" "All" exampleHost)
  ∧ filteredChannels (withFilter (Str.toLowerCase "B") "All" exampleHost)
    = filteredChannels (withFilter "B" "All" exampleHost).
Proof.
  split; [reflexivity|].
  apply (proj2 (proj2 (proj2 (filtered_view "B" "All" exampleHost)))).
  - by repeat constructor.
  - by repeat constructor.
Defined.

Lemma uniq_spec (l acc : list string) :
  NoDup acc →
  let r := foldl (λ (acc : list string) x,
                    if decide (x ∈ acc) then acc else (acc ++ [x])%list)
             acc l in
  NoDup r ∧ ∀ x, x ∈ r ↔ x ∈ acc ∨ x ∈ l.
Proof.
  revert acc. induction l as [|y l IH]; intros acc Hnd; cbn.
  - split; [done|]. intros x. rewrite elem_of_nil. tauto.
  - case_decide as Hy.
    + destruct (IH acc Hnd) as [Hr Hin]. split; [done|].
      intros x. rewrite Hin, elem_of_cons.
      split; [tauto|]. intros [?|[->|?]]; tauto.
    + assert (NoDup (acc ++ [y])) as Hnd'.
      { apply NoDup_app. split; [done|]. split; [|apply NoDup_singleton].
        by intros x Hx ->%list_elem_of_singleton. }
      destruct (IH _ Hnd') as [Hr Hin]. split; [done|].
      intros x. rewrite Hin, elem_of_app, list_elem_of_singleton, elem_of_cons.
      tauto.
Qed.

(** X11. The category list starts with All, lists each category once
    after it, and never lists the empty string.  A channel with a
    non-empty group has its group in the list and is shown when that
    category is chosen (with an empty search).  A channel whose group is
    empty is counted under Other in the list but is shown under no
    category except All, because the filter compares the group itself. *)
Theorem categories_and_filter (h : Host) (ch : Channel) :
  ch ∈ channels h →
  (∃ rest, categories h = "All" :: rest
           ∧ NoDup rest
           ∧ (∀ c, c ∈ rest ↔ ∃ x, x ∈ channels h ∧ c = categoryOf x)
           ∧ "" ∉ rest)
  ∧ (group ch ≠ "" →
     group ch ∈ categories h
     ∧ ch ∈ filteredChannels (withFilter "" (group ch) h))
  ∧ (group ch = "" →
     "Other" ∈ categories h
     ∧ ∀ search c, c ∈ categories h → c ≠ "All" →
                   ch ∉ filteredChannels (withFilter search c h)).
Proof.
  intros Hch. unfold categories, uniq.
  destruct (uniq_spec (categoryOf <$> channels h) [] (NoDup_nil_2))
    as [Hnd Hin].
  cbn zeta in Hnd, Hin. set (rest := foldl _ [] _) in *.
  assert (∀ c, c ∈ rest ↔ ∃ x, x ∈ channels h ∧ c = categoryOf x) as Hrest.
  { intros c. rewrite Hin, elem_of_nil, list_elem_of_fmap.
    split; [intros [[]|(y & ? & ?)]; eauto|intros (x & ? & ?); right; eauto]. }
  assert ("" ∉ rest) as Hempty.
  { intros (x & _ & Hx)%Hrest. unfold categoryOf in Hx.
    destruct (String.eqb_spec (group x) ""); [done|]. by symmetry in Hx. }
  split; [by exists rest|]. split.
  - intros Hg. split.
    + apply elem_of_cons. right. apply Hrest. exists ch. split; [done|].
      unfold categoryOf. by apply String.eqb_neq in Hg as ->.
    + unfold filteredChannels. cbn. apply list_elem_of_In, filter_In.
      split; [by apply list_elem_of_In|].
      unfold matches. rewrite includes_empty, String.eqb_refl.
      by rewrite orb_true_r.
  - intros Hg. split.
    + apply elem_of_cons. right. apply Hrest. exists ch. split; [done|].
      unfold categoryOf. by rewrite Hg.
    + intros search c [->|Hc]%elem_of_cons Hall; [done|].
      unfold filteredChannels. cbn.
      intros [_ Hm]%list_elem_of_In%filter_In.
      unfold matches in Hm. rewrite Hg in Hm.
      apply String.eqb_neq in Hall. rewrite Hall in Hm.
      assert (String.eqb "" c = false) as Hc'.
      { apply String.eqb_neq. intros <-. done. }
      rewrite Hc' in Hm. by rewrite andb_false_r in Hm.
Qed.

Lemma categories_and_filter_witness :
  let ch := {| name := "Quiet"; url := "q"; logo := None; group := "" |} in
  let h := setChannels [exampleChannel "a"; ch] exampleHost in
  "Other" ∈ categories h
  ∧ ∀ search c, c ∈ categories h → c ≠ "All" →
                ch ∉ filteredChannels (withFilter search c h).
Proof.
  intros ch h.
  apply (proj2 (proj2 (categories_and_filter h ch
                         (list_elem_of_further _ _ _ (list_elem_of_here _ _))))).
  reflexivity.
Defined.

End CatalogProperties.

(** ** More on the player *)

Section PlayerMachineProperties.

Import Player PlayerMachine.

Lemma setVolumeLevel_written (x : Js.number) (video : Video.t) (w w' : World) :
  videoRef w = Some video →
  setVolumeLevel x w = Normal w' →
  ∃ c, Js.min Js.one (Js.max Js.zero x) = Js.Fin c
       ∧ (0 <= c)%Q ∧ (c <= 1)%Q
       ∧ w' = {| state := setIsMuted (Qeq_bool c 0)
                            (setVolume (Js.Fin c) (state w));
                 videoRef := Some (Video.mk (Qeq_bool c 0) (Js.Fin c)
                                     (Video.paused video)
                                     (Video.currentTime video)
                                     (Video.duration video) (Video.src video)
                                     (Video.playAllowed video));
                 hls := hls w; effectLive := effectLive w |}.
Proof.
  intros Hv. unfold setVolumeLevel. rewrite Hv.
  destruct (Js.min Js.one (Js.max Js.zero x)) as [c| | |] eqn:Ec;
    try (cbn; discriminate).
  unfold Video.set_volume.
  destruct (Qle_bool 0 c) eqn:E0; [|cbn; discriminate].
  destruct (Qle_bool c 1) eqn:E1; [|cbn; discriminate].
  cbn. intros [= <-]. exists c.
  apply Qle_bool_iff in E0, E1. done.
Qed.

Lemma setVolumeLevel_real (q : Q) (video : Video.t) (w : World) :
  videoRef w = Some video →
  ∃ w', setVolumeLevel (Js.Fin q) w = Normal w'.
Proof.
  intros Hv. unfold setVolumeLevel. rewrite Hv.
  destruct (clamped_finite q) as (c & -> & _ & H0 & H1).
  rewrite (set_volume_in_range c video H0 H1). cbn. by eexists.
Qed.

(** The element's volume stays in range, whatever happens. *)
Lemma range_step (a : Action) (w : World) (video : Video.t) :
  keepsSource a →
  videoRef w = Some video → inRange (Video.volume video) →
  ∃ video', videoRef (step a w) = Some video' ∧ inRange (Video.volume video').
Proof.
  intros Hsrc Hv Hr. unfold step.
  destruct (run a w) as [w'|] eqn:E; [|by exists video].
  destruct a; cbn in E;
    unfold whenLive, togglePlayPause, stopPlayback, handlePlay, handlePause,
      handleWaiting, handleCanPlay, handleTimeUpdate, handleLoadedMetadata,
      handleVolumeChangeEvent, handleError, onManifestParsed, tick,
      Video.play in E;
    try (rewrite ?Hv in E;
         repeat (match type of E with
                 | context [if ?b then _ else _] => destruct b
                 end);
         injection E as <-; cbn; rewrite ?Hv; by eexists).
  - destruct (setVolumeLevel_written _ _ _ _ Hv E) as (c & _ & ? & ? & ->).
    by eexists.
  - destruct (setVolumeLevel_written _ _ _ _ Hv E) as (c & _ & ? & ? & ->).
    by eexists.
  - destruct (setVolumeLevel_written _ _ _ _ Hv E) as (c & _ & ? & ? & ->).
    by eexists.
  - destruct (toggleMute_normal video w Hv) as (w1 & E1 & _ & V1 & _).
    rewrite E1 in E. injection E as <-. rewrite V1. eexists. split; [done|].
    cbn. destruct (Video.muted video && _); [|done]. cbn. split; discriminate.
  - unfold onHlsError in E.
    destruct (effectLive w), (hls w), (Hls.fatal data), (Hls.type data);
      injection E as <-; cbn; rewrite Hv; by eexists.
  - injection E as <-. cbn in Hsrc.
    unfold changeSrc, srcEffect, commit, srcCleanup. rewrite Hsrc.
    destruct src as [url|]; [|done].
    destruct (effectLive w); cbn; rewrite ?Hv; cbn; rewrite ?Hsrc, ?Hv;
      destruct sup; cbn; rewrite ?Hv; cbn; by eexists.
Qed.

Lemma coherent_step (a : Action) (w : World) :
  keepsSource a → coherent w → videoRef w ≠ None →
  coherent (step a w) ∧ videoRef (step a w) ≠ None.
Proof.
  intros Hsrc Hc Hv. unfold step.
  destruct (run a w) as [w'|] eqn:E; [|done].
  apply (coherent_run a w w' Hc Hv); [|done].
  intros sup src ->. exact Hsrc.
Qed.

Lemma mirror_steps (l : list Action) (w : World) (video : Video.t) :
  Forall keepsSource l →
  coherent w → videoRef w = Some video → inRange (Video.volume video) →
  coherent (steps l w)
  ∧ ∃ video', videoRef (steps l w) = Some video'
              ∧ inRange (Video.volume video').
Proof.
  revert w video. induction l as [|a l IH]; intros w video Hl Hc Hv Hr.
  - split; [done|]. by exists video.
  - apply Forall_cons in Hl as [Ha Hl]. cbn.
    destruct (range_step a w video Ha Hv Hr) as (v1 & Hv1 & Hr1).
    destruct (coherent_step a w Ha Hc) as [Hc1 _]; [by rewrite Hv|].
    by apply (IH _ v1).
Qed.

(** X12. However many commands and events follow the mount, as long as
    a channel stays selected: the element's volume is a number in
    [0, 1], the stored [volume] equals it, and whenever it is not 0 the
    stored [isMuted] equals the element's mute flag.  Commands that end
    with an exception are included: they change nothing. *)
Theorem volume_mirrors_element (l : list Action) :
  Forall keepsSource l →
  ∃ video q,
    videoRef (steps l mounted) = Some video
    ∧ Video.volume video = Js.Fin q
    ∧ (0 <= q)%Q ∧ (q <= 1)%Q
    ∧ volume (state (steps l mounted)) = Js.Fin q
    ∧ (¬ (q == 0)%Q →
       isMuted (state (steps l mounted)) = Video.muted video).
Proof.
  intros Hl.
  destruct (mirror_steps l mounted Video.fresh Hl coherent_mounted eq_refl)
    as (Hc & video & Hv & Hr); [split; discriminate|].
  unfold coherent in Hc. rewrite Hv in Hc. destruct Hc as [Hvol Hmut].
  destruct (Video.volume video) as [q| | |] eqn:Eq; try done.
  exists video, q. destruct Hr as [H0 H1].
  repeat split; try done.
  intros Hq. apply Hmut. cbn.
  destruct (Qeq_bool q 0) eqn:E; [|done]. by apply Qeq_bool_iff in E.
Qed.

Lemma volume_mirrors_element_witness :
  ∃ video q,
    videoRef (steps [ChangeSrc HlsJs (Some "a"); SetVolume Js.NaN;
                     SetVolume (Js.Fin (7 # 2)); ToggleMute; VolumeDown]
                mounted) = Some video
    ∧ Video.volume video = Js.Fin q
    ∧ (0 <= q)%Q ∧ (q <= 1)%Q
    ∧ volume (state (steps [ChangeSrc HlsJs (Some "a"); SetVolume Js.NaN;
                            SetVolume (Js.Fin (7 # 2)); ToggleMute; VolumeDown]
                       mounted)) = Js.Fin q
    ∧ (¬ (q == 0)%Q →
       isMuted (state (steps [ChangeSrc HlsJs (Some "a"); SetVolume Js.NaN;
                              SetVolume (Js.Fin (7 # 2)); ToggleMute;
                              VolumeDown] mounted))
       = Video.muted video).
Proof.
  apply (volume_mirrors_element
           [ChangeSrc HlsJs (Some "a"); SetVolume Js.NaN;
            SetVolume (Js.Fin (7 # 2)); ToggleMute; VolumeDown]).
  repeat constructor.
Defined.

(** X13. Volume writes do not accumulate: with the element mounted,
    [setVolume(v)] after [setVolume(u)] gives the world [setVolume(v)]
    alone gives (the last write wins, whatever was muted before), and
    repeating [setVolume(v)] changes nothing. *)
Theorem setVolume_last_write_wins (u v : Q) (video : Video.t) (w : World) :
  videoRef w = Some video →
  ∃ w1 w2,
    setVolumeLevel (Js.Fin u) w = Normal w1
    ∧ setVolumeLevel (Js.Fin v) w = Normal w2
    ∧ setVolumeLevel (Js.Fin v) w1 = Normal w2
    ∧ setVolumeLevel (Js.Fin v) w2 = Normal w2.
Proof.
  intros Hv.
  destruct (setVolumeLevel_real u video w Hv) as [w1 E1].
  destruct (setVolumeLevel_real v video w Hv) as [w2 E2].
  destruct (setVolumeLevel_written _ _ _ _ Hv E1) as (c1 & _ & _ & _ & Hw1).
  destruct (setVolumeLevel_written _ _ _ _ Hv E2) as (c2 & Ec2 & _ & _ & Hw2).
  assert (∀ w0 video0 c0,
            w0 = {| state := setIsMuted (Qeq_bool c0 0)
                               (setVolume (Js.Fin c0) (state w));
                    videoRef := Some (Video.mk (Qeq_bool c0 0) (Js.Fin c0)
                                        (Video.paused video)
                                        (Video.currentTime video)
                                        (Video.duration video)
                                        (Video.src video)
                                        (Video.playAllowed video));
                    hls := hls w; effectLive := effectLive w |} →
            videoRef w0 = Some video0 →
            setVolumeLevel (Js.Fin v) w0 = Normal w2) as Hagain.
  { intros w0 video0 c0 Hw0 Hv0.
    destruct (setVolumeLevel_real v video0 w0 Hv0) as [w3 E3].
    destruct (setVolumeLevel_written _ _ _ _ Hv0 E3) as (c3 & Ec3 & _ & _ & Hw3).
    rewrite Ec2 in Ec3. injection Ec3 as <-.
    rewrite E3, Hw3, Hw2. f_equal. rewrite Hw0 in Hv0 |- *. cbn in Hv0.
    injection Hv0 as <-. reflexivity. }
  exists w1, w2. split; [exact E1|]. split; [exact E2|]. split.
  - eapply Hagain; [exact Hw1|]. by rewrite Hw1.
  - eapply Hagain; [exact Hw2|]. by rewrite Hw2.
Qed.

Lemma setVolume_last_write_wins_witness :
  ∃ w1 w2,
    setVolumeLevel (Js.Fin 0) mounted = Normal w1
    ∧ setVolumeLevel (Js.Fin (3 # 4)) mounted = Normal w2
    ∧ setVolumeLevel (Js.Fin (3 # 4)) w1 = Normal w2
    ∧ setVolumeLevel (Js.Fin (3 # 4)) w2 = Normal w2.
Proof.
  exact (setVolume_last_write_wins 0 (3 # 4) Video.fresh mounted eq_refl).
Defined.

(** X14. The player's own volume commands cause no echo: after
    [setVolume], [volumeUp], [volumeDown] or [toggleMute] on a world
    whose stored volume equals the element's, the [volumechange]
    listener, which re-reads the element, leaves the world exactly as
    the command left it. *)
Theorem volumechange_echo (a : Action) (video : Video.t) (w w' : World) :
  (a = ToggleMute ∨ a = VolumeUp ∨ a = VolumeDown ∨ ∃ x, a = SetVolume x) →
  videoRef w = Some video →
  volume (state w) = Video.volume video →
  run a w = Normal w' →
  handleVolumeChangeEvent w' = w'.
Proof.
  intros Ha Hv Hm E.
  assert (∀ x, setVolumeLevel x w = Normal w' →
               handleVolumeChangeEvent w' = w') as Hset.
  { intros x Ex.
    destruct (setVolumeLevel_written _ _ _ _ Hv Ex) as (c & _ & _ & _ & ->).
    unfold handleVolumeChangeEvent. cbn. by rewrite orb_diag. }
  destruct Ha as [->|[->|[->|[x ->]]]]; cbn in E; try by eapply Hset.
  destruct (toggleMute_normal video w Hv) as (w1 & E1 & M1 & V1 & S1).
  rewrite E1 in E. injection E as <-.
  unfold handleVolumeChangeEvent. rewrite V1. cbn.
  destruct w1 as [s1 v1 h1 l1]. cbn in *. subst v1.
  destruct s1 as [p1 lo1 e1 ct1 d1 vol1 mu1]. cbn in *. subst mu1 vol1.
  rewrite Hm. unfold with_state. cbn. f_equal. unfold setIsMuted, setVolume.
  cbn. f_equal.
  destruct (Video.muted video); cbn; [|done].
  destruct (Js.strict_eq (Video.volume video) Js.zero) eqn:Ez; [done|].
  by rewrite Ez.
Qed.

Lemma volumechange_echo_witness :
  handleVolumeChangeEvent
    {| state := setIsMuted true (setVolume Js.zero (state mounted));
       videoRef := Some (Video.mk true Js.zero true Js.zero Js.NaN None true);
       hls := None; effectLive := false |}
  = {| state := setIsMuted true (setVolume Js.zero (state mounted));
       videoRef := Some (Video.mk true Js.zero true Js.zero Js.NaN None true);
       hls := None; effectLive := false |}.
Proof.
  apply (volumechange_echo (SetVolume (Js.Fin (-1))) Video.fresh mounted).
  - right. right. right. by eexists.
  - reflexivity.
  - reflexivity.
  - reflexivity.
Defined.

(** X15. [stop()] pauses the element, rewinds it to 0 and stores
    [isPlaying = false]; it never touches volume, mute, error or
    loading; a second stop changes nothing; the next [timeupdate]
    stores position 0.  Without an element it does nothing. *)
Theorem stop_rewinds (w : World) :
  stopPlayback (stopPlayback w) = stopPlayback w
  ∧ (videoRef w = None → stopPlayback w = w)
  ∧ (∀ video, videoRef w = Some video →
       videoRef (stopPlayback w)
       = Some (Video.mk (Video.muted video) (Video.volume video) true
                 Js.zero (Video.duration video) (Video.src video)
                 (Video.playAllowed video))
       ∧ isPlaying (state (stopPlayback w)) = false
       ∧ currentTime (state (handleTimeUpdate (stopPlayback w))) = Js.zero)
  ∧ volume (state (stopPlayback w)) = volume (state w)
  ∧ isMuted (state (stopPlayback w)) = isMuted (state w)
  ∧ error (state (stopPlayback w)) = error (state w)
  ∧ isLoading (state (stopPlayback w)) = isLoading (state w)
  ∧ hls (stopPlayback w) = hls w.
Proof.
  unfold stopPlayback, handleTimeUpdate.
  destruct (videoRef w) as [video|] eqn:Ev; cbn; rewrite ?Ev;
    repeat split; try done; by simplify_eq.
Qed.

(** *** Rounding to a double *)

(** Below 2 the unit of a double is at most [2^-52]. *)
Lemma floor_log2_small (a : Q) :
  (0 <= a)%Q → (a < 2)%Q → (Js.floor_log2 a ≤ 0)%Z.
Proof.
  intros H0 H2. unfold Js.floor_log2.
  destruct a as [n d]. cbn [Qnum Qden].
  assert (0 ≤ n)%Z as Hn.
  { unfold Qle in H0. cbn in H0. lia. }
  assert (n < 2 * Z.pos d)%Z as Hnd.
  { unfold Qlt in H2. cbn in H2. lia. }
  assert (Z.log2 n ≤ Z.log2 (Z.pos d) + 1)%Z as Hlog.
  { pose proof (Z.log2_le_mono n (2 * Z.pos d)) as Hm.
    rewrite Z.log2_double in Hm by lia. lia. }
  set (k := (Z.log2 n - Z.log2 (Z.pos d))%Z) in *.
  destruct (Qle_bool (2 ^ k) (n # d)) eqn:E; [|lia].
  apply Qle_bool_iff in E.
  destruct (Z.eq_dec k 1%Z) as [Hk|Hk]; [|lia].
  rewrite Hk in E. exfalso. apply (Qlt_not_le _ _ H2). exact E.
Qed.

(** The rounded integer is within one half of the real. *)
Lemma round_half_even_near (y : Q) :
  (inject_Z (Js.round_half_even y) - y <= 1 # 2)%Q
  ∧ (y - inject_Z (Js.round_half_even y) <= 1 # 2)%Q.
Proof.
  unfold Js.round_half_even.
  pose proof (Qfloor_le y) as Hlo.
  pose proof (Qlt_floor y) as Hhi.
  rewrite inject_Z_plus in Hhi. change (inject_Z 1) with 1%Q in Hhi.
  destruct (y - inject_Z (Qfloor y) ?= 1 # 2)%Q eqn:E.
  - apply Qeq_alt in E.
    destruct (Z.even (Qfloor y)); rewrite ?inject_Z_plus;
      change (inject_Z 1) with 1%Q; split; lra.
  - apply Qlt_alt in E. split; lra.
  - apply Qgt_alt in E. rewrite inject_Z_plus.
    change (inject_Z 1) with 1%Q. split; lra.
Qed.

(** Rounding never crosses an integer. *)
Lemma round_half_even_ge (N : Z) (y : Q) :
  (inject_Z N <= y)%Q → (N ≤ Js.round_half_even y)%Z.
Proof.
  intros H.
  assert (N ≤ Qfloor y)%Z as Hf.
  { rewrite <- (Qfloor_Z N). by apply Qfloor_resp_le. }
  unfold Js.round_half_even.
  destruct (y - inject_Z (Qfloor y) ?= 1 # 2)%Q; [destruct (Z.even _)| |]; lia.
Qed.

Lemma round_half_even_le (N : Z) (y : Q) :
  (y <= inject_Z N)%Q → (Js.round_half_even y ≤ N)%Z.
Proof.
  intros H.
  assert (Qfloor y ≤ N)%Z as Hf.
  { rewrite <- (Qfloor_Z N). by apply Qfloor_resp_le. }
  unfold Js.round_half_even.
  destruct (y - inject_Z (Qfloor y) ?= 1 # 2)%Q eqn:E.
  - destruct (Z.even _); [done|].
    apply Qeq_alt in E.
    destruct (Z.eq_dec (Qfloor y) N) as [Heq|]; [|lia].
    rewrite Heq in E. lra.
  - done.
  - apply Qgt_alt in E.
    destruct (Z.eq_dec (Qfloor y) N) as [Heq|]; [|lia].
    rewrite Heq in E. lra.
Qed.

(** Between -2 and 2 rounding is finite, moves a real by at most
    [2^-53] and crosses neither 0 nor 1. *)
Lemma round64_near (x : Q) :
  (-2 < x)%Q → (x < 2)%Q →
  ∃ c, Js.round64 x = Js.Fin c
       ∧ (x - (1 # 2 ^ 53) <= c)%Q ∧ (c <= x + (1 # 2 ^ 53))%Q
       ∧ ((1 <= x)%Q → (1 <= c)%Q)
       ∧ ((x <= 0)%Q → (c <= 0)%Q)
       ∧ ((0 <= x)%Q → (0 <= c)%Q).
Proof.
  intros Hlo Hhi. unfold Js.round64.
  set (a := Qabs x).
  assert (0 <= a)%Q as Ha0 by apply Qabs_nonneg.
  assert (a < 2)%Q as Ha2.
  { unfold a. apply Qabs_case; intros; lra. }
  set (e := Z.max (Js.floor_log2 a - 52) (-1074)).
  assert (e ≤ -52)%Z as He.
  { pose proof (floor_log2_small a Ha0 Ha2). lia. }
  set (p := (2 ^ e)%Q).
  assert (0 < p)%Q as Hp by (by apply Qpower_0_lt).
  assert (p <= 1 # 2 ^ 52)%Q as Hp52.
  { change (1 # 2 ^ 52)%Q with (2 ^ (-52))%Q.
    by apply Qpower_le_compat_l. }
  set (y := (a / p)%Q).
  assert (y * p == a)%Q as Hy.
  { unfold y. field. lra. }
  set (m := Js.round_half_even y).
  destruct (round_half_even_near y) as [Hm1 Hm2]. fold m in Hm1, Hm2.
  assert (0 ≤ m)%Z as Hm0.
  { apply round_half_even_ge. unfold y.
    apply Qle_shift_div_l; [done|]. change (inject_Z 0) with 0%Q. lra. }
  set (r := (inject_Z m * p)%Q).
  assert ((1 # 2 ^ 53) == (1 # 2) * (1 # 2 ^ 52))%Q as Hhalf by reflexivity.
  assert (0 < (1 # 2 ^ 53))%Q as Hs0 by reflexivity.
  pose proof (Qmult_le_compat_r _ _ p Hm1 (Qlt_le_weak _ _ Hp)) as Hr1.
  pose proof (Qmult_le_compat_r _ _ p Hm2 (Qlt_le_weak _ _ Hp)) as Hr2.
  fold r in Hr1, Hr2.
  assert (r - a <= 1 # 2 ^ 53)%Q as Hr1' by (unfold r in *; lra).
  assert (a - r <= 1 # 2 ^ 53)%Q as Hr2' by (unfold r in *; lra).
  assert (0 <= r)%Q as Hr0.
  { unfold r. apply Qmult_le_0_compat; [|lra].
    change 0%Q with (inject_Z 0). by rewrite <- Zle_Qle. }
  assert (Qle_bool (2 ^ 1024) r = false) as Hov.
  { destruct (Qle_bool (2 ^ 1024) r) eqn:E; [|done].
    apply Qle_bool_iff in E. exfalso.
    assert (2 ^ 2 <= 2 ^ 1024)%Q as H4
      by (apply Qpower_le_compat_l; [lia|lra]).
    change (2 ^ 2)%Q with 4%Q in H4.
    assert ((1 # 2 ^ 53) <= 1)%Q as Hs by discriminate.
    set (B := (2 ^ 1024)%Q) in *. set (s := (1 # 2 ^ 53)%Q) in *. lra. }
  rewrite Hov.
  destruct (Qle_bool 0 x) eqn:Ex.
  - apply Qle_bool_iff in Ex.
    assert (a == x)%Q as Hax by (unfold a; by apply Qabs_pos).
    exists (Qred r). split; [done|]. rewrite Qred_correct.
    split; [lra|]. split; [lra|]. split; [|split; [|done]].
    2:{ intros Hx0.
        assert (m ≤ 0)%Z as Hle.
        { apply round_half_even_le. unfold y.
          apply Qle_shift_div_r; [done|].
          change (inject_Z 0) with 0%Q. lra. }
        assert (m = 0%Z) as Hm by lia. unfold r. rewrite Hm.
        change (inject_Z 0) with 0%Q. lra. }
    intros H1.
    assert (inject_Z (2 ^ (- e)) * p == 1)%Q as HN.
    { unfold p. rewrite Zpower_Qpower by lia.
      change (inject_Z 2) with 2%Q.
      rewrite <- Qpower_plus by lra.
      by replace (- e + e)%Z with 0%Z by lia. }
    assert (2 ^ (- e) ≤ m)%Z as HNm.
    { apply round_half_even_ge. unfold y.
      apply Qle_shift_div_l; [done|]. lra. }
    rewrite Zle_Qle in HNm.
    pose proof (Qmult_le_compat_r _ _ p HNm (Qlt_le_weak _ _ Hp)) as Hge.
    unfold r. lra.
  - assert (x < 0)%Q as Hneg.
    { apply Qnot_le_lt. intros H. apply Qle_bool_iff in H. congruence. }
    assert (a == - x)%Q as Hax.
    { unfold a. apply Qabs_neg. lra. }
    exists (Qred (- r)). split; [done|]. rewrite Qred_correct.
    split; [lra|]. split; [lra|]. split; [lra|]. split; intros; lra.
Qed.

(** The literal [0.1] is the double nearest to one tenth, and sums are
    rounded: [0.8 - 0.1] is not [0.7]. *)
Lemma tenth_is_literal :
  Js.round64 (1 # 10) = Js.Fin Js.tenth
  ∧ Js.add (Js.round64 (8 # 10)) (Js.Fin (- Js.tenth))
    = Js.Fin (6305039478318695 # 9007199254740992)
  ∧ Js.round64 (7 # 10) = Js.Fin (3152519739159347 # 4503599627370496).
Proof. by vm_compute. Qed.

(** X16. The volume buttons saturate.  With the element's volume [q] in
    [0, 1]: volume-up returns normally, stores a volume in (0, 1] that
    is not below [q], unmutes, and stores exactly 1 once [q] is 0.9 or
    more; volume-down returns normally, stores a volume in [0, 1) that
    is not above [q], and once [q] is 0.1 or less stores 0 and mutes.
    Between the ends the step is the double 0.1 up to the rounding of
    the sum, which is at most [2^-53]. *)
Theorem volume_buttons_saturate (q : Q) (video : Video.t) (w : World) :
  videoRef w = Some video →
  Video.volume video = Js.Fin q →
  (0 <= q)%Q → (q <= 1)%Q →
  (∃ w' c, volumeUp w = Normal w'
           ∧ volume (state w') = Js.Fin c
           ∧ (0 < c)%Q ∧ (c <= 1)%Q ∧ (q <= c)%Q
           ∧ (c <= q + Js.tenth + (1 # 2 ^ 53))%Q
           ∧ ((q + Js.tenth <= 1)%Q → (q + Js.tenth - (1 # 2 ^ 53) <= c)%Q)
           ∧ isMuted (state w') = false
           ∧ ((9 # 10 <= q)%Q → (c == 1)%Q))
  ∧ (∃ w' c, volumeDown w = Normal w'
             ∧ volume (state w') = Js.Fin c
             ∧ (0 <= c)%Q ∧ (c < 1)%Q ∧ (c <= q)%Q
             ∧ (q - Js.tenth - (1 # 2 ^ 53) <= c)%Q
             ∧ ((Js.tenth <= q)%Q → (c <= q - Js.tenth + (1 # 2 ^ 53))%Q)
             ∧ ((q <= 1 # 10)%Q → (c == 0)%Q ∧ isMuted (state w') = true)).
Proof.
  intros Hv Hq H0 H1.
  unfold volumeUp, volumeDown, changeVolumeBy. rewrite Hv, Hq. cbn [Js.add].
  assert (0 < (1 # 2 ^ 53))%Q as Hs0 by reflexivity.
  assert ((1 # 2 ^ 53) < Js.tenth)%Q as Hst by reflexivity.
  assert (1 # 10 <= Js.tenth)%Q as Ht by discriminate.
  assert (Js.tenth < 1)%Q as Ht1 by reflexivity.
  set (s := (1 # 2 ^ 53)%Q) in *. set (t := Js.tenth) in *.
  split.
  - destruct (round64_near (q + t)) as (c0 & Ec0 & Hlo & Hhi & Hge1 & _);
      [lra|lra|]. fold s in Hlo, Hhi.
    rewrite Ec0.
    destruct (setVolumeLevel_real c0 video w Hv) as [w' E].
    destruct (setVolumeLevel_written _ _ _ _ Hv E) as (c & Ec & Hc0 & Hc1 & ->).
    destruct (clamped_finite c0) as (c' & Ec' & Hcl & _).
    rewrite Ec in Ec'. injection Ec' as <-.
    unfold clamp in Hcl.
    destruct (Qle_bool c0 0) eqn:Ea;
      [apply Qle_bool_iff in Ea; lra|apply Qle_bool_false in Ea].
    eexists _, c. split; [exact E|]. cbn.
    destruct (Qle_bool 1 c0) eqn:Eb;
      [apply Qle_bool_iff in Eb|apply Qle_bool_false in Eb].
    + split_and!; try done; try lra; try (intros; lra).
      destruct (Qeq_bool c 0) eqn:Ez; [|done].
      apply Qeq_bool_iff in Ez. lra.
    + split_and!; try done; try lra; try (intros; lra).
      destruct (Qeq_bool c 0) eqn:Ez; [|done].
      apply Qeq_bool_iff in Ez. lra.
  - destruct (round64_near (q + - t)) as (c0 & Ec0 & Hlo & Hhi & _ & Hle0 & Hge0);
      [lra|lra|]. fold s in Hlo, Hhi.
    rewrite Ec0.
    destruct (setVolumeLevel_real c0 video w Hv) as [w' E].
    destruct (setVolumeLevel_written _ _ _ _ Hv E) as (c & Ec & Hc0 & Hc1 & ->).
    destruct (clamped_finite c0) as (c' & Ec' & Hcl & _).
    rewrite Ec in Ec'. injection Ec' as <-.
    unfold clamp in Hcl.
    destruct (Qle_bool 1 c0) eqn:Eb;
      [apply Qle_bool_iff in Eb|apply Qle_bool_false in Eb].
    { destruct (Qle_bool c0 0) eqn:Ea;
        [apply Qle_bool_iff in Ea|apply Qle_bool_false in Ea]; lra. }
    eexists _, c. split; [exact E|]. cbn.
    destruct (Qle_bool c0 0) eqn:Ea;
      [apply Qle_bool_iff in Ea|apply Qle_bool_false in Ea].
    + split_and!; try done; try lra; try (intros; lra).
      intros _. split; [done|]. by apply Qeq_bool_iff.
    + split_and!; try done; try lra; try (intros; lra).
Qed.

(** From full volume: up stays at 1, down goes to the double nearest
    to 0.9. *)
Lemma volume_buttons_saturate_witness :
  (∃ w' c, volumeUp mounted = Normal w'
           ∧ volume (state w') = Js.Fin c
           ∧ (0 < c)%Q ∧ (c <= 1)%Q ∧ (1 <= c)%Q
           ∧ (c <= 1 + Js.tenth + (1 # 2 ^ 53))%Q
           ∧ ((1 + Js.tenth <= 1)%Q → (1 + Js.tenth - (1 # 2 ^ 53) <= c)%Q)
           ∧ isMuted (state w') = false
           ∧ ((9 # 10 <= 1)%Q → (c == 1)%Q))
  ∧ (∃ w' c, volumeDown mounted = Normal w'
             ∧ volume (state w') = Js.Fin c
             ∧ (0 <= c)%Q ∧ (c < 1)%Q ∧ (c <= 1)%Q
             ∧ (1 - Js.tenth - (1 # 2 ^ 53) <= c)%Q
             ∧ ((Js.tenth <= 1)%Q → (c <= 1 - Js.tenth + (1 # 2 ^ 53))%Q)
             ∧ ((1 <= 1 # 10)%Q → (c == 0)%Q ∧ isMuted (state w') = true)).
Proof.
  apply (volume_buttons_saturate 1 Video.fresh mounted);
    [reflexivity|reflexivity|discriminate|discriminate].
Defined.

(** The rounding shows after a few presses: ten volume-down presses from
    full volume do not reach 0 but [5 / 2^55] (about 1.39e-16), not
    muted; the eleventh press reaches 0 and mutes. *)
Lemma volume_down_ten_times :
  let w := steps (replicate 10 VolumeDown) mounted in
  volume (state w) = Js.Fin (5 # 36028797018963968)
  ∧ isMuted (state w) = false
  ∧ volume (state (step VolumeDown w)) = Js.Fin 0
  ∧ isMuted (state (step VolumeDown w)) = true.
Proof. by vm_compute. Qed.

(** X17. Fatal network errors are retried without limit and never
    reported: after any number [n] of them in a row, the engine has
    received [n] more [startLoad] calls and nothing else, and no state
    cell has changed, so [error] is not set and the overlay never
    appears. *)
Theorem network_errors_retry_forever (n : nat) (h0 : Hls.t) (w : World) :
  hls w = Some h0 →
  let w' := Nat.iter n (onHlsError networkError) w in
  hls w' = Some {| Hls.source := Hls.source h0;
                   Hls.calls := (Hls.calls h0
                                 ++ replicate n Hls.startLoad)%list |}
  ∧ state w' = state w
  ∧ videoRef w' = videoRef w
  ∧ effectLive w' = effectLive w.
Proof.
  intros Hh. cbn zeta. induction n as [|n (IHh & IHs & IHv & IHl)].
  - cbn. rewrite app_nil_r. by destruct h0.
  - rewrite Nat.iter_succ. set (wn := Nat.iter n _ w) in *.
    unfold onHlsError. rewrite IHh. cbn.
    repeat split; try done.
    unfold Hls.call. cbn. do 2 f_equal.
    rewrite <- app_assoc. f_equal.
    change (Hls.startLoad :: replicate n Hls.startLoad)
      with (replicate (S n) Hls.startLoad).
    by rewrite replicate_S_end.
Qed.

Lemma network_errors_retry_forever_witness :
  let w := changeSrc HlsJs (Some "a") mounted in
  let w' := Nat.iter 3 (onHlsError networkError) w in
  hls w' = Some {| Hls.source := "a";
                   Hls.calls := [Hls.loadSource "a"; Hls.attachMedia;
                                 Hls.startLoad; Hls.startLoad; Hls.startLoad] |}
  ∧ state w' = state w
  ∧ videoRef w' = videoRef w
  ∧ effectLive w' = effectLive w.
Proof.
  exact (network_errors_retry_forever 3 (Hls.create "a")
           (changeSrc HlsJs (Some "a") mounted) eq_refl).
Defined.

(** X18. Start of playback after a switch.  After a switch to a
    non-empty source that the browser can play, the ready callback
    (manifest parsed, or loaded metadata natively) ends loading without
    an error; if the browser refuses to autoplay, [isPlaying] is false,
    the element is left as it was and still no error is stored; if it
    allows it, the element is unpaused and the [play] event then stores
    [isPlaying = true]. *)
Theorem ready_starts_playback (sup : Support) (url : string) (w : World) :
  sup ≠ Unsupported → url ≠ "" →
  let w1 := changeSrc sup (Some url) w in
  let w2 := onManifestParsed w1 in
  ∃ video, videoRef w1 = Some video
    ∧ effectLive w1 = true
    ∧ isLoading (state w2) = false
    ∧ error (state w2) = None
    ∧ (Video.playAllowed video = false →
       isPlaying (state w2) = false ∧ videoRef w2 = Some video)
    ∧ (Video.playAllowed video = true →
       (Video.paused <$> videoRef w2) = Some false
       ∧ isPlaying (state (handlePlay w2)) = true
       ∧ error (state (handlePlay w2)) = None).
Proof.
  intros Hsup Hurl. cbn zeta.
  assert (falsy (Some url) = false) as Hf by (by apply String.eqb_neq).
  unfold changeSrc, srcEffect, commit, srcCleanup. rewrite Hf.
  destruct sup; [| |done];
    destruct (effectLive w), (videoRef w) as [video|] eqn:Ev; cbn;
    rewrite ?Ev; cbn; rewrite ?Hf;
    eexists; (split; [reflexivity|]); unfold onManifestParsed, Video.play; cbn;
    (split; [reflexivity|]);
    match goal with
    | |- context [Video.playAllowed ?v] => destruct (Video.playAllowed v)
    | _ => idtac
    end; cbn; repeat split; try done.
Qed.

Lemma ready_starts_playback_witness :
  let w1 := changeSrc HlsJs (Some "a") mounted in
  let w2 := onManifestParsed w1 in
  ∃ video, videoRef w1 = Some video
    ∧ effectLive w1 = true
    ∧ isLoading (state w2) = false
    ∧ error (state w2) = None
    ∧ (Video.playAllowed video = false →
       isPlaying (state w2) = false ∧ videoRef w2 = Some video)
    ∧ (Video.playAllowed video = true →
       (Video.paused <$> videoRef w2) = Some false
       ∧ isPlaying (state (handlePlay w2)) = true
       ∧ error (state (handlePlay w2)) = None).
Proof.
  apply (ready_starts_playback HlsJs "a" mounted); discriminate.
Defined.

End PlayerMachineProperties.

(** ** Playlist parsing *)

Section PlaylistProperties.

Import Playlist.

Lemma free_cons (p : ascii → bool) (c : ascii) (s : string) :
  free p (String c s) ↔ p c = false ∧ free p s.
Proof. unfold free. cbn. by rewrite Forall_cons. Qed.

Lemma free_nil (p : ascii → bool) : free p "".
Proof. constructor. Qed.

Lemma trimStart_free (p : ascii → bool) (s : string) :
  free p s → free p (trimStart s).
Proof.
  induction s as [|c s IH]; cbn; [done|].
  intros Hf. destruct (isSpace c); [|done].
  apply IH. by apply free_cons in Hf as [_ ?].
Qed.

Lemma trimEnd_free (p : ascii → bool) (s : string) :
  free p s → free p (trimEnd s).
Proof.
  induction s as [|c s IH]; cbn; [done|].
  intros [Hc Hs]%free_cons. specialize (IH Hs).
  destruct (trimEnd s) as [|d t].
  - destruct (isSpace c); [apply free_nil|].
    apply free_cons. split; [done|apply free_nil].
  - by apply free_cons.
Qed.

Lemma trim_free (p : ascii → bool) (s : string) : free p s → free p (trim s).
Proof. intros Hf. by apply trimEnd_free, trimStart_free. Qed.

Lemma trimStart_head (s : string) :
  trimStart s = "" ∨ ∃ c r, trimStart s = String c r ∧ isSpace c = false.
Proof.
  induction s as [|c s IH]; cbn; [by left|].
  destruct (isSpace c) eqn:E; [done|]. right. by exists c, s.
Qed.

Lemma trimEnd_head (c : ascii) (r : string) :
  isSpace c = false → ∃ r', trimEnd (String c r) = String c r'.
Proof.
  intros Hc. cbn. destruct (trimEnd r); rewrite ?Hc; by eexists.
Qed.

Lemma trimEnd_idem (s : string) : trimEnd (trimEnd s) = trimEnd s.
Proof.
  induction s as [|c s IH]; cbn; [done|].
  destruct (trimEnd s) as [|d t] eqn:E.
  - destruct (isSpace c) eqn:Ec; cbn; [done|]. by rewrite Ec.
  - cbn in *. cbn. by rewrite IH.
Qed.

Lemma trim_idem (s : string) : trim (trim s) = trim s.
Proof.
  unfold trim. destruct (trimStart_head s) as [->|(c & r & -> & Hc)]; [done|].
  destruct (trimEnd_head c r Hc) as [r' E]. rewrite E.
  cbn [trimStart]. rewrite Hc, <- E. apply trimEnd_idem.
Qed.

(** The pieces of a split do not contain the separator. *)
Lemma split_free (sep : ascii) (s : string) :
  Forall (free (Ascii.eqb sep)) (split sep s).
Proof.
  induction s as [|c s IH]; cbn.
  - repeat constructor.
  - destruct (Ascii.eqb c sep) eqn:E.
    + constructor; [apply free_nil|done].
    + destruct (split sep s) as [|piece rest].
      * repeat constructor. by rewrite Ascii.eqb_sym.
      * apply Forall_cons in IH as [Hp Hr]. constructor; [|done].
        apply free_cons. split; [by rewrite Ascii.eqb_sym|done].
Qed.

Lemma split_nonempty (sep : ascii) (s : string) : split sep s ≠ [].
Proof.
  destruct s as [|c s]; cbn; [done|].
  destruct (Ascii.eqb c sep); [done|]. by destruct (split sep s).
Qed.

Lemma extinf_is_comment (s : string) :
  startsWith "#EXTINF:" s = true → startsWith "#" s = true.
Proof.
  unfold startsWith. destruct s as [|c s]; [done|].
  cbn [String.prefix]. destruct (ascii_dec _ c); [|done]. by destruct s.
Qed.

Lemma parseLines_urls (current : option Info) (lines : list string) (e : Entry) :
  e ∈ parseLines current lines →
  ∃ l, l ∈ lines ∧ url e = trim l ∧ isUrlLine l = true.
Proof.
  revert current. induction lines as [|l rest IH]; intros current; cbn.
  - by intros ?%elem_of_nil.
  - assert (∀ cur, e ∈ parseLines cur rest →
              ∃ l0, l0 ∈ l :: rest ∧ url e = trim l0 ∧ isUrlLine l0 = true)
      as Hrest.
    { intros cur (l0 & Hin & Hu)%IH. exists l0. split; [|done].
      by apply list_elem_of_further. }
    destruct (String.eqb (trim l) "") eqn:E0; [apply Hrest|].
    destruct (startsWith "#EXTINF:" (trim l)) eqn:E1; [apply Hrest|].
    destruct (startsWith "#" (trim l)) eqn:E2; cbn; [apply Hrest|].
    intros [->|Hin]%elem_of_cons; [|by eapply Hrest].
    exists l. split; [apply list_elem_of_here|]. split; [done|].
    unfold isUrlLine. by rewrite E0, E2.
Qed.

Lemma parseLines_count (current : option Info) (lines : list string) :
  length (parseLines current lines) = length (List.filter isUrlLine lines).
Proof.
  revert current. induction lines as [|l rest IH]; intros current; cbn;
    [done|].
  unfold isUrlLine at 1.
  destruct (String.eqb (trim l) "") eqn:E0; cbn; [apply IH|].
  destruct (startsWith "#EXTINF:" (trim l)) eqn:E1.
  - rewrite (extinf_is_comment _ E1). cbn. apply IH.
  - destruct (startsWith "#" (trim l)) eqn:E2; cbn; [apply IH|].
    by rewrite IH.
Qed.

(** The urls of the result, in order: the trimmed lines that are
    neither empty nor comments. *)
Lemma parseLines_url_list (current : option Info) (lines : list string) :
  url <$> parseLines current lines = trim <$> List.filter isUrlLine lines.
Proof.
  revert current. induction lines as [|l rest IH]; intros current; cbn;
    [done|].
  unfold isUrlLine at 1.
  destruct (String.eqb (trim l) "") eqn:E0; cbn; [apply IH|].
  destruct (startsWith "#EXTINF:" (trim l)) eqn:E1.
  - rewrite (extinf_is_comment _ E1). cbn. apply IH.
  - destruct (startsWith "#" (trim l)) eqn:E2; cbn; [apply IH|].
    by rewrite IH.
Qed.

(** ASCII text stays ASCII when split and trimmed. *)
Lemma isAscii_free (s : string) :
  Str.isAscii s ↔ free (λ c, negb (nat_of_ascii c <? 128)%nat) s.
Proof.
  unfold Str.isAscii, free. apply Forall_iff. intros c.
  by rewrite negb_false_iff.
Qed.

Lemma split_pieces_free (p : ascii → bool) (sep : ascii) (s : string) :
  free p s → Forall (free p) (split sep s).
Proof.
  induction s as [|c s IH]; cbn.
  - by repeat constructor.
  - intros [Hc Hs]%free_cons. specialize (IH Hs).
    destruct (Ascii.eqb c sep).
    + constructor; [apply free_nil|done].
    + destruct (split sep s) as [|piece rest].
      * repeat constructor. done.
      * apply Forall_cons in IH as [Hp Hr]. constructor; [|done].
        by apply free_cons.
Qed.

(** X19. For an ASCII playlist text, the urls of the entries
    [parseM3U] returns are, in order, the lines of the text that once
    trimmed are neither empty nor start with [#], each trimmed.  So
    there are exactly as many entries as such lines, and every url is
    not empty, has no white space at either end, does not start with
    [#], contains no line feed and is ASCII. *)
Theorem parsed_urls (text : string) :
  Str.isAscii text →
  url <$> parseM3U text
  = trim <$> List.filter isUrlLine (split newline text)
  ∧ length (parseM3U text)
    = length (List.filter isUrlLine (split newline text))
  ∧ Forall (λ e, url e ≠ ""
                 ∧ trim (url e) = url e
                 ∧ startsWith "#" (url e) = false
                 ∧ free (Ascii.eqb newline) (url e)
                 ∧ Str.isAscii (url e))
      (parseM3U text).
Proof.
  intros Hascii.
  split; [apply parseLines_url_list|]. split; [apply parseLines_count|].
  apply Forall_forall. intros e (l & Hl & -> & Hu)%parseLines_urls.
  unfold isUrlLine in Hu. apply andb_true_iff in Hu as [H0 H1].
  apply negb_true_iff in H0, H1. apply String.eqb_neq in H0.
  split; [done|]. split; [apply trim_idem|]. split; [done|]. split.
  - apply trim_free.
    by apply (proj1 (Forall_forall _ _) (split_free newline text)).
  - apply isAscii_free, trim_free.
    apply isAscii_free in Hascii.
    by apply (proj1 (Forall_forall _ _)
                (split_pieces_free _ newline text Hascii)).
Qed.

(** A header, a named channel whose url line has spaces around it, an
    empty line, a comment and a url without a name. *)
Lemma parsed_urls_witness :
  let text :=
    "#EXTM3U" +:+ String newline
      ("#EXTINF:-1,News 24" +:+ String newline
         ("  http://tv.example/n.m3u8 " +:+ String newline
            (String newline
               ("# a comment" +:+ String newline
                  "http://tv.example/m.m3u8")))) in
  url <$> parseM3U text
  = ["http://tv.example/n.m3u8"; "http://tv.example/m.m3u8"]
  ∧ url <$> parseM3U text
    = trim <$> List.filter isUrlLine (split newline text)
  ∧ length (parseM3U text)
    = length (List.filter isUrlLine (split newline text))
  ∧ Forall (λ e, url e ≠ ""
                 ∧ trim (url e) = url e
                 ∧ startsWith "#" (url e) = false
                 ∧ free (Ascii.eqb newline) (url e)
                 ∧ Str.isAscii (url e))
      (parseM3U text).
Proof.
  intros text. split; [by vm_compute|].
  apply (parsed_urls text). by repeat constructor.
Defined.

Lemma untilQuote_free (s v : string) :
  untilQuote s = Some v →
  free (Ascii.eqb quote) v ∧ free isLineTerminator v.
Proof.
  revert v. induction s as [|c s IH]; intros v; cbn; [done|].
  destruct (Ascii.eqb c quote) eqn:Eq.
  - intros [= <-]. split; apply free_nil.
  - destruct (isLineTerminator c) eqn:El; [done|].
    destruct (untilQuote s) as [t|]; [|done]. intros [= <-].
    destruct (IH t eq_refl) as [Hq Hl].
    split; apply free_cons; split; try done; by rewrite Ascii.eqb_sym.
Qed.

Lemma matchAttr_free (key s v : string) :
  matchAttr key s = Some v →
  free (Ascii.eqb quote) v ∧ free isLineTerminator v.
Proof.
  induction s as [|c s IH]; cbn.
  - destruct (prefixCI key ""); [|done].
    destruct (untilQuote _) eqn:E; [|done].
    intros [= <-]. by eapply untilQuote_free.
  - destruct (prefixCI key (String c s)).
    + destruct (untilQuote _) eqn:E; [|exact IH].
      intros [= <-]. by eapply untilQuote_free.
    + exact IH.
Qed.

(** A literal that contains a quote matches nowhere in a text without
    quotes. *)
Lemma lower_quote (c : ascii) :
  Str.lower_char c = Str.lower_char quote → c = quote.
Proof. destruct c as [[] [] [] [] [] [] [] []]; vm_compute; congruence. Qed.

Lemma prefixCI_quote (a b s : string) :
  free (Ascii.eqb quote) s → prefixCI (a +:+ String quote b) s = false.
Proof.
  revert s. induction a as [|x a IH]; intros s Hs.
  - change ("" +:+ String quote b) with (String quote b).
    destruct s as [|c s]; [done|]. cbn [prefixCI].
    apply free_cons in Hs as [Hc _].
    destruct (Ascii.eqb_spec (Str.lower_char quote) (Str.lower_char c))
      as [E|]; [|done].
    symmetry in E. apply lower_quote in E as ->.
    by rewrite Ascii.eqb_refl in Hc.
  - change (String x a +:+ String quote b)
      with (String x (a +:+ String quote b)).
    destruct s as [|c s]; [done|]. cbn [prefixCI].
    apply free_cons in Hs as [_ Hs]. rewrite (IH s Hs). apply andb_false_r.
Qed.

Lemma matchAttr_no_quote (a b s : string) :
  free (Ascii.eqb quote) s → matchAttr (a +:+ String quote b) s = None.
Proof.
  induction s as [|c s IH]; intros Hs; cbn [matchAttr].
  - by rewrite prefixCI_quote.
  - rewrite prefixCI_quote by done.
    apply IH. by apply free_cons in Hs as [_ ?].
Qed.

Lemma split_no_sep (sep : ascii) (s : string) :
  free (Ascii.eqb sep) s → split sep s = [s].
Proof.
  induction s as [|c s IH]; cbn; [done|].
  intros [Hc Hs]%free_cons. rewrite Ascii.eqb_sym, Hc. by rewrite IH.
Qed.

Lemma parseExtinf_fields (line : string) :
  let i := parseExtinf line in
  free (Ascii.eqb comma) (name i)
  ∧ trim (name i) = name i
  ∧ (∀ v, logo i = Some v →
       free (Ascii.eqb quote) v ∧ free isLineTerminator v)
  ∧ free (Ascii.eqb quote) (group i)
  ∧ free isLineTerminator (group i).
Proof.
  cbn zeta. unfold parseExtinf. cbn [name logo group].
  split; [|split; [apply trim_idem|split]].
  - apply trim_free.
    pose proof (split_free comma line) as Hf.
    destruct (split comma line) as [|first [|second rest]];
      [by repeat constructor|by repeat constructor|].
    apply Forall_cons in Hf as [_ [Hs _]%Forall_cons].
    destruct (String.eqb second ""); [|done].
    by repeat constructor.
  - intros v. apply matchAttr_free.
  - destruct (matchAttr groupTitle line) as [g|] eqn:E; cbn.
    + by apply matchAttr_free in E.
    + split; by repeat constructor.
Qed.

Lemma parseLines_infos (current : option Info) (lines : list string)
    (P : Info → Prop) :
  (∀ line, P (parseExtinf line)) →
  (∀ i, current = Some i → P i) →
  Forall (λ e, ∀ i, info e = Some i → P i) (parseLines current lines).
Proof.
  intros HP. revert current.
  induction lines as [|l rest IH]; intros current Hc; cbn; [constructor|].
  destruct (String.eqb (trim l) ""); [by apply IH|].
  destruct (startsWith "#EXTINF:" (trim l)).
  { apply IH. intros i [= <-]. apply HP. }
  destruct (startsWith "#" (trim l)); cbn; [by apply IH|].
  constructor; [done|]. by apply IH.
Qed.

(** X20. What [parseM3U] reports about a channel is clean: the name
    contains no comma and no white space at either end; a logo, when
    there is one, and the group contain no double quote and no line
    break.  The defaults apply as written: a line without a comma gives
    the name Unknown, and a line without any double quote gives no logo
    and the group Other. *)
Theorem parsed_fields (text : string) :
  Forall (λ e, ∀ i, info e = Some i →
            free (Ascii.eqb comma) (name i)
            ∧ trim (name i) = name i
            ∧ (∀ v, logo i = Some v →
                 free (Ascii.eqb quote) v ∧ free isLineTerminator v)
            ∧ free (Ascii.eqb quote) (group i)
            ∧ free isLineTerminator (group i))
    (parseM3U text)
  ∧ (∀ line, free (Ascii.eqb comma) line →
       name (parseExtinf line) = "Unknown")
  ∧ (∀ line, free (Ascii.eqb quote) line →
       logo (parseExtinf line) = None ∧ group (parseExtinf line) = "Other").
Proof.
  split; [|split].
  - apply parseLines_infos; [apply parseExtinf_fields|done].
  - intros line Hf. unfold parseExtinf. cbn [name].
    by rewrite (split_no_sep _ _ Hf).
  - intros line Hf. unfold parseExtinf. cbn [logo group].
    unfold tvgLogo, groupTitle. by rewrite !matchAttr_no_quote.
Qed.

(** *** Reading back what was written *)

Ltac app_norm :=
  repeat match goal with
    | |- context [String ?x ?a +:+ ?b] =>
        change (String x a +:+ b) with (String x (a +:+ b))
    | |- context [EmptyString +:+ ?b] => change (EmptyString +:+ b) with b
    | H : context [String ?x ?a +:+ ?b] |- _ =>
        change (String x a +:+ b) with (String x (a +:+ b)) in H
    | H : context [EmptyString +:+ ?b] |- _ =>
        change (EmptyString +:+ b) with b in H
    end.

Lemma append_assoc (a b c : string) : (a +:+ b) +:+ c = a +:+ (b +:+ c).
Proof. induction a as [|x a IH]; app_norm; [done|]. by f_equal. Qed.

Lemma free_app (p : ascii → bool) (a b : string) :
  free p (a +:+ b) ↔ free p a ∧ free p b.
Proof.
  induction a as [|x a IH]; app_norm.
  - split; [by split; [apply free_nil|]|by intros [_ ?]].
  - rewrite !free_cons, IH. tauto.
Qed.

Lemma split_app (sep : ascii) (a b : string) :
  free (Ascii.eqb sep) a →
  split sep (a +:+ String sep b) = a :: split sep b.
Proof.
  induction a as [|x a IH]; app_norm; cbn [split].
  - by rewrite Ascii.eqb_refl.
  - intros [Hx Ha]%free_cons. rewrite Ascii.eqb_sym, Hx. by rewrite IH.
Qed.

Lemma trimEnd_app (a b : string) :
  trimEnd b = b → b ≠ "" → trimEnd (a +:+ b) = a +:+ b.
Proof.
  intros Hb Hne. induction a as [|x a IH]; app_norm; [done|].
  cbn [trimEnd]. rewrite IH. destruct (a +:+ b) as [|y t] eqn:E; [|done].
  destruct a; app_norm; [|done]. by subst b.
Qed.

Lemma trim_fixed (s : string) :
  trim s = s → s ≠ "" → trimStart s = s ∧ trimEnd s = s.
Proof.
  intros Ht Hne. unfold trim in Ht.
  assert (trimStart s = s) as Hs.
  { destruct (trimStart_head s) as [E|(c & r & E & Hc)].
    - rewrite E in Ht. cbn in Ht. by subst s.
    - rewrite E in Ht. destruct (trimEnd_head c r Hc) as [r' E'].
      rewrite E' in Ht. subst s. cbn. by rewrite Hc. }
  split; [done|]. by rewrite Hs in Ht.
Qed.

Lemma untilQuote_app (v r : string) :
  free (Ascii.eqb quote) v → free isLineTerminator v →
  untilQuote (v +:+ String quote r) = Some v.
Proof.
  induction v as [|c v IH]; app_norm; cbn [untilQuote].
  - by rewrite Ascii.eqb_refl.
  - intros [Hq Hv]%free_cons [Hl Hv']%free_cons.
    rewrite Ascii.eqb_sym, Hq, Hl. by rewrite IH.
Qed.

Lemma matchAttr_skip (key a s : string) :
  startsWithin key a s = false →
  matchAttr key (a +:+ s) = matchAttr key s.
Proof.
  induction a as [|c a IH]; [done|].
  cbn [startsWithin]. intros [Hp Hr]%orb_false_elim.
  change (String c a +:+ s) with (String c (a +:+ s)) in *.
  cbn [matchAttr]. rewrite Hp. by apply IH.
Qed.

Lemma prefixCI_refl (k x : string) : prefixCI k (k +:+ x) = true.
Proof.
  induction k as [|c k IH]; app_norm; [done|].
  cbn [prefixCI]. by rewrite Ascii.eqb_refl, IH.
Qed.

Lemma drop_app (k x : string) : drop (String.length k) (k +:+ x) = x.
Proof. induction k as [|c k IH]; app_norm; [done|]. apply IH. Qed.

Lemma matchAttr_here (key v r : string) :
  free (Ascii.eqb quote) v → free isLineTerminator v →
  matchAttr key (key +:+ v +:+ String quote r) = Some v.
Proof.
  intros Hq Hl.
  assert (untilQuote (drop (String.length key)
                        (key +:+ v +:+ String quote r)) = Some v) as Hu.
  { rewrite drop_app. by apply untilQuote_app. }
  pose proof (prefixCI_refl key (v +:+ String quote r)) as Hp.
  destruct (key +:+ v +:+ String quote r) as [|c t]; cbn [matchAttr];
    by rewrite Hp, Hu.
Qed.

Lemma startsWithin_app (key a b s : string) :
  startsWithin key (a +:+ b) s
  = startsWithin key a (b +:+ s) || startsWithin key b s.
Proof.
  induction a as [|c a IH]; app_norm; [done|].
  cbn [startsWithin]. app_norm. rewrite IH, append_assoc.
  by rewrite orb_assoc.
Qed.

Lemma matchAttr_found (key a v r : string) :
  startsWithin key a (key +:+ v +:+ String quote r) = false →
  free (Ascii.eqb quote) v → free isLineTerminator v →
  matchAttr key (a +:+ key +:+ v +:+ String quote r) = Some v.
Proof.
  intros Ha Hq Hl. rewrite matchAttr_skip by done. by apply matchAttr_here.
Qed.

(** Inside a text without quotes, a literal that ends with its only
    quote can only start where the text ends with the rest of the
    literal. *)
Lemma prefixCI_at_end (k a r : string) :
  free (Ascii.eqb quote) k → free (Ascii.eqb quote) a →
  prefixCI (k +:+ String quote "") (a +:+ String quote r) = true →
  String.length a = String.length k ∧ prefixCI k a = true.
Proof.
  revert a. induction k as [|x k IH]; intros a Hk Ha; app_norm.
  - destruct a as [|c a]; [done|]. app_norm.
    cbn [prefixCI]. apply free_cons in Ha as [Hc _].
    intros [E _]%andb_true_iff. apply Ascii.eqb_eq in E.
    symmetry in E. apply lower_quote in E as ->.
    by rewrite Ascii.eqb_refl in Hc.
  - apply free_cons in Hk as [Hx Hk].
    destruct a as [|c a]; app_norm.
    + cbn [prefixCI]. intros [E _]%andb_true_iff. apply Ascii.eqb_eq in E.
      apply lower_quote in E as ->. by rewrite Ascii.eqb_refl in Hx.
    + cbn [prefixCI]. apply free_cons in Ha as [_ Ha].
      intros [E Hp]%andb_true_iff.
      destruct (IH a Hk Ha Hp) as [Hlen Hpre].
      split; [cbn; by rewrite Hlen|]. cbn [prefixCI]. by rewrite E, Hpre.
Qed.

Lemma startsWithin_text (k a r : string) :
  free (Ascii.eqb quote) k → free (Ascii.eqb quote) a →
  endsWithCI k a = false →
  startsWithin (k +:+ String quote "") a (String quote r) = false.
Proof.
  intros Hk. induction a as [|c a IH]; [done|].
  intros Ha He. cbn [startsWithin].
  cbn [endsWithCI] in He. apply orb_false_elim in He as [He1 He2].
  apply orb_false_intro.
  - destruct (prefixCI (k +:+ String quote "") _) eqn:Hp; [|done].
    apply prefixCI_at_end in Hp as [Hlen Hpre]; [|done|done].
    rewrite Hlen, Nat.eqb_refl, Hpre in He1. done.
  - apply IH; [|done]. by apply free_cons in Ha as [_ ?].
Qed.

Lemma drop_at_end (k a r : string) :
  String.length a = String.length k →
  drop (String.length (k +:+ String quote "")) (a +:+ String quote r) = r.
Proof.
  revert a. induction k as [|x k IH]; intros [|c a] Hlen; app_norm;
    try done.
  cbn [String.length drop]. apply IH. by injection Hlen.
Qed.

(** With a single quote in the text there is no attribute to find. *)
Lemma matchAttr_one_quote (k a r : string) :
  free (Ascii.eqb quote) k → free (Ascii.eqb quote) a →
  free (Ascii.eqb quote) r →
  matchAttr (k +:+ String quote "") (a +:+ String quote r) = None.
Proof.
  intros Hk Ha Hr.
  assert (untilQuote r = None) as Hnone.
  { destruct (untilQuote r) as [v|] eqn:E; [|done].
    exfalso. clear -E Hr. revert v E.
    induction r as [|c r IH]; intros v; cbn [untilQuote]; [done|].
    apply free_cons in Hr as [Hc Hr]. rewrite Ascii.eqb_sym, Hc.
    destruct (isLineTerminator c); [done|].
    destruct (untilQuote r) as [w|]; [|done]. by destruct (IH Hr w). }
  induction a as [|c a IH]; app_norm.
  - cbn [matchAttr].
    destruct (prefixCI (k +:+ String quote "") (String quote r)) eqn:Hp.
    + apply (prefixCI_at_end k "" r Hk Ha) in Hp as [Hlen _].
      pose proof (drop_at_end k "" r Hlen) as Hd. app_norm.
      rewrite Hd, Hnone. by apply matchAttr_no_quote.
    + by apply matchAttr_no_quote.
  - cbn [matchAttr].
    assert (free (Ascii.eqb quote) a) as Ha' by (by apply free_cons in Ha as [_ ?]).
    destruct (prefixCI (k +:+ String quote "")
                (String c (a +:+ String quote r))) eqn:Hp.
    + apply (prefixCI_at_end k (String c a) r Hk Ha) in Hp as [Hlen _].
      pose proof (drop_at_end k (String c a) r Hlen) as Hd. app_norm.
      rewrite Hd, Hnone. by apply IH.
    + by apply IH.
Qed.

Lemma lineTerminator_newline (s : string) :
  free isLineTerminator s → free (Ascii.eqb newline) s.
Proof.
  intros Hs. eapply Forall_impl; [exact Hs|].
  intros x Hx. cbn in Hx. unfold isLineTerminator in Hx.
  apply orb_false_elim in Hx as [Hx _].
  destruct (Ascii.eqb_spec newline x) as [<-|]; [by vm_compute in Hx|done].
Qed.

(** X21. Reading back what was written.  For a channel with ASCII
    fields that can be written without ambiguity, [parseM3U] applied to
    its two written lines returns exactly that channel: name, logo (or
    none), group and url. *)
Theorem parse_written (c : IpTv.Channel) :
  writable c →
  parseM3U (writeEntry c)
  = [{| info := Some {| name := IpTv.name c; logo := IpTv.logo c;
                        group := IpTv.group c |};
        url := IpTv.url c |}]
  ∧ toChannel <$> parseM3U (writeEntry c) = [Some c].
Proof.
  intros (_ & _ & _ & _ & Hn & Htn & Hnc & Hnq & Hnl & (Hgq & Hgc & Hgl)
          & Hlogo & Hu & Htu & Hus & Hul).
  destruct c as [N U L G]. cbn [IpTv.name IpTv.url IpTv.logo IpTv.group] in *.
  destruct (trim_fixed N Htn Hn) as [HsN HeN].
  pose proof (lineTerminator_newline G Hgl) as Hgn.
  set (attrs := match L with
                | Some l => tvgLogo +:+ l +:+ String quote " "
                | None => ""
                end).
  set (pre := "#EXTINF:-1 " +:+ attrs +:+ groupTitle +:+ G +:+ String quote "").
  assert (writeEntry {| IpTv.name := N; IpTv.url := U; IpTv.logo := L;
                        IpTv.group := G |}
          = (pre +:+ String comma N) +:+ String newline U) as Hw.
  { unfold writeEntry, pre. cbn [IpTv.name IpTv.url IpTv.logo IpTv.group].
    fold attrs. rewrite !append_assoc. by app_norm. }
  assert (free (Ascii.eqb comma) pre ∧ free (Ascii.eqb newline) pre) as [Hpc Hpn].
  { unfold pre, attrs. destruct L as [l|].
    - destruct (Hlogo l eq_refl) as [(Hlq & Hlc & Hll) _].
      pose proof (lineTerminator_newline l Hll) as Hln.
      split; repeat (apply free_app; split); try done; by repeat constructor.
    - split; repeat (apply free_app; split); try done; by repeat constructor. }
  set (line := pre +:+ String comma N).
  assert (trim line = line) as Htl.
  { unfold trim.
    assert (trimStart line = line) as -> by done.
    unfold line. apply trimEnd_app; [|done].
    cbn [trimEnd]. rewrite HeN. by destruct N. }
  assert (startsWith "#EXTINF:" line = true) as Hext by done.
  assert (split comma line = [pre; N]) as Hsplit.
  { unfold line. rewrite split_app by done. by rewrite split_no_sep. }
  assert (matchAttr groupTitle line = Some G) as HG.
  { unfold line, pre, attrs. destruct L as [l|].
    - destruct (Hlogo l eq_refl) as [(Hlq & Hlc & Hll) Hle].
      replace (("#EXTINF:-1 " +:+ (tvgLogo +:+ l +:+ String quote " ")
                +:+ groupTitle +:+ G +:+ String quote "") +:+ String comma N)
        with ((("#EXTINF:-1 " +:+ tvgLogo) +:+ l +:+ String quote " ")
              +:+ groupTitle +:+ G +:+ String quote (String comma N))
        by (rewrite !append_assoc; by app_norm).
      apply matchAttr_found; [|done|done].
      rewrite !startsWithin_app. app_norm.
      rewrite (startsWithin_text "group-title=" l) by (done || by repeat constructor).
      done.
    - replace (("#EXTINF:-1 " +:+ "" +:+ groupTitle +:+ G +:+ String quote "")
               +:+ String comma N)
        with ("#EXTINF:-1 " +:+ groupTitle +:+ G
              +:+ String quote (String comma N))
        by (rewrite !append_assoc; by app_norm).
      by apply matchAttr_found. }
  assert (matchAttr tvgLogo line = L) as HL.
  { unfold line, pre, attrs. destruct L as [l|].
    - destruct (Hlogo l eq_refl) as [(Hlq & Hlc & Hll) Hle].
      replace (("#EXTINF:-1 " +:+ (tvgLogo +:+ l +:+ String quote " ")
                +:+ groupTitle +:+ G +:+ String quote "") +:+ String comma N)
        with ("#EXTINF:-1 " +:+ tvgLogo +:+ l
              +:+ String quote (" " +:+ groupTitle +:+ G
                                +:+ String quote (String comma N)))
        by (rewrite !append_assoc; by app_norm).
      by apply matchAttr_found.
    - replace (("#EXTINF:-1 " +:+ "" +:+ groupTitle +:+ G +:+ String quote "")
               +:+ String comma N)
        with (("#EXTINF:-1 " +:+ groupTitle) +:+ G
              +:+ String quote (String comma N))
        by (rewrite !append_assoc; by app_norm).
      rewrite matchAttr_skip by done.
      apply (matchAttr_one_quote "tvg-logo=" G (String comma N));
        [by repeat constructor|done|by apply free_cons]. }
  assert (parseExtinf line = {| name := N; logo := L; group := G |}) as HI.
  { unfold parseExtinf. rewrite Hsplit, HG, HL. cbn [default].
    destruct (String.eqb_spec N ""); [done|]. by rewrite Htn. }
  assert (parseM3U (writeEntry {| IpTv.name := N; IpTv.url := U;
                                  IpTv.logo := L; IpTv.group := G |})
          = [{| info := Some {| name := N; logo := L; group := G |};
                url := U |}]) as Hparse.
  { unfold parseM3U. rewrite Hw. fold line.
    rewrite split_app by (apply free_app; split; [done|by apply free_cons]).
    rewrite split_no_sep by done.
    cbn [parseLines]. rewrite Htl.
    destruct (String.eqb_spec line "") as [E|_]; [by rewrite E in Hext|].
    rewrite Hext, HI, Htu.
    destruct (String.eqb_spec U ""); [done|].
    destruct (startsWith "#EXTINF:" U) eqn:E;
      [by rewrite (extinf_is_comment U E) in Hus|].
    by rewrite Hus. }
  split; [exact Hparse|]. by rewrite Hparse.
Qed.

(** The written form of a channel with a logo. *)
Lemma parse_written_witness :
  let c := {| IpTv.name := "News 24"; IpTv.url := "http://tv.example/n.m3u8";
              IpTv.logo := Some "http://tv.example/n.png";
              IpTv.group := "News" |} in
  parseM3U (writeEntry c)
  = [{| info := Some {| name := IpTv.name c; logo := IpTv.logo c;
                        group := IpTv.group c |};
        url := IpTv.url c |}]
  ∧ toChannel <$> parseM3U (writeEntry c) = [Some c].
Proof.
  apply parse_written.
  unfold writable, attributeText. cbn [IpTv.name IpTv.url IpTv.logo IpTv.group].
  split_and!; try done; try (by repeat constructor).
  - intros l [= <-]. by repeat constructor.
  - intros l [= <-]. split_and!; try done; by repeat constructor.
Defined.

End PlaylistProperties.

(** ** The session identifier over time *)

Section SessionIdentity.

Import IpTv HostMachine.

(** Only a start without a live peer writes the identifier or the
    storage. *)
Lemma step_session (e : Event) (h : Host) :
  (remoteSessionId (step e h) = remoteSessionId h
   ∧ localStorage (step e h) = localStorage h)
  ∨ (∃ rnd, e = StartRemote rnd ∧ remotePeerRef h = None
            ∧ step e h = startRemoteHost rnd h).
Proof.
  unfold step.
  destruct (handle e h) as [h'|] eqn:E; [|by left].
  destruct e; cbn in E.
  - injection E as <-. by left.
  - injection E as <-. left. unfold next, handleNextChannel.
    by repeat case_match.
  - injection E as <-. left. unfold prev, handlePrevChannel.
    by repeat case_match.
  - destruct (onPlayer (Player.run a) h) as [h1|] eqn:E1; [|done].
    cbn in E. injection E as <-.
    apply onPlayer_inv in E1 as (p & ->). left.
    unfold onPlayerStateChange. cbn. by destruct p.
  - injection E as <-.
    destruct (remotePeerRef h) as [p|] eqn:Ep.
    + left. unfold startRemoteHost. by rewrite Ep.
    + right. by exists rnd.
  - injection E as <-. by left.
  - injection E as <-. left. unfold onPeerOpen.
    by destruct (remotePeerRef h).
  - injection E as <-. left. unfold onPeerConnection.
    destruct (remotePeerRef h); [|done]. by rewrite sendState_frame.
  - injection E as <-. by left.
  - injection E as <-. by left.
  - left. unfold onConnData in E.
    destruct (remotePeerRef h) as [p|] eqn:Ep; [|by injection E as <-].
    destruct (Js.is_str _ "command").
    + by apply handleRemoteCommand_reach in E as (sel & q & ->).
    + destruct (Js.is_str _ "remote-ready"); injection E as <-; [|done].
      by rewrite sendState_frame.
  - injection E as <-. by left.
  - injection E as <-. by left.
  - injection E as <-. left. rewrite broadcast_unfold.
    pose proof (forEach_frame (render h) (remoteConnectionsRef h) h) as Hf.
    cbn zeta in Hf. by rewrite Hf.
Qed.

Lemma stored_step (e : Event) (h : Host) :
  (remoteSessionId h ≠ "" →
   localStorage h !! REMOTE_SESSION_STORAGE_KEY = Some (remoteSessionId h)) →
  (remoteSessionId h ≠ "" → remoteSessionId (step e h) = remoteSessionId h)
  ∧ (remoteSessionId (step e h) ≠ "" →
     localStorage (step e h) !! REMOTE_SESSION_STORAGE_KEY
     = Some (remoteSessionId (step e h))).
Proof.
  intros Hk.
  destruct (step_session e h) as [[-> ->]|(rnd & -> & Hp & ->)]; [done|].
  unfold startRemoteHost. rewrite Hp. cbn.
  destruct (String.eqb_spec (remoteSessionId h) "") as [E|E].
  - split; [done|]. intros _. by rewrite lookup_insert_eq.
  - split; [done|]. intros _. by rewrite lookup_insert_eq.
Qed.

Lemma stored_steps (es : list Event) (h : Host) :
  (remoteSessionId h ≠ "" →
   localStorage h !! REMOTE_SESSION_STORAGE_KEY = Some (remoteSessionId h)) →
  (remoteSessionId h ≠ "" → remoteSessionId (steps es h) = remoteSessionId h)
  ∧ (remoteSessionId (steps es h) ≠ "" →
     localStorage (steps es h) !! REMOTE_SESSION_STORAGE_KEY
     = Some (remoteSessionId (steps es h))).
Proof.
  revert h. induction es as [|e es IH]; intros h Hk; [done|].
  change (steps (e :: es) h) with (steps es (step e h)).
  destruct (stored_step e h Hk) as [Hs Hk'].
  destruct (IH (step e h) Hk') as [Hs' Hk''].
  split; [|done]. intros Hne.
  rewrite Hs'; [by apply Hs|]. by rewrite Hs.
Qed.

Lemma stored_init (storage : gmap string string) :
  remoteSessionId (init storage) ≠ "" →
  localStorage (init storage) !! REMOTE_SESSION_STORAGE_KEY
  = Some (remoteSessionId (init storage)).
Proof. cbn. by destruct (storage !! REMOTE_SESSION_STORAGE_KEY). Qed.

(** X22. The session identifier is permanent.  Once a host shows a
    non-empty identifier, no sequence of user, player, peer or
    connection events changes it (starting and stopping the session
    included), and after a page reload from the storage left behind the
    host shows the same identifier, again through any sequence of
    events. *)
Theorem session_id_permanent (storage : gmap string string)
    (es es' es'' : list Event) :
  let h := steps es (init storage) in
  remoteSessionId h ≠ "" →
  remoteSessionId (steps es' h) = remoteSessionId h
  ∧ remoteSessionId (steps es'' (init (localStorage (steps es' h))))
    = remoteSessionId h.
Proof.
  intros h Hne.
  destruct (stored_steps es (init storage) (stored_init storage)) as [_ Hk].
  fold h in Hk.
  destruct (stored_steps es' h Hk) as [Hs Hk'].
  specialize (Hs Hne). split; [done|].
  assert (remoteSessionId (init (localStorage (steps es' h)))
          = remoteSessionId h) as Hi.
  { cbn. rewrite Hk' by (by rewrite Hs). by rewrite Hs. }
  destruct (stored_steps es'' _ (stored_init (localStorage (steps es' h))))
    as [Hs'' _].
  rewrite Hs'' by (by rewrite Hi). done.
Qed.

(** A session started on a fresh page, stopped, restarted, and started
    again after a reload. *)
Lemma session_id_permanent_witness :
  let h := steps [StartRemote 123456789012345%Z] (init ∅) in
  remoteSessionId h = "0HRHL1"
  ∧ remoteSessionId (steps [StopRemote; StartRemote (2 ^ 52)%Z] h) = "0HRHL1"
  ∧ remoteSessionId
      (steps [StartRemote 0%Z]
         (init (localStorage (steps [StopRemote; StartRemote (2 ^ 52)%Z] h))))
    = "0HRHL1".
Proof.
  intros h.
  assert (remoteSessionId h = "0HRHL1") as Hid by (by vm_compute).
  split; [exact Hid|].
  rewrite <- Hid at 1 2.
  apply (session_id_permanent ∅ [StartRemote 123456789012345%Z]
           [StopRemote; StartRemote (2 ^ 52)%Z] [StartRemote 0%Z]).
  fold h. by rewrite Hid.
Defined.

(** X23. A first start.  On a host without identifier and without a
    live peer, whatever [Math.random()] returns, [startRemoteHost]
    displays, stores and listens under one and the same identifier, of
    at most six characters, each in [0-9A-Z]. *)
Theorem fresh_session_id (rnd : Random) (h : Host) :
  (0 ≤ rnd < 2 ^ 53)%Z →
  remotePeerRef h = None → remoteSessionId h = "" →
  let h' := startRemoteHost rnd h in
  localStorage h' !! REMOTE_SESSION_STORAGE_KEY = Some (remoteSessionId h')
  ∧ peerId <$> remotePeerRef h' = Some (remoteSessionId h')
  ∧ remoteHostStatus h' = connecting
  ∧ Forall (λ c, Str.upper_alnum c = true) (Str.chars (remoteSessionId h'))
  ∧ (String.length (remoteSessionId h') ≤ 6)%nat.
Proof.
  intros Hr Hp Hid h'.
  destruct (start_generates rnd h Hp Hid) as (E & Hst & Hpeer).
  destruct (generateSessionId_alphabet rnd Hr) as [Ha Hl].
  fold h' in E, Hst, Hpeer. rewrite E.
  split; [done|]. split; [done|]. split; [|done].
  unfold h', startRemoteHost. by rewrite Hp.
Qed.

(** The first start on a fresh page. *)
Lemma fresh_session_id_witness :
  let h' := startRemoteHost 123456789012345%Z (init ∅) in
  remoteSessionId h' = "0HRHL1"
  ∧ localStorage h' !! REMOTE_SESSION_STORAGE_KEY = Some (remoteSessionId h')
  ∧ peerId <$> remotePeerRef h' = Some (remoteSessionId h')
  ∧ remoteHostStatus h' = connecting
  ∧ Forall (λ c, Str.upper_alnum c = true) (Str.chars (remoteSessionId h'))
  ∧ (String.length (remoteSessionId h') ≤ 6)%nat.
Proof.
  split; [by vm_compute|].
  apply (fresh_session_id 123456789012345%Z (init ∅)); [lia|done|done].
Defined.

End SessionIdentity.
